(** * vomitorium: the file-selection and traversal engine

    A shallow embedding of [src/vomitorium.js] (functions [isExcluded],
    [traverseDirectory], [processFile], [logSkippedFile] and [main]) together
    with the properties its specification states about them.

    The program is asynchronous but strictly sequential (every I/O call is
    awaited), so it is embedded in a small monad that threads the mutable part
    of the file system, records every I/O call in a trace, and has the two
    non-local exits of the source: a rejected promise (caught by [try/catch])
    and [process.exit]. *)

From Stdlib Require Import String Ascii List Bool Arith Lia.
From stdpp Require Import gmap strings list.

(** ** Strings *)

Module Str.

(** The line feed, written [\n] in the source's template literals. *)
Definition nl : string := String (ascii_of_nat 10) EmptyString.

(** The double quote character. *)
Definition dquote : string := String (ascii_of_nat 34) EmptyString.

(** [String.prototype.includes]: [includes s pat] is [s.includes(pat)]. *)
Fixpoint includes (s pat : string) : bool :=
  String.prefix pat s
  || match s with
     | EmptyString => false
     | String _ s' => includes s' pat
     end.

(** What [includes] decides: [pat] occurs in [s] as a contiguous run. *)
Definition substring_of (pat s : string) : Prop :=
  exists l r : string, s = l +:+ pat +:+ r.

(** [Array.prototype.includes] on an array of strings. *)
Definition array_includes (l : list string) (x : string) : bool :=
  existsb (String.eqb x) l.

End Str.

(** ** Node's [path] module (POSIX flavour)

    Absolute, normalised paths are kept as their list of components: [/a/b]
    is [["a"; "b"]] and the root [/] is [[]].  The strings the source hands to
    [String.prototype.includes] are recovered with [to_string]. *)

Abbreviation path := (list string).

Module Path.

(** The string of an absolute path. *)
Definition to_string (p : path) : string := "/" +:+ String.concat "/" p.

(** Splitting at every [/]; the pieces may be empty. *)
Fixpoint segments (s : string) : list string :=
  match s with
  | EmptyString => [EmptyString]
  | String c s' =>
      if Ascii.eqb c "/" then EmptyString :: segments s'
      else match segments s' with
           | [] => [String c EmptyString]
           | seg :: rest => String c seg :: rest
           end
  end.

(** One step of normalisation: [.] and empty pieces vanish, [..] drops the
    last component (and stays at the root), any other piece is appended. *)
Definition step (acc : path) (seg : string) : path :=
  if String.eqb seg "" || String.eqb seg "." then acc
  else if String.eqb seg ".." then removelast acc
  else acc ++ [seg].

(** [path.resolve(s)] in a process whose working directory is [cwd]. *)
Definition resolve (cwd : path) (s : string) : path :=
  fold_left step (segments s) (if String.prefix "/" s then [] else cwd).

(** [path.join(base, s)] for an absolute, normalised [base]. *)
Definition join (base : path) (s : string) : path :=
  fold_left step (segments s) base.

(** [path.join(dirPath, file.name)] where [file.name] is the name of a
    directory entry: a single component, never empty, [.] or [..]. *)
Definition join_entry (dirPath : path) (name : string) : path :=
  dirPath ++ [name].

(** Dropping the longest common prefix of two paths. *)
Fixpoint strip_common (from to : path) : path * path :=
  match from, to with
  | f :: from', t :: to' =>
      if String.eqb f t then strip_common from' to' else (from, to)
  | _, _ => (from, to)
  end.

(** [path.relative(from, to)]: one [..] for each component of [from] that
    is left after the common prefix, then what is left of [to]. *)
Definition relative (from to : path) : string :=
  let '(up, down) := strip_common from to in
  String.concat "/" (map (fun _ => "..") up ++ down).

(** [path.basename(p)]. *)
Definition basename (p : path) : string := List.last p "".

(** The suffix of [s] that starts at its last dot, if it has one. *)
Fixpoint from_last_dot (s : string) : option string :=
  match s with
  | EmptyString => None
  | String c s' =>
      match from_last_dot s' with
      | Some e => Some e
      | None => if Ascii.eqb c "." then Some s else None
      end
  end.

(** [path.extname(name)] for a single component: from the last dot to the
    end; empty when there is no dot, when the only dot is the first
    character, and for the name [..]. *)
Definition extname (name : string) : string :=
  match name with
  | EmptyString => ""
  | String _ rest =>
      match from_last_dot rest with
      | Some e => if String.eqb name ".." then "" else e
      | None => ""
      end
  end.

End Path.

(** ** The resolved configuration (lines 53-60 of the source) *)

Record config := Config {
  scanDir : string;
  includeDirs : list string;
  excludePatterns : list string;
  includeExtensions : list string;
  showExcluded : bool;
  showSkipped : bool;
  outputFile : string
}.

(** The defaults of [defaultConfig], as [main] sees them when neither a
    configuration file nor a command-line option overrides anything. *)
Definition defaultConfig : config :=
  {| scanDir := ".";
     includeDirs := [];
     excludePatterns :=
       ["node_modules"; ".git"; "dist"; "build"] ++ ["package.json"; "package-lock.json"];
     includeExtensions := [".js"; ".ts"; ".json"];
     showExcluded := true;
     showSkipped := true;
     outputFile := "output.sick" |}.

(** ** The selector *)

Section Selector.

Variable cfg : config.
(** [process.cwd()] *)
Variable cwd : path.

(** [isExcluded(filePath)], lines 69-80. *)
Definition isExcluded (filePath : path) : bool :=
  let relativePath := Path.relative cwd filePath in
  existsb
    (fun pattern =>
       let test1 := Str.includes relativePath pattern in
       let test2 := String.eqb (Path.basename filePath) pattern in
       if test1 || test2 then true else false)
    (excludePatterns cfg).

(** The test of line 103, on the joined full path. *)
Definition shouldRecurse (fullPath : path) : bool :=
  (length (includeDirs cfg) =? 0)
  || existsb (fun d => Str.includes (Path.to_string fullPath) d) (includeDirs cfg).

(** The test of line 109. *)
Definition qualifiesByExtension (name : string) : bool :=
  Str.array_includes (includeExtensions cfg) (Path.extname name).

End Selector.

(** ** The file system and the I/O monad *)

(** What [readdir] with [withFileTypes] shows of the tree: an entry is a
    directory ([isDirectory()] is true) or anything else.  [listable] and
    [readable] say whether [readdir] and [readFile] succeed on it.  The
    contents of files are kept apart, in a store indexed by path, because
    the program writes to one of them while it walks the tree.  The store
    holds the text of each file, that is, what decoding its bytes as UTF-8
    gives, since the program reads with ['utf-8'] and writes strings. *)
#[local] Set Warnings "-register-all".
Inductive node :=
| File (readable : bool)
| Dir (listable : bool) (entries : list (string * node)).

Definition isDirectory (n : node) : bool :=
  match n with Dir _ _ => true | File _ => false end.

Fixpoint find_entry (name : string) (es : list (string * node)) : option node :=
  match es with
  | [] => None
  | (n, c) :: es' => if String.eqb n name then Some c else find_entry name es'
  end.

Fixpoint lookup_node (n : node) (p : path) : option node :=
  match p with
  | [] => Some n
  | seg :: p' =>
      match n with
      | Dir _ es =>
          match find_entry seg es with
          | Some c => lookup_node c p'
          | None => None
          end
      | File _ => None
      end
  end.

(** The environment of one run: the working directory, the directory tree
    under [/] as [readdir] shows it during the walk (the output file, once
    [main] has created it, is an entry of its directory), and whether the
    calls that write succeed.  [append_ok k] is the fate of the [k]-th call
    of [appendFile] (counted from 0). *)
Record world := World {
  cwd : path;
  fsroot : node;
  write_ok : bool;
  append_ok : nat -> bool
}.

(** A path that is not in the tree behaves like an entry on which both
    [readdir] and [readFile] reject. *)
Definition node_at (w : world) (p : path) : node :=
  match lookup_node (fsroot w) p with
  | Some n => n
  | None => File false
  end.

(** The mutable state: the contents of the files, and the number of
    [appendFile] calls made so far. *)
Record fstate := FState {
  contents : gmap (list string) string;
  appends : nat
}.

(** Every call the program makes to the outside, with its result.
    [EvLog] is [console.log] and [EvError] is [console.error]; the error
    object that [console.error] prints after its message is left out. *)
Inductive event :=
| EvAccess (p : path) (ok : bool)
| EvWriteFile (p : path) (data : string) (ok : bool)
| EvReaddir (p : path) (ok : bool)
| EvReadFile (p : path) (result : option string)
| EvAppendFile (p : path) (data : string) (ok : bool)
| EvLog (msg : string)
| EvError (msg : string)
| EvExit (code : nat).

(** How a computation ends: with a value, with a rejected promise, or by
    [process.exit]. *)
Inductive outcome (A : Type) :=
| Done (a : A)
| Thrown
| Exited (code : nat).
Arguments Done {A} a.
Arguments Thrown {A}.
Arguments Exited {A} code.

Definition M (A : Type) : Type := fstate -> outcome A * fstate * list event.

Definition ret {A} (a : A) : M A := fun s => (Done a, s, []).

Definition bind {A B} (m : M A) (f : A -> M B) : M B :=
  fun s =>
    match m s with
    | (Done a, s1, t1) => let '(r, s2, t2) := f a s1 in (r, s2, t1 ++ t2)
    | (Thrown, s1, t1) => (Thrown, s1, t1)
    | (Exited c, s1, t1) => (Exited c, s1, t1)
    end.

(** [try { m } catch (error) { h }]; [process.exit] is not an exception. *)
Definition try_catch {A} (m : M A) (h : M A) : M A :=
  fun s =>
    match m s with
    | (Thrown, s1, t1) => let '(r, s2, t2) := h s1 in (r, s2, t1 ++ t2)
    | other => other
    end.

Definition throw_after {A} (e : event) : M A := fun s => (Thrown, s, [e]).
Definition emit (e : event) : M unit := fun s => (Done tt, s, [e]).

Declare Scope io_scope.
Delimit Scope io_scope with io.
Notation "x <- m ;; k" := (bind m (fun x => k))
  (at level 100, m at next level, right associativity) : io_scope.
Notation "m ;; k" := (bind m (fun _ => k))
  (at level 100, right associativity) : io_scope.
Local Open Scope io_scope.

(** [for (const x of l) { body(x) }]: a rejection or an exit in one
    iteration ends the loop. *)
Section ForEach.

Context {A : Type} (body : A -> M unit).

Fixpoint forEach (l : list A) : M unit :=
  match l with
  | [] => ret tt
  | x :: rest => body x ;; forEach rest
  end.

End ForEach.

Section IO.

Variable w : world.

(** [fs.access(p)]: resolves when [p] is in the tree. *)
Definition fs_access (p : path) : M unit :=
  match lookup_node (fsroot w) p with
  | Some _ => emit (EvAccess p true)
  | None => throw_after (EvAccess p false)
  end.

(** [fs.writeFile(p, data)]: creates or truncates. *)
Definition fs_writeFile (p : path) (data : string) : M unit :=
  fun s =>
    if write_ok w
    then (Done tt, {| contents := <[p := data]> (contents s); appends := appends s |},
          [EvWriteFile p data true])
    else (Thrown, s, [EvWriteFile p data false]).

(** [fs.appendFile(p, data)]: appends, creating the file when missing. *)
Definition fs_appendFile (p : path) (data : string) : M unit :=
  fun s =>
    if append_ok w (appends s)
    then (Done tt,
          {| contents := <[p := default "" (contents s !! p) +:+ data]> (contents s);
             appends := S (appends s) |},
          [EvAppendFile p data true])
    else (Thrown, {| contents := contents s; appends := S (appends s) |},
          [EvAppendFile p data false]).

(** [fs.readFile(p, 'utf-8')] on the entry [file] found at [p]: rejects on
    a directory, on an unreadable entry and on a file without contents;
    otherwise it resolves to the text the store holds for [p]. *)
Definition fs_readFile (file : node) (p : path) : M string :=
  fun s =>
    match file, contents s !! p with
    | File true, Some c => (Done c, s, [EvReadFile p (Some c)])
    | _, _ => (Thrown, s, [EvReadFile p None])
    end.

Definition console_log (msg : string) : M unit := emit (EvLog msg).
Definition console_error (msg : string) : M unit := emit (EvError msg).
Definition process_exit {A} (code : nat) : M A :=
  fun s => (Exited code, s, [EvExit code]).

End IO.

(** ** The writer: record formats *)

(** The template literal of line 135. *)
Definition processedRecord (relativePath fileContent : string) : string :=
  Str.nl +:+ Str.nl +:+ "--- File: " +:+ relativePath +:+ " ---" +:+ Str.nl +:+ Str.nl
  +:+ fileContent +:+ Str.nl.

(** The template literal of line 151. *)
Definition placeholderRecord (relativePath reason : string) : string :=
  Str.nl +:+ Str.nl +:+ "--- File: " +:+ relativePath +:+ " ---" +:+ Str.nl
  +:+ "(" +:+ reason +:+ ")" +:+ Str.nl.

Definition reasonExcluded : string := "Excluded".
Definition reasonSkipped : string := "Skipped (non-matching extension)".

(** ** The traverser *)

Section Traverser.

Variable cfg : config.
Variable w : world.

(** [processFile(filePath, outputFilePath)], lines 130-140; [file] is the
    entry found at [filePath]. *)
Definition processFile (file : node) (filePath outputFilePath : path) : M unit :=
  try_catch
    (fileContent <- fs_readFile file filePath ;;
     let relativePath := Path.relative (cwd w) filePath in
     fs_appendFile w outputFilePath (processedRecord relativePath fileContent) ;;
     console_log ("Processed file: " +:+ relativePath))
    (console_error ("Error processing file " +:+ Path.to_string filePath +:+ ":")).

(** [logSkippedFile(filePath, outputFilePath, reason)], lines 149-153. *)
Definition logSkippedFile (filePath outputFilePath : path) (reason : string) : M unit :=
  let relativePath := Path.relative (cwd w) filePath in
  fs_appendFile w outputFilePath (placeholderRecord relativePath reason) ;;
  console_log ("Skipped file: " +:+ relativePath +:+ " (" +:+ reason +:+ ")").

(** The body of the [for] loop of [traverseDirectory], lines 93-117, for
    the entry [file] named [name]; [recurse] is the recursive call of
    line 104 on that entry. *)
Definition traverseEntry (dirPath outputFilePath : path)
    (name : string) (file : node) (recurse : M unit) : M unit :=
  let fullPath := Path.join_entry dirPath name in
  if isExcluded cfg (cwd w) fullPath then
    if showExcluded cfg
    then logSkippedFile fullPath outputFilePath reasonExcluded
    else ret tt
  else if isDirectory file then
    if shouldRecurse cfg fullPath then recurse else ret tt
  else
    if negb (qualifiesByExtension cfg name) then
      if showSkipped cfg
      then logSkippedFile fullPath outputFilePath reasonSkipped
      else ret tt
    else processFile file fullPath outputFilePath.

(** [traverseDirectory(dirPath, outputFilePath)], lines 88-122; [dir] is
    the entry found at [dirPath], and its [entries] are what [readdir]
    returns, in that order. *)
Fixpoint traverseDirectory (dir : node) (dirPath outputFilePath : path) : M unit :=
  try_catch
    (match dir with
     | Dir true files =>
         emit (EvReaddir dirPath true) ;;
         forEach
           (fun '(name, file) =>
              traverseEntry dirPath outputFilePath name file
                (traverseDirectory file (Path.join_entry dirPath name) outputFilePath))
           files
     | _ => throw_after (EvReaddir dirPath false)
     end)
    (console_error ("Error traversing directory " +:+ Path.to_string dirPath +:+ ":")).

(** [main()], lines 159-176. *)
Definition main : M unit :=
  let targetDir := Path.resolve (cwd w) (scanDir cfg) in
  let outputFilePath := Path.join (cwd w) (outputFile cfg) in
  try_catch
    (fs_access w targetDir)
    (console_error ("Error: Directory " +:+ Str.dquote +:+ Path.to_string targetDir
                    +:+ Str.dquote +:+ " does not exist or is inaccessible.") ;;
     process_exit 1) ;;
  fs_writeFile w outputFilePath "" ;;
  console_log ("Traversing directory: " +:+ Path.to_string targetDir) ;;
  traverseDirectory (node_at w targetDir) targetDir outputFilePath ;;
  console_log ("Done. All file contents written to: " +:+ Path.to_string outputFilePath).

(** Line 178, [main().catch(console.error)], and the exit status of the
    process: the code given to [process.exit], otherwise 0.  A run starts
    from the files as they are, [store], and ends with what they have
    become. *)
Definition run (store : gmap (list string) string)
  : nat * gmap (list string) string * list event :=
  match main {| contents := store; appends := 0 |} with
  | (Done _, s', t) => (0, contents s', t)
  | (Thrown, s', t) => (0, contents s', t ++ [EvError "main rejected"])
  | (Exited code, s', t) => (code, contents s', t)
  end.

End Traverser.

(** * The vocabulary of the properties *)

(** ** Traces and what they do to the files *)

(** What a recorded call does to the files. *)
Definition effect (e : event) (s : fstate) : fstate :=
  match e with
  | EvWriteFile p data true =>
      {| contents := <[p := data]> (contents s); appends := appends s |}
  | EvAppendFile p data true =>
      {| contents := <[p := default "" (contents s !! p) +:+ data]> (contents s);
         appends := S (appends s) |}
  | EvAppendFile p data false =>
      {| contents := contents s; appends := S (appends s) |}
  | _ => s
  end.

Definition replay (t : list event) (s : fstate) : fstate :=
  fold_left (fun s e => effect e s) t s.

(** The text the successful appends of a trace add, in order. *)
Fixpoint appended (t : list event) : string :=
  match t with
  | [] => ""
  | EvAppendFile _ data true :: t' => data +:+ appended t'
  | _ :: t' => appended t'
  end.

(** The calls that change a file name the path [out]. *)
Definition writes_only (out : path) (e : event) : Prop :=
  match e with
  | EvWriteFile p _ _ | EvAppendFile p _ _ => p = out
  | _ => True
  end.

(** Within a walk no file is truncated. *)
Definition is_truncation (e : event) : bool :=
  match e with EvWriteFile _ _ _ => true | _ => false end.

Definition is_append (e : event) : bool :=
  match e with EvAppendFile _ _ _ => true | _ => false end.

(** [sound I m]: [m] never calls [process.exit], its final state is the one
    its trace describes, and its trace satisfies [I]. *)
Definition sound (I : list event -> Prop) {A} (m : M A) : Prop :=
  forall s,
    (forall code, (m s).1.1 <> Exited code)
    /\ (m s).1.2 = replay (m s).2 s
    /\ I (m s).2.

(** ** The calls of a walk *)

Section WalkVocabulary.

Variable cfg : config.
Variable w : world.
(** The path every record is appended to. *)
Variable out : path.

Definition relativeTo (q : path) : string := Path.relative (cwd w) q.

(** [walked dirPath q]: [q] is [dirPath] or lies under it, and every
    directory on the way from [dirPath] (excluded) down to [q] (included)
    passed both tests of the loop: it is not excluded and [shouldRecurse]
    accepts it. *)
Definition walked (dirPath q : path) : Prop :=
  exists suffix, q = dirPath ++ suffix /\
    forall pre, pre <> [] -> pre `prefix_of` suffix ->
      isExcluded cfg (cwd w) (dirPath ++ pre) = false
      /\ shouldRecurse cfg (dirPath ++ pre) = true.

(** The calls a walk that starts at [dirPath] may make, each with the
    reason why the code makes it; [t] is the whole trace, in which a
    Processed record finds the read that gave its contents. *)
Inductive justified (dirPath : path) (t : list event) : event -> Prop :=
| j_readdir q ok :
    walked dirPath q ->
    justified dirPath t (EvReaddir q ok)
| j_readFile parent name r :
    walked dirPath parent ->
    isExcluded cfg (cwd w) (parent ++ [name]) = false ->
    qualifiesByExtension cfg name = true ->
    justified dirPath t (EvReadFile (parent ++ [name]) r)
| j_processed parent name c ok :
    walked dirPath parent ->
    isExcluded cfg (cwd w) (parent ++ [name]) = false ->
    qualifiesByExtension cfg name = true ->
    In (EvReadFile (parent ++ [name]) (Some c)) t ->
    justified dirPath t
      (EvAppendFile out (processedRecord (relativeTo (parent ++ [name])) c) ok)
| j_skipped parent name ok :
    walked dirPath parent ->
    isExcluded cfg (cwd w) (parent ++ [name]) = false ->
    qualifiesByExtension cfg name = false ->
    showSkipped cfg = true ->
    justified dirPath t
      (EvAppendFile out (placeholderRecord (relativeTo (parent ++ [name])) reasonSkipped) ok)
| j_excluded parent name ok :
    walked dirPath parent ->
    isExcluded cfg (cwd w) (parent ++ [name]) = true ->
    showExcluded cfg = true ->
    justified dirPath t
      (EvAppendFile out (placeholderRecord (relativeTo (parent ++ [name])) reasonExcluded) ok)
| j_log msg : justified dirPath t (EvLog msg)
| j_error msg : justified dirPath t (EvError msg).

Definition Inv (dirPath : path) (t : list event) : Prop :=
  forall e, In e t -> justified dirPath t e.

(** What [traverseDirectory] runs inside its [try]. *)
Definition listing (dir : node) (dirPath : path) : M unit :=
  match dir with
  | Dir true files =>
      emit (EvReaddir dirPath true) ;;
      forEach
        (fun '(name, file) =>
           traverseEntry cfg w dirPath out name file
             (traverseDirectory cfg w file (Path.join_entry dirPath name) out))
        files
  | _ => throw_after (EvReaddir dirPath false)
  end.

End WalkVocabulary.

(** ** The runs of [main] *)

Section RunVocabulary.

Variable cfg : config.
Variable w : world.

Definition targetDir : path := Path.resolve (cwd w) (scanDir cfg).
Definition outputFilePath : path := Path.join (cwd w) (outputFile cfg).

Definition rootMissing : string :=
  "Error: Directory " +:+ Str.dquote +:+ Path.to_string targetDir
  +:+ Str.dquote +:+ " does not exist or is inaccessible.".
Definition traversing : string := "Traversing directory: " +:+ Path.to_string targetDir.
Definition finished : string :=
  "Done. All file contents written to: " +:+ Path.to_string outputFilePath.

(** The state in which the walk starts. *)
Definition truncated (store : gmap (list string) string) : fstate :=
  {| contents := <[outputFilePath := ""]> store; appends := 0 |}.

(** The three ways a run can go. *)
Inductive run_spec (store : gmap (list string) string)
  : nat * gmap (list string) string * list event -> Prop :=
| run_no_root :
    lookup_node (fsroot w) targetDir = None ->
    run_spec store (1, store, [EvAccess targetDir false; EvError rootMissing; EvExit 1])
| run_no_write :
    is_Some (lookup_node (fsroot w) targetDir) ->
    write_ok w = false ->
    run_spec store
      (0, store,
       [EvAccess targetDir true; EvWriteFile outputFilePath "" false;
        EvError "main rejected"])
| run_walk t :
    is_Some (lookup_node (fsroot w) targetDir) ->
    write_ok w = true ->
    traverseDirectory cfg w (node_at w targetDir) targetDir outputFilePath
      (truncated store) = (Done tt, replay t (truncated store), t) ->
    Inv cfg w outputFilePath targetDir t ->
    run_spec store
      (0, contents (replay t (truncated store)),
       [EvAccess targetDir true; EvWriteFile outputFilePath "" true; EvLog traversing]
       ++ t ++ [EvLog finished]).

End RunVocabulary.

(** ** Which entries the walk reaches *)

(** [reaches dir dirPath parent name file]: the walk of [dir], found at
    [dirPath], comes to execute its loop body for the entry [file] named
    [name] of the directory [parent], provided no append fails on the way:
    every directory from [dir] down to [parent] can be listed, and every one
    below [dir] is neither excluded nor rejected by [includeDirs]. *)
Inductive reaches (cfg : config) (w : world)
  : node -> path -> path -> string -> node -> Prop :=
| reach_entry entries dirPath name file :
    In (name, file) entries ->
    reaches cfg w (Dir true entries) dirPath dirPath name file
| reach_deeper entries dirPath sub subdir parent name file :
    In (sub, subdir) entries ->
    isExcluded cfg (cwd w) (dirPath ++ [sub]) = false ->
    shouldRecurse cfg (dirPath ++ [sub]) = true ->
    reaches cfg w subdir (dirPath ++ [sub]) parent name file ->
    reaches cfg w (Dir true entries) dirPath parent name file.

Section Exclusion.

Variable cfg : config.
Variable w : world.

(** [p] lies strictly under [dirPath]. *)
Definition below (dirPath p : path) : Prop :=
  exists suffix, suffix <> [] /\ p = dirPath ++ suffix.

(** Neither [q] nor any directory between [dirPath] and [q] is excluded. *)
Definition clear_of_exclusion (dirPath q : path) : Prop :=
  forall p, below dirPath p -> p `prefix_of` q -> isExcluded cfg (cwd w) p = false.

End Exclusion.

(** ** The entry behind each call of a walk *)

Section Provenance.

Variable cfg : config.
Variable w : world.
Variable out : path.

(** [caused dir dirPath t e]: in the walk of [dir], found at [dirPath], the
    call [e] is the listing of [dirPath] itself, or it is made for an entry
    the walk [reaches], by the branch of the loop body that this entry
    selects; [t] is the whole trace, in which a Processed record finds the
    read that gave its contents. *)
Inductive caused (dir : node) (dirPath : path) (t : list event) : event -> Prop :=
| c_root ok :
    caused dir dirPath t (EvReaddir dirPath ok)
| c_readdir parent name file ok :
    reaches cfg w dir dirPath parent name file ->
    isExcluded cfg (cwd w) (parent ++ [name]) = false ->
    isDirectory file = true ->
    shouldRecurse cfg (parent ++ [name]) = true ->
    caused dir dirPath t (EvReaddir (parent ++ [name]) ok)
| c_readFile parent name file r :
    reaches cfg w dir dirPath parent name file ->
    isExcluded cfg (cwd w) (parent ++ [name]) = false ->
    isDirectory file = false ->
    qualifiesByExtension cfg name = true ->
    caused dir dirPath t (EvReadFile (parent ++ [name]) r)
| c_processed parent name file c ok :
    reaches cfg w dir dirPath parent name file ->
    isExcluded cfg (cwd w) (parent ++ [name]) = false ->
    isDirectory file = false ->
    qualifiesByExtension cfg name = true ->
    In (EvReadFile (parent ++ [name]) (Some c)) t ->
    caused dir dirPath t
      (EvAppendFile out (processedRecord (Path.relative (cwd w) (parent ++ [name])) c) ok)
| c_skipped parent name file ok :
    reaches cfg w dir dirPath parent name file ->
    isExcluded cfg (cwd w) (parent ++ [name]) = false ->
    isDirectory file = false ->
    qualifiesByExtension cfg name = false ->
    showSkipped cfg = true ->
    caused dir dirPath t
      (EvAppendFile out
         (placeholderRecord (Path.relative (cwd w) (parent ++ [name])) reasonSkipped) ok)
| c_excluded parent name file ok :
    reaches cfg w dir dirPath parent name file ->
    isExcluded cfg (cwd w) (parent ++ [name]) = true ->
    showExcluded cfg = true ->
    caused dir dirPath t
      (EvAppendFile out
         (placeholderRecord (Path.relative (cwd w) (parent ++ [name])) reasonExcluded) ok)
| c_log msg : caused dir dirPath t (EvLog msg)
| c_error msg : caused dir dirPath t (EvError msg).

Definition Caused (dir : node) (dirPath : path) (t : list event) : Prop :=
  forall e, In e t -> caused dir dirPath t e.

End Provenance.

(** ** Records and the paths they name *)

(** [mentions ch s]: the character [ch] occurs in [s]. *)
Fixpoint mentions (ch : ascii) (s : string) : bool :=
  match s with
  | EmptyString => false
  | String c s' => Ascii.eqb c ch || mentions ch s'
  end.

(** A name as a directory holds it: not empty, not [..], and free of [/]
    and of line feeds. *)
Definition tidy (name : string) : bool :=
  negb (String.eqb name "") && negb (String.eqb name "..")
  && negb (mentions "/" name) && negb (mentions (ascii_of_nat 10) name).

(** Every name in the tree is tidy. *)
Fixpoint tidy_tree (n : node) : bool :=
  match n with
  | File _ => true
  | Dir _ entries => forallb (fun entry => tidy entry.1 && tidy_tree entry.2) entries
  end.

(** [names w p data]: the record [data] opens with the header line of the
    path [p]. *)
Definition names (w : world) (p : path) (data : string) : Prop :=
  exists rest,
    data = Str.nl +:+ Str.nl +:+ "--- File: " +:+ Path.relative (cwd w) p
           +:+ " ---" +:+ Str.nl +:+ rest.

(** ** Counting what a trace reports *)

(** A line of [console.log], a line of [console.error], an append that
    succeeded, and a call that failed. *)
Definition is_log (e : event) : bool :=
  match e with EvLog _ => true | _ => false end.

Definition is_error (e : event) : bool :=
  match e with EvError _ => true | _ => false end.

Definition is_appended (e : event) : bool :=
  match e with EvAppendFile _ _ true => true | _ => false end.

Definition is_failure (e : event) : bool :=
  match e with
  | EvAccess _ false | EvWriteFile _ _ false | EvReaddir _ false
  | EvReadFile _ None | EvAppendFile _ _ false => true
  | _ => false
  end.

Definition count (f : event -> bool) (t : list event) : nat :=
  length (List.filter f t).

(** A rejection that nothing has caught yet. *)
Definition pending {A} (r : outcome A) : nat :=
  match r with Thrown => 1 | _ => 0 end.

(** [reported m]: in every execution of [m] each successful append has its
    line of [console.log], and each failed call its line of
    [console.error], but for the one whose rejection [m] passes on. *)
Definition reported {A} (m : M A) : Prop :=
  forall s,
    count is_log (m s).2 = count is_appended (m s).2
    /\ count is_failure (m s).2 = count is_error (m s).2 + pending (m s).1.1.

(** Every successful read in the trace [t], played from the state [s],
    returns what the file holds at that moment. *)
Fixpoint reads_current (s : fstate) (t : list event) : Prop :=
  match t with
  | [] => True
  | e :: t' =>
      match e with
      | EvReadFile q (Some c) => contents s !! q = Some c
      | _ => True
      end
      /\ reads_current (effect e s) t'
  end.

(** [current m]: [m] changes the files as its trace says, and its reads
    return the present contents. *)
Definition current {A} (m : M A) : Prop :=
  forall s, (m s).1.2 = replay (m s).2 s /\ reads_current s (m s).2.

(** Every successful read in the trace is followed at once by the append
    to [out] of the Processed record of what was read. *)
Fixpoint reads_recorded (w : world) (out : path) (t : list event) : Prop :=
  match t with
  | [] => True
  | e :: t' =>
      match e with
      | EvReadFile q (Some c) =>
          exists ok rest,
            t' = EvAppendFile out (processedRecord (Path.relative (cwd w) q) c) ok :: rest
      | _ => True
      end
      /\ reads_recorded w out t'
  end.

(** ** The configuration, from defaults, file and command line
    (lines 18-60) *)

Module Cli.

(** [val.split(',')], the parsing function of [--include], [--exclude] and
    [--extensions]. *)
Fixpoint split_commas (s : string) : list string :=
  match s with
  | EmptyString => [EmptyString]
  | String c s' =>
      if Ascii.eqb c "," then EmptyString :: split_commas s'
      else match split_commas s' with
           | [] => [String c EmptyString]
           | piece :: rest => String c piece :: rest
           end
  end.

(** The shape of [defaultConfig], and of [config] once a configuration file
    is merged onto it. *)
Record settings := Settings {
  scan : string;
  include : list string;
  exclude : list string;
  excludeFiles : list string;
  extensions : list string;
  showExcluded : bool;
  showSkipped : bool;
  outputFile : string
}.

(** [defaultConfig], lines 18-27. *)
Definition defaultConfig : settings :=
  {| scan := ".";
     include := [];
     exclude := ["node_modules"; ".git"; "dist"; "build"];
     excludeFiles := ["package.json"; "package-lock.json"];
     extensions := [".js"; ".ts"; ".json"];
     showExcluded := true;
     showSkipped := true;
     outputFile := "output.sick" |}.

(** [configFile.config]: the keys a configuration file sets, each of the
    type the default has. *)
Record overrides := Overrides {
  setScan : option string;
  setInclude : option (list string);
  setExclude : option (list string);
  setExcludeFiles : option (list string);
  setExtensions : option (list string);
  setShowExcluded : option bool;
  setShowSkipped : option bool;
  setOutputFile : option string
}.

(** Line 31: [{ ...defaultConfig, ...configFile.config }] when a file is
    found, [defaultConfig] otherwise. *)
Definition merged (configFile : option overrides) : settings :=
  match configFile with
  | None => defaultConfig
  | Some file =>
      {| scan := default (scan defaultConfig) (setScan file);
         include := default (include defaultConfig) (setInclude file);
         exclude := default (exclude defaultConfig) (setExclude file);
         excludeFiles := default (excludeFiles defaultConfig) (setExcludeFiles file);
         extensions := default (extensions defaultConfig) (setExtensions file);
         showExcluded := default (showExcluded defaultConfig) (setShowExcluded file);
         showSkipped := default (showSkipped defaultConfig) (setShowSkipped file);
         outputFile := default (outputFile defaultConfig) (setOutputFile file) |}
  end.

(** What the command line holds: the argument of each option that takes
    one, when the option is given, and whether each flag is given. *)
Record arguments := Arguments {
  argScan : option string;
  argInclude : option string;
  argExclude : option string;
  argExtensions : option string;
  flagShowExcluded : bool;
  flagShowSkipped : bool;
  argOutput : option string
}.

(** [program.opts()]; [None] is [undefined]. *)
Record options := Options {
  optScan : option string;
  optInclude : option (list string);
  optExclude : option (list string);
  optExtensions : option (list string);
  optShowExcluded : option bool;
  optShowSkipped : option bool;
  optOutput : option string
}.

(** Lines 34-41 and 51-53.  An option declared with a default value has
    that value when it is not given; an option declared with a parsing
    function has the result of the function on its argument, and is
    undefined when it is not given; a flag is [true] when it is given. *)
Definition opts (conf : settings) (args : arguments) : options :=
  {| optScan := Some (default (scan conf) (argScan args));
     optInclude := split_commas <$> argInclude args;
     optExclude := split_commas <$> argExclude args;
     optExtensions := split_commas <$> argExtensions args;
     optShowExcluded := Some (if flagShowExcluded args then true else showExcluded conf);
     optShowSkipped := Some (if flagShowSkipped args then true else showSkipped conf);
     optOutput := Some (default (outputFile conf) (argOutput args)) |}.

(** [a || b] when [a] is a string or undefined: the empty string is falsy. *)
Definition or_string (a : option string) (b : string) : string :=
  match a with
  | Some s => if String.eqb s "" then b else s
  | None => b
  end.

(** [a || b] when [a] is an array or undefined: every array is truthy. *)
Definition or_array (a : option (list string)) (b : list string) : list string :=
  match a with
  | Some l => l
  | None => b
  end.

(** [a === undefined ? b : a] *)
Definition unless_undefined (a : option bool) (b : bool) : bool :=
  match a with
  | Some x => x
  | None => b
  end.

(** Lines 54-60: the seven constants the engine reads. *)
Definition resolved (conf : settings) (options : options) : config :=
  Config
    (or_string (optScan options) (scan conf))
    (or_array (optInclude options) (include conf))
    (or_array (optExclude options) (exclude conf ++ excludeFiles conf))
    (or_array (optExtensions options) (extensions conf))
    (unless_undefined (optShowExcluded options) (showExcluded conf))
    (unless_undefined (optShowSkipped options) (showSkipped conf))
    (or_string (optOutput options) (outputFile conf)).

(** Lines 29-60 together. *)
Definition configure (configFile : option overrides) (args : arguments) : config :=
  let conf := merged configFile in
  resolved conf (opts conf args).

(** A command line without options. *)
Definition bare : arguments :=
  {| argScan := None; argInclude := None; argExclude := None; argExtensions := None;
     flagShowExcluded := false; flagShowSkipped := false; argOutput := None |}.

End Cli.

(** ** Sample trees *)

Module Sample.

(** [/proj] holds a read-me, a dependency directory, sources and a
    library; the process runs in [/proj]. *)
Definition project : node :=
  Dir true
    [("README.md", File true);
     ("node_modules", Dir true [("lib.js", File true)]);
     ("src", Dir true [("a.js", File true)]);
     ("lib", Dir true [("package.json", File true); ("notes.md", File true);
                       ("y.js", File true)])].

Definition tree : node :=
  Dir true [("proj", project); ("elsewhere", Dir true [("b.js", File true)])].

Definition files : gmap (list string) string :=
  list_to_map
    [(["proj"; "README.md"], "read me");
     (["proj"; "node_modules"; "lib.js"], "lib");
     (["proj"; "src"; "a.js"], "x");
     (["proj"; "lib"; "package.json"], "{}");
     (["proj"; "lib"; "notes.md"], "notes");
     (["proj"; "lib"; "y.js"], "y");
     (["elsewhere"; "b.js"], "b");
     (["proj"; "output.sick"], "stale")].

Definition healthy : world :=
  {| cwd := ["proj"]; fsroot := tree; write_ok := true; append_ok := fun _ => true |}.

(** The state in which [main] starts the walk in [healthy]. *)
Definition start : fstate :=
  {| contents := <[ ["proj"; "output.sick"] := "" ]> files; appends := 0 |}.

(** Only [src] is included, and [package.json] is the one exclude
    pattern. *)
Definition gated : config :=
  {| scanDir := "."; includeDirs := ["src"]; excludePatterns := ["package.json"];
     includeExtensions := [".js"]; showExcluded := true; showSkipped := true;
     outputFile := "output.sick" |}.

(** A scan directory that is not there. *)
Definition lost : config :=
  {| scanDir := "nope"; includeDirs := []; excludePatterns := [];
     includeExtensions := [".js"]; showExcluded := true; showSkipped := true;
     outputFile := "output.sick" |}.

(** Scanning [/elsewhere] from [/proj]. *)
Definition remote : config :=
  {| scanDir := "/elsewhere"; includeDirs := []; excludePatterns := [];
     includeExtensions := [".js"]; showExcluded := true; showSkipped := true;
     outputFile := "output.sick" |}.

(** A tree on a bad day: [src] cannot be listed, [y.js] cannot be read,
    and the first two appends fail, the one of [processFile] for [z.js]
    and the one of [logSkippedFile] for [README.md]. *)
Definition faulty : world :=
  {| cwd := ["proj"];
     fsroot :=
       Dir true
         [("proj",
           Dir true
             [("src", Dir false [("a.js", File true)]);
              ("lib", Dir true [("y.js", File false); ("z.js", File true)]);
              ("README.md", File true);
              ("index.js", File true)])];
     write_ok := true;
     append_ok := fun k => negb (k <? 2) |}.

Definition faulty_files : gmap (list string) string :=
  list_to_map
    [(["proj"; "lib"; "z.js"], "z"); (["proj"; "README.md"], "read me");
     (["proj"; "index.js"], "i")].

(** Only directories with [src] in them are to be included. *)
Definition only_src : config :=
  {| scanDir := "."; includeDirs := ["src"]; excludePatterns := [];
     includeExtensions := [".js"]; showExcluded := true; showSkipped := true;
     outputFile := "output.sick" |}.

(** A directory with a read-me and a script, where the first append
    fails. *)
Definition first_append_fails : world :=
  {| cwd := ["proj"];
     fsroot := Dir true [("proj", Dir true [("README.md", File true); ("a.js", File true)])];
     write_ok := true;
     append_ok := fun k => negb (k =? 0) |}.

(** The same directory with two scripts. *)
Definition first_append_fails_scripts : world :=
  {| cwd := ["proj"];
     fsroot := Dir true [("proj", Dir true [("0.js", File true); ("a.js", File true)])];
     write_ok := true;
     append_ok := fun k => negb (k =? 0) |}.

Definition scripts : gmap (list string) string :=
  list_to_map
    [(["proj"; "README.md"], "read me"); (["proj"; "0.js"], "zero");
     (["proj"; "a.js"], "x")].

(** The output file cannot be written. *)
Definition unwritable : world :=
  {| cwd := ["proj"]; fsroot := tree; write_ok := false; append_ok := fun _ => true |}.

(** Scanning the read-me instead of a directory. *)
Definition on_a_file : config :=
  {| scanDir := "README.md"; includeDirs := []; excludePatterns := [];
     includeExtensions := [".js"]; showExcluded := true; showSkipped := true;
     outputFile := "output.sick" |}.

(** No placeholders. *)
Definition quiet : config :=
  {| scanDir := "."; includeDirs := []; excludePatterns := [];
     includeExtensions := [".js"]; showExcluded := false; showSkipped := false;
     outputFile := "output.sick" |}.

(** A run that writes to [out.js] in the directory it scans for [.js]
    files. *)
Definition into_itself : config :=
  {| scanDir := "."; includeDirs := []; excludePatterns := [];
     includeExtensions := [".js"]; showExcluded := true; showSkipped := true;
     outputFile := "out.js" |}.

Definition with_output : world :=
  {| cwd := ["proj"];
     fsroot := Dir true [("proj", Dir true [("a.js", File true); ("out.js", File true)])];
     write_ok := true; append_ok := fun _ => true |}.

Definition with_output_files : gmap (list string) string :=
  list_to_map [(["proj"; "a.js"], "x"); (["proj"; "out.js"], "stale")].

(** A configuration file that turns the placeholders off and names another
    output file. *)
Definition rc_file : Cli.overrides :=
  {| Cli.setScan := None; Cli.setInclude := None; Cli.setExclude := None;
     Cli.setExcludeFiles := None; Cli.setExtensions := None;
     Cli.setShowExcluded := Some false; Cli.setShowSkipped := Some false;
     Cli.setOutputFile := Some "dump.txt" |}.

(** [--scan lib --exclude node_modules, --include src,] *)
Definition typed : Cli.arguments :=
  {| Cli.argScan := Some "lib"; Cli.argInclude := Some "src,";
     Cli.argExclude := Some "node_modules,"; Cli.argExtensions := None;
     Cli.flagShowExcluded := false; Cli.flagShowSkipped := false;
     Cli.argOutput := Some "" |}.

(** [/proj] as a run started in it finds it: the output file, which
    [main] creates before the walk, is one of the entries. *)
Definition checkout : node :=
  Dir true
    [("README.md", File true);
     ("lib", Dir true [("notes.md", File true); ("package.json", File true);
                       ("y.js", File true)]);
     ("node_modules", Dir true [("lib.js", File true)]);
     ("output.sick", File true);
     ("src", Dir true [("a.js", File true)])].

Definition working : world :=
  {| cwd := ["proj"]; fsroot := Dir true [("proj", checkout)];
     write_ok := true; append_ok := fun _ => true |}.

(** The same library and output file under [/srv/src-tools], a working
    directory with [src] in its name, and under [/srv/tools]. *)
Definition package : node :=
  Dir true [("lib", Dir true [("y.js", File true)]); ("output.sick", File true)].

Definition src_tools : world :=
  {| cwd := ["srv"; "src-tools"];
     fsroot := Dir true [("srv", Dir true [("src-tools", package)])];
     write_ok := true; append_ok := fun _ => true |}.

Definition src_tools_files : gmap (list string) string :=
  list_to_map [(["srv"; "src-tools"; "lib"; "y.js"], "y")].

Definition other_tools : world :=
  {| cwd := ["srv"; "tools"];
     fsroot := Dir true [("srv", Dir true [("tools", package)])];
     write_ok := true; append_ok := fun _ => true |}.

Definition other_tools_files : gmap (list string) string :=
  list_to_map [(["srv"; "tools"; "lib"; "y.js"], "y")].

(** Small configurations and trees for the scenarios. *)
Definition plain (extensions : list string) (exclude include : list string) : config :=
  {| scanDir := "."; includeDirs := include; excludePatterns := exclude;
     includeExtensions := extensions; showExcluded := true; showSkipped := true;
     outputFile := "output.sick" |}.

Definition in_proj (entries : list (string * node)) : world :=
  {| cwd := ["proj"]; fsroot := Dir true [("proj", Dir true entries)];
     write_ok := true; append_ok := fun _ => true |}.

End Sample.

(** * Properties *)

(** ** Strings and paths *)

Module StrFacts.

Lemma app_cons (x : ascii) (a b : string) : String x a +:+ b = String x (a +:+ b).
Proof. reflexivity. Qed.



Lemma prefix_spec (p s : string) :
  String.prefix p s = true <-> exists r, s = p +:+ r.
Proof.
  revert s. induction p as [|a p IH]; intros s.
  - split; [intros _; now exists s | intros _; now destruct s].
  - destruct s as [|b s]; simpl.
    + split; [discriminate | intros [r Hr]; discriminate].
    + destruct (ascii_dec a b) as [->|Hne].
      * rewrite IH. split; intros [r Hr]; exists r;
          rewrite ?app_cons in *; congruence.
      * split; [discriminate | intros [r Hr]; rewrite app_cons in Hr; congruence].
Qed.

(** [includes] decides the occurrence of a substring. *)
Lemma includes_spec (s pat : string) :
  Str.includes s pat = true <-> Str.substring_of pat s.
Proof.
  unfold Str.substring_of. induction s as [|c s IH].
  - change (Str.includes "" pat) with (String.prefix pat "" || false).
    rewrite orb_false_r, prefix_spec. split.
    + intros [r Hr]. exists "", r. exact Hr.
    + intros [l [r Hr]]. destruct l; [now exists r | discriminate].
  - change (Str.includes (String c s) pat)
      with (String.prefix pat (String c s) || Str.includes s pat).
    rewrite orb_true_iff, prefix_spec, IH. split.
    + intros [[r Hr] | [l [r Hr]]].
      * exists "", r. exact Hr.
      * exists (String c l), r. rewrite app_cons. now rewrite Hr.
    + intros [[|x l] [r Hr]].
      * left. now exists r.
      * right. rewrite app_cons in Hr. exists l, r. congruence.
Qed.

Lemma array_includes_spec (l : list string) (x : string) :
  Str.array_includes l x = true <-> In x l.
Proof.
  unfold Str.array_includes. rewrite existsb_exists. split.
  - intros [y [Hy Heq]]. apply String.eqb_eq in Heq. now subst.
  - intros Hx. exists x. split; [exact Hx | apply String.eqb_refl].
Qed.

End StrFacts.

(** ** The selector *)

(** C2. [isExcluded p] is true exactly when some exclude pattern occurs in
    the path of [p] relative to the working directory as a raw substring, or
    is equal, character for character, to the last component of [p]. *)
Theorem isExcluded_iff (cfg : config) (cwd : path) (p : path) :
  isExcluded cfg cwd p = true <->
  exists pattern, In pattern (excludePatterns cfg) /\
    (Str.substring_of pattern (Path.relative cwd p) \/ Path.basename p = pattern).
Proof.
  unfold isExcluded. rewrite existsb_exists.
  split; intros [pattern [Hin H]]; exists pattern; (split; [exact Hin|]).
  - destruct (Str.includes _ pattern) eqn:H1; simpl in H.
    + left. now apply StrFacts.includes_spec.
    + destruct (String.eqb _ pattern) eqn:H2; [|discriminate].
      right. now apply String.eqb_eq.
  - destruct H as [H | H].
    + apply StrFacts.includes_spec in H. now rewrite H.
    + apply String.eqb_eq in H. rewrite H. now rewrite orb_true_r.
Qed.

(** The comparison folds no case and expands no wildcard. *)
Example isExcluded_case_sensitive :
  isExcluded (Config "." [] ["Dist"] [] true true "o") ["p"] ["p"; "dist"] = false
  /\ isExcluded (Config "." [] ["dist"] [] true true "o") ["p"] ["p"; "dist"] = true.
Proof. split; reflexivity. Qed.

Example isExcluded_no_glob :
  isExcluded (Config "." [] ["*.js"] [] true true "o") ["p"] ["p"; "a.js"] = false
  /\ isExcluded (Config "." [] ["dist"] [] true true "o") ["p"] ["p"; "redistribute.txt"] = true.
Proof. split; reflexivity. Qed.

Lemma shouldRecurse_iff (cfg : config) (fullPath : path) :
  shouldRecurse cfg fullPath = true <->
  includeDirs cfg = [] \/
  exists d, In d (includeDirs cfg) /\ Str.substring_of d (Path.to_string fullPath).
Proof.
  unfold shouldRecurse. rewrite orb_true_iff, Nat.eqb_eq, existsb_exists.
  split; intros [H | [d [Hin H]]].
  - left. now destruct (includeDirs cfg).
  - right. exists d. split; [exact Hin | now apply StrFacts.includes_spec].
  - left. now rewrite H.
  - right. exists d. split; [exact Hin | now apply StrFacts.includes_spec].
Qed.

Lemma qualifiesByExtension_iff (cfg : config) (name : string) :
  qualifiesByExtension cfg name = true <-> In (Path.extname name) (includeExtensions cfg).
Proof. apply StrFacts.array_includes_spec. Qed.

(** ** Reasoning about computations *)

(** Induction on a directory tree, with the hypothesis for every entry. *)
Lemma node_tree_ind (P : node -> Prop) :
  (forall readable, P (File readable)) ->
  (forall listable entries,
      Forall (fun entry => P entry.2) entries -> P (Dir listable entries)) ->
  forall n, P n.
Proof.
  intros HFile HDir.
  fix IH 1. intros [readable | listable entries].
  - apply HFile.
  - apply HDir. induction entries as [|[name child] rest IHrest].
    + constructor.
    + constructor; [apply IH | exact IHrest].
Qed.

Lemma replay_app (t1 t2 : list event) (s : fstate) :
  replay (t1 ++ t2) s = replay t2 (replay t1 s).
Proof. apply fold_left_app. Qed.

Section Sound.

(** A property of traces that holds of the empty trace and is kept by
    concatenation. *)
Variable I : list event -> Prop.
Hypothesis I_nil : I [].
Hypothesis I_app : forall t1 t2, I t1 -> I t2 -> I (t1 ++ t2).

Lemma sound_ret {A} (a : A) : sound I (ret a).
Proof. intros s. simpl. repeat split; [discriminate | exact I_nil]. Qed.

Lemma sound_bind {A B} (m : M A) (f : A -> M B) :
  sound I m -> (forall a, sound I (f a)) -> sound I (bind m f).
Proof.
  intros Hm Hf s. unfold bind.
  destruct (Hm s) as (Hexit & Hst & Htr).
  destruct (m s) as [[[a | | code] s1] t1]; simpl in *.
  - destruct (Hf a s1) as (Hexit' & Hst' & Htr').
    destruct (f a s1) as [[r s2] t2]; simpl in *.
    repeat split; [exact Hexit' | | now apply I_app].
    rewrite replay_app, <- Hst. exact Hst'.
  - repeat split; [discriminate | exact Hst | exact Htr].
  - now destruct (Hexit code).
Qed.

Lemma sound_try_catch {A} (m h : M A) :
  sound I m -> sound I h -> sound I (try_catch m h).
Proof.
  intros Hm Hh s. unfold try_catch.
  destruct (Hm s) as (Hexit & Hst & Htr).
  destruct (m s) as [[[a | | code] s1] t1]; simpl in *.
  - repeat split; [discriminate | exact Hst | exact Htr].
  - destruct (Hh s1) as (Hexit' & Hst' & Htr').
    destruct (h s1) as [[r s2] t2]; simpl in *.
    repeat split; [exact Hexit' | | now apply I_app].
    rewrite replay_app, <- Hst. exact Hst'.
  - now destruct (Hexit code).
Qed.

Lemma sound_forEach {A} (body : A -> M unit) (l : list A) :
  Forall (fun x => sound I (body x)) l -> sound I (forEach body l).
Proof.
  induction 1 as [|x rest Hx _ IH]; simpl.
  - apply sound_ret.
  - apply sound_bind; [exact Hx | intros _; exact IH].
Qed.

(** A single recorded call is sound when its effect is what was done. *)
Lemma sound_emit (e : event) :
  (forall s, effect e s = s) -> I [e] -> sound I (emit e).
Proof.
  intros He HI s. simpl. repeat split; [discriminate | now rewrite He | exact HI].
Qed.

Lemma sound_throw_after {A} (e : event) :
  (forall s, effect e s = s) -> I [e] -> sound I (@throw_after A e).
Proof.
  intros He HI s. simpl. repeat split; [discriminate | now rewrite He | exact HI].
Qed.

Lemma sound_appendFile (w : world) (p : path) (data : string) :
  (forall ok, I [EvAppendFile p data ok]) -> sound I (fs_appendFile w p data).
Proof.
  intros HI s. unfold fs_appendFile.
  destruct (append_ok w (appends s)); simpl;
    (repeat split; [discriminate | apply HI]).
Qed.

Lemma sound_readFile (file : node) (p : path) :
  (forall r, I [EvReadFile p r]) -> sound I (fs_readFile file p).
Proof.
  intros HI s. unfold fs_readFile.
  destruct file as [[|]|]; [destruct (contents s !! p) | |]; simpl;
    (repeat split; [discriminate | apply HI]).
Qed.

End Sound.

Lemma sound_weaken (I J : list event -> Prop) {A} (m : M A) :
  (forall t, I t -> J t) -> sound I m -> sound J m.
Proof.
  intros HIJ Hm s. destruct (Hm s) as (? & ? & ?). repeat split; auto.
Qed.

(** A [try/catch] whose handler only logs always completes. *)
Lemma try_catch_done (m : M unit) (msg : string) (s : fstate) :
  (forall code, (m s).1.1 <> Exited code) ->
  (try_catch m (console_error msg) s).1.1 = Done tt.
Proof.
  intros Hexit. unfold try_catch.
  destruct (m s) as [[[[] | | code] s1] t1]; simpl in *; try reflexivity.
  now destruct (Hexit code).
Qed.

(** ** The invariant of the walk *)

Section Walk.

Variable cfg : config.
Variable w : world.
(** The path every record is appended to. *)
Variable out : path.

Lemma walked_refl (dirPath : path) : walked cfg w dirPath dirPath.
Proof.
  exists []. split; [now rewrite app_nil_r|].
  intros pre Hne Hpre. apply prefix_nil_inv in Hpre. contradiction.
Qed.

Lemma walked_step (dirPath : path) (name : string) (q : path) :
  isExcluded cfg (cwd w) (dirPath ++ [name]) = false ->
  shouldRecurse cfg (dirPath ++ [name]) = true ->
  walked cfg w (dirPath ++ [name]) q ->
  walked cfg w dirPath q.
Proof.
  intros Hex Hrec (suffix & -> & Hall).
  exists (name :: suffix). split; [now rewrite <- app_assoc|].
  intros pre Hne [rest Hrest].
  destruct pre as [|x pre]; [contradiction|].
  simpl in Hrest. injection Hrest as <- ->.
  destruct pre as [|y pre]; [now split|].
  replace (dirPath ++ name :: y :: pre) with ((dirPath ++ [name]) ++ y :: pre)
    by now rewrite <- app_assoc.
  apply Hall; [discriminate | now exists rest].
Qed.

Lemma justified_mono (dirPath : path) (t t' : list event) (e : event) :
  (forall x, In x t -> In x t') -> justified cfg w out dirPath t e -> justified cfg w out dirPath t' e.
Proof. intros Hsub H. destruct H; econstructor; eauto. Qed.

Lemma justified_step (dirPath : path) (name : string) (t : list event) (e : event) :
  isExcluded cfg (cwd w) (dirPath ++ [name]) = false ->
  shouldRecurse cfg (dirPath ++ [name]) = true ->
  justified cfg w out (dirPath ++ [name]) t e -> justified cfg w out dirPath t e.
Proof. intros Hex Hrec H. destruct H; econstructor; eauto using walked_step. Qed.

Lemma Inv_nil (dirPath : path) : Inv cfg w out dirPath [].
Proof. intros e []. Qed.

Lemma Inv_app (dirPath : path) (t1 t2 : list event) :
  Inv cfg w out dirPath t1 -> Inv cfg w out dirPath t2 -> Inv cfg w out dirPath (t1 ++ t2).
Proof.
  intros H1 H2 e He. apply in_app_or in He as [He | He].
  - eapply justified_mono; [|apply H1, He]. intros x Hx. apply in_or_app. now left.
  - eapply justified_mono; [|apply H2, He]. intros x Hx. apply in_or_app. now right.
Qed.

Lemma Inv_step (dirPath : path) (name : string) (t : list event) :
  isExcluded cfg (cwd w) (dirPath ++ [name]) = false ->
  shouldRecurse cfg (dirPath ++ [name]) = true ->
  Inv cfg w out (dirPath ++ [name]) t -> Inv cfg w out dirPath t.
Proof. intros Hex Hrec H e He. eapply justified_step; eauto. Qed.

Lemma Inv_one (dirPath : path) (e : event) :
  (forall t, justified cfg w out dirPath t e) -> Inv cfg w out dirPath [e].
Proof. intros H x [<- | []]. apply H. Qed.

Create HintDb walk.
#[local] Hint Resolve Inv_nil Inv_app : walk.

Lemma sound_console_log (dirPath : path) (msg : string) :
  sound (Inv cfg w out dirPath) (console_log msg).
Proof. apply sound_emit; [reflexivity | apply Inv_one; constructor]. Qed.

Lemma sound_console_error (dirPath : path) (msg : string) :
  sound (Inv cfg w out dirPath) (console_error msg).
Proof. apply sound_emit; [reflexivity | apply Inv_one; constructor]. Qed.

(** [logSkippedFile], called for an excluded entry of a walked directory. *)
Lemma sound_logSkippedFile_excluded (dirPath parent : path) (name : string) :
  walked cfg w dirPath parent ->
  isExcluded cfg (cwd w) (parent ++ [name]) = true ->
  showExcluded cfg = true ->
  sound (Inv cfg w out dirPath) (logSkippedFile w (parent ++ [name]) out reasonExcluded).
Proof.
  intros Hw Hex Hshow. unfold logSkippedFile.
  apply sound_bind; auto with walk.
  - apply sound_appendFile. intros ok. apply Inv_one. intros t.
    now apply j_excluded.
  - intros _. apply sound_console_log.
Qed.

(** [logSkippedFile], called for a file whose extension does not qualify. *)
Lemma sound_logSkippedFile_skipped (dirPath parent : path) (name : string) :
  walked cfg w dirPath parent ->
  isExcluded cfg (cwd w) (parent ++ [name]) = false ->
  qualifiesByExtension cfg name = false ->
  showSkipped cfg = true ->
  sound (Inv cfg w out dirPath) (logSkippedFile w (parent ++ [name]) out reasonSkipped).
Proof.
  intros Hw Hex Hq Hshow. unfold logSkippedFile.
  apply sound_bind; auto with walk.
  - apply sound_appendFile. intros ok. apply Inv_one. intros t.
    now apply j_skipped.
  - intros _. apply sound_console_log.
Qed.

(** The three traces of [processFile]. *)
Lemma processFile_cases (file : node) (filePath : path) (s : fstate) :
  let failure := EvError ("Error processing file " +:+ Path.to_string filePath +:+ ":") in
  (processFile w file filePath out s).2 = [EvReadFile filePath None; failure]
  \/ exists c ok,
      (processFile w file filePath out s).2 =
        [EvReadFile filePath (Some c);
         EvAppendFile out (processedRecord (Path.relative (cwd w) filePath) c) ok;
         if ok then EvLog ("Processed file: " +:+ Path.relative (cwd w) filePath)
         else failure]
      /\ contents s !! filePath = Some c
      /\ ok = append_ok w (appends s).
Proof.
  unfold processFile, try_catch, bind, fs_readFile, fs_appendFile, console_log,
    console_error, emit.
  destruct file as [[|]|]; [|now left..].
  destruct (contents s !! filePath) as [c|] eqn:Hc; [|now left].
  right. exists c, (append_ok w (appends s)).
  destruct (append_ok w (appends s)); simpl; auto.
Qed.

Lemma processFile_done (file : node) (filePath : path) (s : fstate) :
  (processFile w file filePath out s).1.1 = Done tt.
Proof.
  unfold processFile, try_catch, bind, fs_readFile, fs_appendFile, console_log,
    console_error, emit.
  destruct file as [[|]|]; try reflexivity.
  destruct (contents s !! filePath); [|reflexivity].
  destruct (append_ok w (appends s)); reflexivity.
Qed.

Lemma processFile_state (file : node) (filePath : path) (s : fstate) :
  (processFile w file filePath out s).1.2 = replay (processFile w file filePath out s).2 s.
Proof.
  unfold processFile, try_catch, bind, fs_readFile, fs_appendFile, console_log,
    console_error, emit.
  destruct file as [[|]|]; try reflexivity.
  destruct (contents s !! filePath); [|reflexivity].
  destruct (append_ok w (appends s)); reflexivity.
Qed.

Lemma sound_processFile (dirPath parent : path) (name : string) (file : node) :
  walked cfg w dirPath parent ->
  isExcluded cfg (cwd w) (parent ++ [name]) = false ->
  qualifiesByExtension cfg name = true ->
  sound (Inv cfg w out dirPath) (processFile w file (parent ++ [name]) out).
Proof.
  intros Hw Hex Hq s. split; [|split].
  - intros code. now rewrite processFile_done.
  - apply processFile_state.
  - destruct (processFile_cases file (parent ++ [name]) s) as [-> | (c & ok & -> & _)].
    + intros e [<- | [<- | []]]; [now apply j_readFile | constructor].
    + intros e [<- | [<- | [<- | []]]].
      * now apply j_readFile.
      * apply j_processed; auto. now left.
      * destruct ok; constructor.
Qed.

(** One iteration of the loop keeps the invariant when the recursive call
    does. *)
Lemma sound_traverseEntry (dirPath : path) (name : string) (file : node) (recurse : M unit) :
  sound (Inv cfg w out (dirPath ++ [name])) recurse ->
  sound (Inv cfg w out dirPath) (traverseEntry cfg w dirPath out name file recurse).
Proof.
  intros Hrec. unfold traverseEntry, Path.join_entry.
  destruct (isExcluded cfg (cwd w) (dirPath ++ [name])) eqn:Hex.
  - destruct (showExcluded cfg) eqn:Hshow.
    + apply sound_logSkippedFile_excluded; auto using walked_refl.
    + apply sound_ret, Inv_nil.
  - destruct (isDirectory file).
    + destruct (shouldRecurse cfg (dirPath ++ [name])) eqn:Hinc.
      * eapply sound_weaken; [|exact Hrec]. intros t. now apply Inv_step.
      * apply sound_ret, Inv_nil.
    + destruct (qualifiesByExtension cfg name) eqn:Hq; simpl.
      * apply sound_processFile; auto using walked_refl.
      * destruct (showSkipped cfg) eqn:Hshow.
        -- apply sound_logSkippedFile_skipped; auto using walked_refl.
        -- apply sound_ret, Inv_nil.
Qed.

Lemma traverseDirectory_unfold (dir : node) (dirPath : path) :
  traverseDirectory cfg w dir dirPath out =
  try_catch (listing cfg w out dir dirPath)
    (console_error ("Error traversing directory " +:+ Path.to_string dirPath +:+ ":")).
Proof. destruct dir; reflexivity. Qed.

Lemma sound_listing (dir : node) (dirPath : path) :
  match dir with
  | Dir _ entries =>
      Forall (fun entry : string * node =>
                forall p, sound (Inv cfg w out p) (traverseDirectory cfg w entry.2 p out)) entries
  | File _ => True
  end ->
  sound (Inv cfg w out dirPath) (listing cfg w out dir dirPath).
Proof.
  intros IH. destruct dir as [readable | [|] entries]; simpl.
  - apply sound_throw_after; [reflexivity|].
    apply Inv_one. intros t. apply j_readdir, walked_refl.
  - apply sound_bind; auto with walk.
    + apply sound_emit; [reflexivity|].
      apply Inv_one. intros t. apply j_readdir, walked_refl.
    + intros _. apply sound_forEach; auto with walk.
      eapply Forall_impl; [exact IH|].
      intros [name file] Hfile. simpl in *.
      apply sound_traverseEntry, Hfile.
  - apply sound_throw_after; [reflexivity|].
    apply Inv_one. intros t. apply j_readdir, walked_refl.
Qed.

(** The walk keeps the invariant, never exits, and changes the files only
    as its trace says. *)
Lemma sound_traverseDirectory (dir : node) :
  forall dirPath, sound (Inv cfg w out dirPath) (traverseDirectory cfg w dir dirPath out).
Proof.
  induction dir as [readable | listable entries IH] using node_tree_ind;
    intros dirPath; rewrite traverseDirectory_unfold;
    (apply sound_try_catch; auto with walk;
     [apply sound_listing | apply sound_console_error]).
  - exact Logic.I.
  - exact IH.
Qed.

Lemma sound_listing_at (dir : node) (dirPath : path) :
  sound (Inv cfg w out dirPath) (listing cfg w out dir dirPath).
Proof.
  apply sound_listing. destruct dir as [|listable entries]; [exact Logic.I|].
  apply Forall_forall. intros entry _ p. apply sound_traverseDirectory.
Qed.

(** [traverseDirectory] always completes: it catches whatever is thrown
    inside it. *)
Lemma traverseDirectory_done (dir : node) (dirPath : path) (s : fstate) :
  (traverseDirectory cfg w dir dirPath out s).1.1 = Done tt.
Proof.
  rewrite traverseDirectory_unfold. apply try_catch_done.
  apply sound_listing_at.
Qed.

(** An iteration of the loop completes unless the append of
    [logSkippedFile] fails: that is the one rejection nothing catches
    before it leaves the loop. *)
Lemma traverseEntry_outcome (dirPath : path) (name : string) (file : node) (s : fstate) :
  let r := (traverseEntry cfg w dirPath out name file
              (traverseDirectory cfg w file (dirPath ++ [name]) out) s).1.1 in
  r = Done tt
  \/ (r = Thrown /\ append_ok w (appends s) = false
      /\ ((isExcluded cfg (cwd w) (dirPath ++ [name]) = true /\ showExcluded cfg = true)
          \/ (isExcluded cfg (cwd w) (dirPath ++ [name]) = false
              /\ isDirectory file = false
              /\ qualifiesByExtension cfg name = false
              /\ showSkipped cfg = true))).
Proof.
  unfold traverseEntry, Path.join_entry.
  destruct (isExcluded cfg (cwd w) (dirPath ++ [name])) eqn:Hex;
    [destruct (showExcluded cfg) eqn:Hshow
    |destruct (isDirectory file) eqn:Hdir;
     [destruct (shouldRecurse cfg (dirPath ++ [name]))
     |destruct (qualifiesByExtension cfg name) eqn:Hq;
      [|destruct (showSkipped cfg) eqn:Hshow]]]; simpl;
    auto using traverseDirectory_done, processFile_done;
    unfold logSkippedFile, bind, fs_appendFile, console_log, emit;
    destruct (append_ok w (appends s)) eqn:Hok; simpl; auto 10.
Qed.

End Walk.

(** ** From the trace to the output file *)

Module Replay.

Lemma string_app_assoc (a b c : string) : (a +:+ b) +:+ c = a +:+ b +:+ c.
Proof.
  induction a as [|x a IH]; [reflexivity|].
  rewrite !StrFacts.app_cons. now rewrite IH.
Qed.

Lemma string_app_nil_r (a : string) : a +:+ "" = a.
Proof.
  induction a as [|x a IH]; [reflexivity|].
  rewrite StrFacts.app_cons. now rewrite IH.
Qed.

Lemma other (out : path) (t : list event) :
  Forall (writes_only out) t ->
  forall s p, p <> out -> contents (replay t s) !! p = contents s !! p.
Proof.
  induction 1 as [|e t He _ IH]; intros s p Hp; [reflexivity|].
  change (replay (e :: t) s) with (replay t (effect e s)).
  rewrite IH by exact Hp.
  destruct e as [| q d [|] | | | q d [|] | | |]; simpl in *; try reflexivity;
    subst q; now rewrite lookup_insert_ne.
Qed.

Lemma output (out : path) (t : list event) :
  Forall (writes_only out) t ->
  Forall (fun e => is_truncation e = false) t ->
  forall s c, contents s !! out = Some c ->
    contents (replay t s) !! out = Some (c +:+ appended t).
Proof.
  induction 1 as [|e t He _ IH]; intros Htr s c Hc.
  - simpl. now rewrite string_app_nil_r.
  - inversion Htr as [|? ? He' Htr']; subst.
    change (replay (e :: t) s) with (replay t (effect e s)).
    destruct e as [| q d ok | | | q d [|] | | |]; simpl in *;
      try discriminate; try (now apply IH).
    subst q. erewrite IH; [|exact Htr'|].
    + now rewrite string_app_assoc.
    + simpl. rewrite lookup_insert_eq, Hc. reflexivity.
Qed.

Lemma appended_app (t1 t2 : list event) :
  appended (t1 ++ t2) = appended t1 +:+ appended t2.
Proof.
  induction t1 as [|e t1 IH]; [reflexivity|].
  destruct e as [| | | | q d [|] | | |]; simpl; try exact IH.
  rewrite IH. now rewrite string_app_assoc.
Qed.

(** A record that was appended with success is part of the text. *)
Lemma appended_contains (t : list event) (p : path) (data : string) :
  In (EvAppendFile p data true) t -> Str.substring_of data (appended t).
Proof.
  intros Hin. apply in_split in Hin as (t1 & t2 & ->).
  rewrite appended_app. simpl. now exists (appended t1), (appended t2).
Qed.

End Replay.

(** ** Which path a record names *)

Module Naming.

Lemma app_inv_head (a x y : string) : a +:+ x = a +:+ y -> x = y.
Proof.
  induction a as [|c a IH]; [auto|].
  rewrite !StrFacts.app_cons. intros H. injection H as H. auto.
Qed.

Lemma length_app (a b : string) :
  String.length (a +:+ b) = String.length a + String.length b.
Proof.
  induction a as [|c a IH]; [reflexivity|].
  rewrite StrFacts.app_cons. simpl. now rewrite IH.
Qed.

Lemma app_inv_tail (z a b : string) : a +:+ z = b +:+ z -> a = b.
Proof.
  revert b. induction a as [|c a IH]; intros [|d b] H.
  - reflexivity.
  - apply (f_equal String.length) in H. rewrite !length_app in H. simpl in H. lia.
  - apply (f_equal String.length) in H. rewrite !length_app in H. simpl in H. lia.
  - rewrite !StrFacts.app_cons in H. injection H as -> H. now rewrite (IH b H).
Qed.

Lemma mentions_app (ch : ascii) (a b : string) :
  mentions ch (a +:+ b) = mentions ch a || mentions ch b.
Proof.
  induction a as [|c a IH]; [reflexivity|].
  rewrite StrFacts.app_cons. simpl. rewrite IH. now rewrite orb_assoc.
Qed.

(** Two strings split at the first occurrence of a character. *)
Lemma first_split (ch : ascii) (a b x y : string) :
  mentions ch a = false -> mentions ch b = false ->
  a +:+ String ch x = b +:+ String ch y -> a = b /\ x = y.
Proof.
  revert b. induction a as [|c a IH]; intros [|d b] Ha Hb H.
  - change (String ch x = String ch y) in H. injection H as ->. now split.
  - change (String ch x = String d (b +:+ String ch y)) in H. injection H as <- _.
    simpl in Hb. now rewrite Ascii.eqb_refl in Hb.
  - change (String c (a +:+ String ch x) = String ch y) in H. injection H as -> _.
    simpl in Ha. now rewrite Ascii.eqb_refl in Ha.
  - rewrite !StrFacts.app_cons in H. injection H as -> H.
    simpl in Ha, Hb. apply orb_false_elim in Ha as [_ Ha], Hb as [_ Hb].
    destruct (IH b Ha Hb H) as [-> ->]. now split.
Qed.

Lemma tidy_spec (name : string) :
  tidy name = true ->
  name <> "" /\ name <> ".." /\ mentions "/" name = false
  /\ mentions (ascii_of_nat 10) name = false.
Proof.
  unfold tidy. rewrite !andb_true_iff, !negb_true_iff.
  intros [[[H1 H2] H3] H4]. apply String.eqb_neq in H1, H2. now repeat split.
Qed.

(** The string of a list of tidy components has a line break nowhere. *)
Lemma concat_no_break (l : list string) :
  Forall (fun name => mentions (ascii_of_nat 10) name = false) l ->
  mentions (ascii_of_nat 10) (String.concat "/" l) = false.
Proof.
  induction 1 as [|x l Hx Hl IH]; [reflexivity|].
  destruct l as [|y l]; [exact Hx|].
  change (String.concat "/" (x :: y :: l)) with (x +:+ "/" +:+ String.concat "/" (y :: l)).
  rewrite !mentions_app, Hx, IH. reflexivity.
Qed.

(** Components without [/] can be read off the joined string. *)
Lemma concat_inj (l1 l2 : list string) :
  Forall (fun name => name <> "" /\ mentions "/" name = false) l1 ->
  Forall (fun name => name <> "" /\ mentions "/" name = false) l2 ->
  String.concat "/" l1 = String.concat "/" l2 -> l1 = l2.
Proof.
  intros H1. revert l2. induction H1 as [|x1 l1 [Hx1 Hs1] Hl1 IH]; intros l2 H2 Heq.
  - destruct H2 as [|x2 l2 [Hx2 Hs2] Hl2]; [reflexivity|].
    destruct l2 as [|y2 l2]; simpl in Heq; [congruence|].
    destruct x2; [congruence | discriminate].
  - destruct H2 as [|x2 l2 [Hx2 Hs2] Hl2].
    + destruct l1 as [|y1 l1]; simpl in Heq; [congruence|].
      destruct x1; [congruence | discriminate].
    + destruct l1 as [|y1 l1], l2 as [|y2 l2].
      * simpl in Heq. now subst.
      * change (x1 = x2 +:+ String "/" (String.concat "/" (y2 :: l2))) in Heq.
        rewrite Heq, mentions_app in Hs1. simpl in Hs1.
        now rewrite orb_true_r in Hs1.
      * change (x1 +:+ String "/" (String.concat "/" (y1 :: l1)) = x2) in Heq.
        rewrite <- Heq, mentions_app in Hs2. simpl in Hs2.
        now rewrite orb_true_r in Hs2.
      * change (x1 +:+ String "/" (String.concat "/" (y1 :: l1))
                = x2 +:+ String "/" (String.concat "/" (y2 :: l2))) in Heq.
        destruct (first_split _ _ _ _ _ Hs1 Hs2 Heq) as [-> Hrest].
        now rewrite (IH _ Hl2 Hrest).
Qed.

(** The steps up and the way down of a relative path. *)
Lemma ups_inj (u1 u2 d1 d2 : list string) :
  Forall (fun name => name <> "..") d1 -> Forall (fun name => name <> "..") d2 ->
  map (fun _ => "..") u1 ++ d1 = map (fun _ => "..") u2 ++ d2 ->
  length u1 = length u2 /\ d1 = d2.
Proof.
  revert u2. induction u1 as [|a u1 IH]; intros [|b u2] Hd1 Hd2 Heq; simpl in *.
  - now split.
  - subst d1. inversion Hd1; congruence.
  - subst d2. inversion Hd2; congruence.
  - injection Heq as Heq. destruct (IH u2 Hd1 Hd2 Heq) as [-> ->]. now split.
Qed.

Lemma strip_common_parts (from to up down : path) :
  Path.strip_common from to = (up, down) ->
  exists common, from = common ++ up /\ to = common ++ down.
Proof.
  revert to. induction from as [|f from IH]; intros to Hstrip.
  - destruct to; simpl in *; injection Hstrip as <- <-; now exists [].
  - destruct to as [|t to]; simpl in *.
    + injection Hstrip as <- <-. now exists [].
    + destruct (String.eqb_spec f t) as [->|Hne].
      * destruct (IH to Hstrip) as (common & -> & ->). now exists (t :: common).
      * injection Hstrip as <- <-. now exists [].
Qed.

(** Tidy paths with the same relative path are the same path. *)
Lemma relative_inj (cwd p q : path) :
  Forall (fun name => tidy name = true) p ->
  Forall (fun name => tidy name = true) q ->
  Path.relative cwd p = Path.relative cwd q -> p = q.
Proof.
  intros Hp Hq. unfold Path.relative.
  destruct (Path.strip_common cwd p) as [u1 d1] eqn:H1.
  destruct (Path.strip_common cwd q) as [u2 d2] eqn:H2.
  destruct (strip_common_parts _ _ _ _ H1) as (k1 & Hc1 & ->).
  destruct (strip_common_parts _ _ _ _ H2) as (k2 & Hc2 & ->).
  apply Forall_app in Hp as [_ Hd1]. apply Forall_app in Hq as [_ Hd2].
  intros Heq. apply concat_inj in Heq.
  - apply ups_inj in Heq as [Hlen ->].
    + assert (k1 = k2) as ->; [|reflexivity].
      rewrite Hc1 in Hc2. now apply app_inj_2 in Hc2 as [-> _].
    + eapply Forall_impl; [exact Hd1|]. intros name Hn. now apply tidy_spec in Hn.
    + eapply Forall_impl; [exact Hd2|]. intros name Hn. now apply tidy_spec in Hn.
  - apply Forall_app. split.
    + apply Forall_forall. intros x Hx%list_elem_of_In. apply in_map_iff in Hx as (? & <- & _).
      now split.
    + eapply Forall_impl; [exact Hd1|]. intros name Hn. apply tidy_spec in Hn. tauto.
  - apply Forall_app. split.
    + apply Forall_forall. intros x Hx%list_elem_of_In. apply in_map_iff in Hx as (? & <- & _).
      now split.
    + eapply Forall_impl; [exact Hd2|]. intros name Hn. apply tidy_spec in Hn. tauto.
Qed.

Lemma relative_no_break (cwd p : path) :
  Forall (fun name => tidy name = true) p ->
  mentions (ascii_of_nat 10) (Path.relative cwd p) = false.
Proof.
  intros Hp. unfold Path.relative.
  destruct (Path.strip_common cwd p) as [u d] eqn:H.
  destruct (strip_common_parts _ _ _ _ H) as (k & _ & ->).
  apply Forall_app in Hp as [_ Hd].
  apply concat_no_break, Forall_app. split.
  - apply Forall_forall. intros x Hx%list_elem_of_In. apply in_map_iff in Hx as (? & <- & _).
    reflexivity.
  - eapply Forall_impl; [exact Hd|]. intros name Hn. apply tidy_spec in Hn. tauto.
Qed.

(** A record names one tidy path only. *)
Lemma names_inj (w : world) (p q : path) (data : string) :
  Forall (fun name => tidy name = true) p ->
  Forall (fun name => tidy name = true) q ->
  names w p data -> names w q data -> p = q.
Proof.
  intros Hp Hq [r1 ->] [r2 H].
  do 3 apply app_inv_head in H.
  rewrite <- (Replay.string_app_assoc (Path.relative (cwd w) p) " ---"),
    <- (Replay.string_app_assoc (Path.relative (cwd w) q) " ---") in H.
  change (Str.nl +:+ r1) with (String (ascii_of_nat 10) r1) in H.
  change (Str.nl +:+ r2) with (String (ascii_of_nat 10) r2) in H.
  apply first_split in H as [H _].
  - apply app_inv_tail in H. symmetry in H. now apply relative_inj in H.
  - rewrite mentions_app, relative_no_break by exact Hp. reflexivity.
  - rewrite mentions_app, relative_no_break by exact Hq. reflexivity.
Qed.

(** The three kinds of record for one path differ as strings. *)
Lemma placeholder_not_processed (r reason c : string) :
  placeholderRecord r reason <> processedRecord r c.
Proof.
  unfold placeholderRecord, processedRecord. intros H.
  do 6 apply app_inv_head in H. discriminate H.
Qed.

Lemma reasons_differ (r : string) :
  placeholderRecord r reasonSkipped <> placeholderRecord r reasonExcluded.
Proof.
  unfold placeholderRecord. intros H.
  do 6 apply app_inv_head in H. discriminate H.
Qed.

Lemma names_processed (w : world) (p : path) (c : string) :
  names w p (processedRecord (Path.relative (cwd w) p) c).
Proof. now exists (Str.nl +:+ c +:+ Str.nl). Qed.

Lemma names_placeholder (w : world) (p : path) (reason : string) :
  names w p (placeholderRecord (Path.relative (cwd w) p) reason).
Proof. now exists ("(" +:+ reason +:+ ")" +:+ Str.nl). Qed.

Lemma tidy_tree_entry (listable : bool) (entries : list (string * node)) (name : string)
    (file : node) :
  tidy_tree (Dir listable entries) = true -> In (name, file) entries ->
  tidy name = true /\ tidy_tree file = true.
Proof.
  simpl. rewrite forallb_forall. intros H Hin. specialize (H _ Hin). simpl in H.
  now apply andb_true_iff in H.
Qed.

End Naming.

Section WalkFacts.

Variable cfg : config.
Variable w : world.
Variable out : path.

Lemma justified_writes_only (dirPath : path) (t : list event) (e : event) :
  justified cfg w out dirPath t e -> writes_only out e /\ is_truncation e = false.
Proof. intros H. destruct H; simpl; auto. Qed.

Lemma Inv_writes_only (dirPath : path) (t : list event) :
  Inv cfg w out dirPath t ->
  Forall (writes_only out) t /\ Forall (fun e => is_truncation e = false) t.
Proof.
  intros H. split; apply Forall_forall; intros e He%list_elem_of_In;
    now apply (justified_writes_only dirPath t e (H e He)).
Qed.

(** The result of a walk, in one piece. *)
Lemma traverseDirectory_result (dir : node) (dirPath : path) (s : fstate) :
  exists t,
    traverseDirectory cfg w dir dirPath out s = (Done tt, replay t s, t)
    /\ Inv cfg w out dirPath t.
Proof.
  pose proof (traverseDirectory_done cfg w out dir dirPath s) as Hdone.
  destruct (sound_traverseDirectory cfg w out dir dirPath s) as (_ & Hst & Hinv).
  destruct (traverseDirectory cfg w dir dirPath out s) as [[r s'] t].
  simpl in *. subst. now exists t.
Qed.

End WalkFacts.

(** ** How a run can go *)

Section Runs.

Variable cfg : config.
Variable w : world.

Lemma run_cases (store : gmap (list string) string) : run_spec cfg w store (run cfg w store).
Proof.
  unfold run, main, bind, try_catch, fs_access, fs_writeFile, console_log,
    console_error, process_exit, emit, throw_after.
  fold (targetDir cfg w) (outputFilePath cfg w).
  destruct (lookup_node (fsroot w) (targetDir cfg w)) as [root|] eqn:Hroot; simpl.
  - destruct (write_ok w) eqn:Hw; simpl.
    + destruct (traverseDirectory_result cfg w (outputFilePath cfg w) (node_at w (targetDir cfg w))
                  (targetDir cfg w) (truncated cfg w store)) as (t & Ht & Hinv).
      unfold truncated in Ht at 1. simpl in Ht. rewrite Ht. simpl.
      apply run_walk; auto.
    + apply run_no_write; auto.
  - now apply run_no_root.
Qed.

End Runs.

(** ** Every call of a walk has its entry *)

Section Origins.

Variable cfg : config.
Variable w : world.
Variable out : path.

Lemma caused_mono (dir : node) (dirPath : path) (t t' : list event) (e : event) :
  (forall x, In x t -> In x t') ->
  caused cfg w out dir dirPath t e -> caused cfg w out dir dirPath t' e.
Proof. intros Hsub H. destruct H; econstructor; solve [eauto]. Qed.

Lemma Caused_nil (dir : node) (dirPath : path) : Caused cfg w out dir dirPath [].
Proof. intros e []. Qed.

Lemma Caused_app (dir : node) (dirPath : path) (t1 t2 : list event) :
  Caused cfg w out dir dirPath t1 -> Caused cfg w out dir dirPath t2 ->
  Caused cfg w out dir dirPath (t1 ++ t2).
Proof.
  intros H1 H2 e He. apply in_app_or in He as [He | He].
  - eapply caused_mono; [|apply H1, He]. intros x Hx. apply in_or_app. now left.
  - eapply caused_mono; [|apply H2, He]. intros x Hx. apply in_or_app. now right.
Qed.

Lemma Caused_one (dir : node) (dirPath : path) (e : event) :
  (forall t, caused cfg w out dir dirPath t e) -> Caused cfg w out dir dirPath [e].
Proof. intros H x [<- | []]. apply H. Qed.

(** What the walk of an entered directory does, the walk of the directory
    that lists it does. *)
Lemma caused_deeper (entries : list (string * node)) (dirPath : path) (name : string)
    (file : node) (t : list event) (e : event) :
  In (name, file) entries ->
  isExcluded cfg (cwd w) (dirPath ++ [name]) = false ->
  isDirectory file = true ->
  shouldRecurse cfg (dirPath ++ [name]) = true ->
  caused cfg w out file (dirPath ++ [name]) t e ->
  caused cfg w out (Dir true entries) dirPath t e.
Proof.
  intros Hin Hex Hdir Hinc H.
  assert (forall parent n f,
             reaches cfg w file (dirPath ++ [name]) parent n f ->
             reaches cfg w (Dir true entries) dirPath parent n f) as Hlift.
  { intros parent n f Hr. eapply reach_deeper; eauto. }
  destruct H.
  - eapply c_readdir; eauto. now apply reach_entry.
  - eapply c_readdir; eauto.
  - eapply c_readFile; eauto.
  - eapply c_processed; eauto.
  - eapply c_skipped; eauto.
  - eapply c_excluded; eauto.
  - apply c_log.
  - apply c_error.
Qed.

Lemma sound_caused_logSkippedFile (dir : node) (dirPath filePath : path) (reason : string) :
  (forall t ok,
      caused cfg w out dir dirPath t
        (EvAppendFile out (placeholderRecord (Path.relative (cwd w) filePath) reason) ok)) ->
  sound (Caused cfg w out dir dirPath) (logSkippedFile w filePath out reason).
Proof.
  intros H. unfold logSkippedFile.
  apply sound_bind; [apply Caused_app | |].
  - apply sound_appendFile. intros ok. apply Caused_one. intros t. apply H.
  - intros _. apply sound_emit; [reflexivity | apply Caused_one; intros t; apply c_log].
Qed.

Lemma sound_caused_processFile (dir : node) (dirPath parent : path) (name : string)
    (file : node) :
  reaches cfg w dir dirPath parent name file ->
  isExcluded cfg (cwd w) (parent ++ [name]) = false ->
  isDirectory file = false ->
  qualifiesByExtension cfg name = true ->
  sound (Caused cfg w out dir dirPath) (processFile w file (parent ++ [name]) out).
Proof.
  intros Hr Hex Hdir Hq s. split; [|split].
  - intros code. now rewrite processFile_done.
  - apply processFile_state.
  - destruct (processFile_cases w out file (parent ++ [name]) s) as [-> | (c & ok & -> & _)].
    + intros e [<- | [<- | []]]; [eapply c_readFile; eauto | apply c_error].
    + intros e [<- | [<- | [<- | []]]].
      * eapply c_readFile; eauto.
      * eapply c_processed; eauto. now left.
      * destruct ok; constructor.
Qed.

(** One iteration of the loop, for an entry of the directory that is being
    listed. *)
Lemma sound_caused_traverseEntry (entries : list (string * node)) (dirPath : path)
    (name : string) (file : node) :
  In (name, file) entries ->
  sound (Caused cfg w out file (dirPath ++ [name]))
    (traverseDirectory cfg w file (dirPath ++ [name]) out) ->
  sound (Caused cfg w out (Dir true entries) dirPath)
    (traverseEntry cfg w dirPath out name file
       (traverseDirectory cfg w file (dirPath ++ [name]) out)).
Proof.
  intros Hin Hrec.
  pose proof (reach_entry cfg w entries dirPath name file Hin) as Hreach.
  unfold traverseEntry, Path.join_entry.
  destruct (isExcluded cfg (cwd w) (dirPath ++ [name])) eqn:Hex.
  - destruct (showExcluded cfg) eqn:Hshow.
    + apply sound_caused_logSkippedFile. intros t ok. eapply c_excluded; eauto.
    + apply sound_ret, Caused_nil.
  - destruct (isDirectory file) eqn:Hdir.
    + destruct (shouldRecurse cfg (dirPath ++ [name])) eqn:Hinc.
      * eapply sound_weaken; [|exact Hrec].
        intros t Ht e He. eapply caused_deeper; eauto.
      * apply sound_ret, Caused_nil.
    + destruct (qualifiesByExtension cfg name) eqn:Hq; simpl.
      * eapply sound_caused_processFile; eauto.
      * destruct (showSkipped cfg) eqn:Hshow.
        -- apply sound_caused_logSkippedFile. intros t ok. eapply c_skipped; eauto.
        -- apply sound_ret, Caused_nil.
Qed.

(** Every call of a walk is the listing of its directory or is made for an
    entry it reaches. *)
Lemma sound_caused_traverseDirectory (dir : node) :
  forall dirPath,
    sound (Caused cfg w out dir dirPath) (traverseDirectory cfg w dir dirPath out).
Proof.
  induction dir as [readable | listable entries IH] using node_tree_ind;
    intros dirPath; rewrite traverseDirectory_unfold;
    (apply sound_try_catch;
     [apply Caused_app
     |
     |apply sound_emit; [reflexivity | apply Caused_one; intros t; apply c_error]]).
  - simpl. apply sound_throw_after; [reflexivity|].
    apply Caused_one. intros t. apply c_root.
  - destruct listable; simpl.
    + apply sound_bind; [apply Caused_app | |].
      * apply sound_emit; [reflexivity|]. apply Caused_one. intros t. apply c_root.
      * intros _. apply sound_forEach; [apply Caused_nil | apply Caused_app |].
        apply Forall_forall. intros [name file] Hx%list_elem_of_In.
        apply sound_caused_traverseEntry; [exact Hx|].
        rewrite Forall_forall in IH. apply (IH (name, file)).
        now apply list_elem_of_In.
    + apply sound_throw_after; [reflexivity|].
      apply Caused_one. intros t. apply c_root.
Qed.

Lemma traverseDirectory_caused (dir : node) (dirPath : path) (s : fstate) :
  Caused cfg w out dir dirPath (traverseDirectory cfg w dir dirPath out s).2.
Proof. apply sound_caused_traverseDirectory. Qed.

(** The directories down to a reached entry passed both tests. *)
Lemma reaches_walked (dir : node) (dirPath parent : path) (name : string) (file : node) :
  reaches cfg w dir dirPath parent name file -> walked cfg w dirPath parent.
Proof.
  induction 1 as [entries dirPath name file Hin
                 | entries dirPath sub subdir parent name file Hin Hex Hinc Hsub IH].
  - apply walked_refl.
  - eapply walked_step; eauto.
Qed.

(** In a tidy tree every reached path is tidy. *)
Lemma reaches_tidy (dir : node) (dirPath parent : path) (name : string) (file : node) :
  reaches cfg w dir dirPath parent name file ->
  tidy_tree dir = true ->
  Forall (fun n => tidy n = true) dirPath ->
  Forall (fun n => tidy n = true) (parent ++ [name]).
Proof.
  induction 1 as [entries dirPath name file Hin
                 | entries dirPath sub subdir parent name file Hin Hex Hinc Hsub IH];
    intros Htree Hpath;
    destruct (Naming.tidy_tree_entry _ _ _ _ Htree Hin) as [Hname Hsubtree].
  - apply Forall_app. split; [exact Hpath | now repeat constructor].
  - apply IH; [exact Hsubtree|].
    apply Forall_app. split; [exact Hpath | now repeat constructor].
Qed.

(** In a tidy tree a record that names a tidy path was appended for that
    very path, which the walk reaches, by the branch the path selects. *)
Lemma record_of_reached_entry (dir : node) (dirPath : path) (t : list event) (p o : path)
    (data : string) (ok : bool) :
  tidy_tree dir = true ->
  Forall (fun n => tidy n = true) dirPath ->
  Forall (fun n => tidy n = true) p ->
  caused cfg w out dir dirPath t (EvAppendFile o data ok) ->
  names w p data ->
  exists parent name file,
    p = parent ++ [name]
    /\ reaches cfg w dir dirPath parent name file
    /\ ((isExcluded cfg (cwd w) p = true /\ showExcluded cfg = true
         /\ data = placeholderRecord (Path.relative (cwd w) p) reasonExcluded)
        \/ (isExcluded cfg (cwd w) p = false /\ isDirectory file = false
            /\ qualifiesByExtension cfg name = false /\ showSkipped cfg = true
            /\ data = placeholderRecord (Path.relative (cwd w) p) reasonSkipped)
        \/ (isExcluded cfg (cwd w) p = false /\ isDirectory file = false
            /\ qualifiesByExtension cfg name = true
            /\ exists c, data = processedRecord (Path.relative (cwd w) p) c)).
Proof.
  intros Htree Hpath Hp Hcaused Hnames.
  inversion Hcaused as [| | |parent name file c ok' Hr Hex Hdir Hq Hread
                       |parent name file ok' Hr Hex Hdir Hq Hshow
                       |parent name file ok' Hr Hex Hshow | |]; subst;
    pose proof (reaches_tidy _ _ _ _ _ Hr Htree Hpath) as Htidy;
    exists parent, name, file.
  - assert (p = parent ++ [name]) as ->
        by (eapply Naming.names_inj; eauto using Naming.names_processed).
    split; [reflexivity|]. split; [exact Hr|]. do 2 right. repeat split; auto.
    now exists c.
  - assert (p = parent ++ [name]) as ->
        by (eapply Naming.names_inj; eauto using Naming.names_placeholder).
    split; [reflexivity|]. split; [exact Hr|]. right. left. now repeat split.
  - assert (p = parent ++ [name]) as ->
        by (eapply Naming.names_inj; eauto using Naming.names_placeholder).
    split; [reflexivity|]. split; [exact Hr|]. left. now repeat split.
Qed.

End Origins.

Section RunOrigins.

Variable cfg : config.
Variable w : world.

(** Every call of a run is the check, the truncation, the exit, a line of
    diagnostics, or a call of the walk with its entry. *)
Lemma run_caused (store : gmap (list string) string) (e : event) :
  In e (run cfg w store).2 ->
  (exists ok, e = EvAccess (targetDir cfg w) ok)
  \/ (exists ok, e = EvWriteFile (outputFilePath cfg w) "" ok)
  \/ e = EvExit 1
  \/ caused cfg w (outputFilePath cfg w) (node_at w (targetDir cfg w)) (targetDir cfg w)
       (run cfg w store).2 e.
Proof.
  pose proof (traverseDirectory_caused cfg w (outputFilePath cfg w)
                (node_at w (targetDir cfg w)) (targetDir cfg w) (truncated cfg w store))
    as Hcaused.
  destruct (run_cases cfg w store) as [| |t _ _ Ht _]; simpl.
  - intros [<- | [<- | [<- | []]]]; eauto 10. do 3 right. apply c_error.
  - intros [<- | [<- | [<- | []]]]; eauto 10. do 3 right. apply c_error.
  - rewrite Ht in Hcaused. simpl in Hcaused.
    intros [<- | [<- | [<- | Hin]]]; eauto 10; do 3 right; [apply c_log|].
    apply in_app_or in Hin as [Hin | [<- | []]]; [|apply c_log].
    eapply caused_mono; [|apply Hcaused, Hin].
    intros x Hx. do 3 right. apply in_or_app. now left.
Qed.

End RunOrigins.

(** ** The claims about whole runs *)

Section RunTheorems.

Variable cfg : config.
Variable w : world.

Let out := outputFilePath cfg w.
Let root := targetDir cfg w.

Lemma filter_no_truncation (t : list event) :
  Forall (fun e => is_truncation e = false) t -> List.filter is_truncation t = [].
Proof.
  induction 1 as [|e t He _ IH]; [reflexivity|]. simpl. now rewrite He.
Qed.

Lemma truncated_eq (store store' : gmap (list string) string) :
  (forall p, p <> out -> store !! p = store' !! p) ->
  truncated cfg w store = truncated cfg w store'.
Proof.
  intros Hagree. unfold truncated. f_equal. apply map_eq. intros p.
  destruct (decide (out = p)) as [<- | Hne].
  - now rewrite !lookup_insert_eq.
  - rewrite !lookup_insert_ne by exact Hne. apply Hagree. congruence.
Qed.

(** When the walk takes place, a run is a function of the truncated
    store. *)
Lemma run_of_truncated (store store' : gmap (list string) string) :
  is_Some (lookup_node (fsroot w) root) ->
  write_ok w = true ->
  truncated cfg w store = truncated cfg w store' ->
  run cfg w store = run cfg w store'.
Proof.
  intros [n Hroot] Hw Heq.
  destruct (run_cases cfg w store) as [Hno | _ Hno | t _ _ Ht _];
    [unfold root in Hroot; congruence | congruence |].
  destruct (run_cases cfg w store') as [Hno | _ Hno | t' _ _ Ht' _];
    [unfold root in Hroot; congruence | congruence |].
  rewrite Heq in Ht. rewrite Ht in Ht'. injection Ht' as _ <-.
  now rewrite Heq.
Qed.

(** The walk leaves every file but the output file as it was. *)
Lemma walk_frame (t : list event) (store : gmap (list string) string) (p : path) :
  Inv cfg w out root t -> p <> out ->
  contents (replay t (truncated cfg w store)) !! p = store !! p.
Proof.
  intros Hinv Hp. apply Inv_writes_only in Hinv as [Hwr _].
  rewrite (Replay.other out t Hwr) by exact Hp.
  simpl. apply lookup_insert_ne. intros Heq. now apply Hp.
Qed.

(** After the walk the output file holds what was appended, and nothing
    else. *)
Lemma walk_output (t : list event) (store : gmap (list string) string) :
  Inv cfg w out root t ->
  contents (replay t (truncated cfg w store)) !! out = Some (appended t).
Proof.
  intros Hinv. apply Inv_writes_only in Hinv as [Hwr Htr].
  rewrite (Replay.output out t Hwr Htr _ "").
  - reflexivity.
  - simpl. apply lookup_insert_eq.
Qed.

(** A run changes no file but the output file. *)
Lemma run_frame (store : gmap (list string) string) (p : path) :
  p <> out -> (run cfg w store).1.2 !! p = store !! p.
Proof.
  intros Hp.
  destruct (run_cases cfg w store) as [| |t _ _ _ Hinv]; simpl; try reflexivity.
  now apply walk_frame.
Qed.

(** A run that does not get to the walk changes nothing. *)
Lemma run_unchanged (store : gmap (list string) string) :
  lookup_node (fsroot w) root = None \/ write_ok w = false ->
  (run cfg w store).1.2 = store.
Proof.
  intros Hbad.
  destruct (run_cases cfg w store) as [| |t [n Hn] Hw _ _]; simpl; try reflexivity.
  unfold root in Hbad. destruct Hbad; congruence.
Qed.

(** C7. When the scan root is missing the run is over after the check:
    exit status 1, an error line, no file created or changed, no directory
    listed.  In every run the check is the first call made, so it comes
    before the truncation and before any record. *)
Theorem missing_root_aborts (store : gmap (list string) string) :
  (lookup_node (fsroot w) (targetDir cfg w) = None ->
   run cfg w store =
     (1, store,
      [EvAccess (targetDir cfg w) false; EvError (rootMissing cfg w); EvExit 1]))
  /\ exists ok rest, (run cfg w store).2 = EvAccess (targetDir cfg w) ok :: rest.
Proof.
  split.
  - intros Hroot.
    destruct (run_cases cfg w store) as [_ | [n Hn] _ | t [n Hn] _ _ _];
      [reflexivity | congruence | congruence].
  - destruct (run_cases cfg w store); simpl; eauto.
Qed.

(** C8. Once the scan root passes the check the exit status is 0, whatever
    listings, reads and appends fail during the walk. *)
Theorem entry_errors_exit_zero (store : gmap (list string) string) :
  is_Some (lookup_node (fsroot w) (targetDir cfg w)) ->
  (run cfg w store).1.1 = 0.
Proof.
  intros [n Hn].
  destruct (run_cases cfg w store) as [Hno | |]; [congruence | reflexivity..].
Qed.

(** C9. A run truncates the output file at most once, and exactly once
    when the scan root passes the check; every append comes after that
    truncation.  Hence a second run over the files the first one left
    behaves as the first did and leaves the same files, and what a
    run leaves in the output file does not depend on what was there. *)
Theorem truncated_once_then_idempotent (store : gmap (list string) string) :
  length (List.filter is_truncation (run cfg w store).2) <= 1
  /\ (is_Some (lookup_node (fsroot w) (targetDir cfg w)) ->
      length (List.filter is_truncation (run cfg w store).2) = 1)
  /\ (forall t1 e t2,
        (run cfg w store).2 = t1 ++ e :: t2 -> is_append e = true ->
        In (EvWriteFile (outputFilePath cfg w) "" true) t1)
  /\ run cfg w (run cfg w store).1.2 = run cfg w store
  /\ (forall stale,
        is_Some (lookup_node (fsroot w) (targetDir cfg w)) -> write_ok w = true ->
        (run cfg w (<[outputFilePath cfg w := stale]> store)).1.2 = (run cfg w store).1.2).
Proof.
  split; [|split; [|split; [|split]]].
  - destruct (run_cases cfg w store) as [| |t _ _ _ Hinv]; simpl; try lia.
    rewrite List.filter_app. simpl.
    apply Inv_writes_only in Hinv as [_ Htr].
    rewrite (filter_no_truncation t Htr). simpl. lia.
  - intros [n Hn].
    destruct (run_cases cfg w store) as [Hno| |t _ _ _ Hinv]; simpl;
      [congruence | reflexivity |].
    rewrite List.filter_app. simpl.
    apply Inv_writes_only in Hinv as [_ Htr].
    now rewrite (filter_no_truncation t Htr).
  - intros t1 e t2 Heq Happ.
    destruct (run_cases cfg w store) as [| |t _ _ _ _]; simpl in Heq.
    + destruct t1 as [|a [|b [|c [|]]]]; simplify_eq/=; discriminate.
    + destruct t1 as [|a [|b [|c [|]]]]; simplify_eq/=; discriminate.
    + destruct t1 as [|a [|b [|c t1]]]; simplify_eq/=; auto.
  - destruct (lookup_node (fsroot w) (targetDir cfg w)) as [n|] eqn:Hroot.
    + destruct (write_ok w) eqn:Hw.
      * apply run_of_truncated; [unfold root; rewrite Hroot; eauto | exact Hw |].
        apply truncated_eq. intros p Hp. now apply run_frame.
      * rewrite run_unchanged; [reflexivity | now right].
    + rewrite run_unchanged; [reflexivity | now left].
  - intros stale Hsome Hw. f_equal. f_equal. apply run_of_truncated; auto.
    apply truncated_eq. intros p Hp. apply lookup_insert_ne.
    intros Heq. now apply Hp.
Qed.

End RunTheorems.

(** ** The records and where they go *)

Module PathFacts.

Lemma segments_plain (name : string) :
  Str.includes name "/" = false -> Path.segments name = [name].
Proof.
  induction name as [|c name IH]; intros Hno; [reflexivity|].
  change (Str.includes (String c name) "/")
    with (String.prefix "/" (String c name) || Str.includes name "/") in Hno.
  apply orb_false_elim in Hno as [Hhead Htail].
  simpl in Hhead. simpl.
  destruct (Ascii.eqb_spec c "/") as [-> | Hne].
  - simpl in Hhead. now destruct name.
  - now rewrite (IH Htail).
Qed.

(** Joining a plain file name onto a directory appends one component. *)
Lemma join_plain (base : path) (name : string) :
  Str.includes name "/" = false ->
  name <> "" -> name <> "." -> name <> ".." ->
  Path.join base name = base ++ [name].
Proof.
  intros Hno H1 H2 H3. unfold Path.join. rewrite (segments_plain name Hno).
  simpl. unfold Path.step.
  apply String.eqb_neq in H1, H2, H3. now rewrite H1, H2, H3.
Qed.

End PathFacts.

Section Records.

Variable cfg : config.
Variable w : world.

(** Every call a run makes is the check, the truncation, a line of
    diagnostics, the exit, or a call of the walk. *)
Lemma run_events (store : gmap (list string) string) (e : event) :
  In e (run cfg w store).2 ->
  (exists ok, e = EvAccess (targetDir cfg w) ok)
  \/ (exists ok, e = EvWriteFile (outputFilePath cfg w) "" ok)
  \/ (exists msg, e = EvLog msg) \/ (exists msg, e = EvError msg) \/ e = EvExit 1
  \/ exists t, In e t /\ Inv cfg w (outputFilePath cfg w) (targetDir cfg w) t
               /\ forall x, In x t -> In x (run cfg w store).2.
Proof.
  destruct (run_cases cfg w store) as [| |t _ _ _ Hinv]; simpl.
  - intros [<- | [<- | [<- | []]]]; eauto 10.
  - intros [<- | [<- | [<- | []]]]; eauto 10.
  - intros [<- | [<- | [<- | Hin]]]; eauto 10.
    apply in_app_or in Hin as [Hin | [<- | []]]; eauto 10.
    do 5 right. exists t. repeat split; auto.
    intros x Hx. do 3 right. apply in_or_app. now left.
Qed.

(** When the walk takes place, the output file ends up holding what the
    successful appends of the run added, in order. *)
Lemma run_output (store : gmap (list string) string) :
  is_Some (lookup_node (fsroot w) (targetDir cfg w)) -> write_ok w = true ->
  (run cfg w store).1.2 !! outputFilePath cfg w = Some (appended (run cfg w store).2).
Proof.
  intros [n Hn] Hw.
  destruct (run_cases cfg w store) as [Hno | _ Hno | t _ _ _ Hinv];
    [congruence | congruence |].
  simpl. rewrite Replay.appended_app. simpl.
  rewrite Replay.string_app_nil_r. now apply walk_output.
Qed.

(** C5. The two formats, byte for byte, with the path made relative to
    the working directory.  [processFile] appends the header of the file
    it was called for followed by the contents it has just read from it,
    and [logSkippedFile] the header of the file it was called for followed
    by the reason in parentheses.  In a run every record is appended for
    an entry the walk reaches, under that entry's path relative to the
    working directory: with its contents, or with [Excluded] when the
    entry is excluded, or with [Skipped (non-matching extension)] when it
    is not excluded and its extension is not listed.  When the walk takes
    place the output file ends up as the concatenation, in order, of the
    records whose append succeeded. *)
Theorem records_have_two_formats (store : gmap (list string) string) :
  (forall file filePath out s,
      (processFile w file filePath out s).2
      = [EvReadFile filePath None;
         EvError ("Error processing file " +:+ Path.to_string filePath +:+ ":")]
      \/ exists c ok,
           contents s !! filePath = Some c
           /\ (processFile w file filePath out s).2
              = [EvReadFile filePath (Some c);
                 EvAppendFile out
                   (Str.nl +:+ Str.nl +:+ "--- File: " +:+ Path.relative (cwd w) filePath
                    +:+ " ---" +:+ Str.nl +:+ Str.nl +:+ c +:+ Str.nl) ok;
                 if ok then EvLog ("Processed file: " +:+ Path.relative (cwd w) filePath)
                 else EvError ("Error processing file " +:+ Path.to_string filePath +:+ ":")])
  /\ (forall filePath out reason s,
        exists ok,
          (logSkippedFile w filePath out reason s).2
          = EvAppendFile out
              (Str.nl +:+ Str.nl +:+ "--- File: " +:+ Path.relative (cwd w) filePath
               +:+ " ---" +:+ Str.nl +:+ "(" +:+ reason +:+ ")" +:+ Str.nl) ok
            :: (if ok
                then [EvLog ("Skipped file: " +:+ Path.relative (cwd w) filePath
                             +:+ " (" +:+ reason +:+ ")")]
                else []))
  /\ (forall p data ok,
        In (EvAppendFile p data ok) (run cfg w store).2 ->
        exists parent name file,
          reaches cfg w (node_at w (targetDir cfg w)) (targetDir cfg w) parent name file
          /\ ((exists c,
                  data = Str.nl +:+ Str.nl +:+ "--- File: "
                         +:+ Path.relative (cwd w) (parent ++ [name])
                         +:+ " ---" +:+ Str.nl +:+ Str.nl +:+ c +:+ Str.nl
                  /\ In (EvReadFile (parent ++ [name]) (Some c)) (run cfg w store).2)
              \/ (exists reasonText,
                     ((reasonText = "Excluded"
                       /\ isExcluded cfg (cwd w) (parent ++ [name]) = true)
                      \/ (reasonText = "Skipped (non-matching extension)"
                          /\ isExcluded cfg (cwd w) (parent ++ [name]) = false
                          /\ ~ In (Path.extname name) (includeExtensions cfg)))
                     /\ data = Str.nl +:+ Str.nl +:+ "--- File: "
                               +:+ Path.relative (cwd w) (parent ++ [name])
                               +:+ " ---" +:+ Str.nl +:+ "(" +:+ reasonText +:+ ")"
                               +:+ Str.nl)))
  /\ (is_Some (lookup_node (fsroot w) (targetDir cfg w)) -> write_ok w = true ->
      (run cfg w store).1.2 !! outputFilePath cfg w = Some (appended (run cfg w store).2)).
Proof.
  split; [|split; [|split]].
  - intros file filePath out s.
    destruct (processFile_cases w out file filePath s) as [H | (c & ok & H & Hc & _)].
    + now left.
    + right. now exists c, ok.
  - intros filePath out reason s.
    exists (append_ok w (appends s)).
    unfold logSkippedFile, bind, fs_appendFile, console_log, emit.
    now destruct (append_ok w (appends s)).
  - intros p data ok Hin.
    destruct (run_caused cfg w store _ Hin) as [[? H] | [[? H] | [H | H]]];
      try discriminate.
    inversion H as [| | |parent name file c ok' Hr Hex Hdir Hq Hread
                   |parent name file ok' Hr Hex Hdir Hq Hshow
                   |parent name file ok' Hr Hex Hshow | |]; subst;
      exists parent, name, file; (split; [exact Hr|]).
    + left. exists c. now split.
    + right. exists "Skipped (non-matching extension)". split; [|reflexivity].
      right. split; [reflexivity|]. split; [exact Hex|].
      rewrite <- qualifiesByExtension_iff. congruence.
    + right. exists "Excluded". split; [|reflexivity]. left. now split.
  - apply run_output.
Qed.

(** C10. Every call that writes names the output file name joined onto
    the working directory, and no other file changes; the scan directory
    plays no part in that path.  When the walk takes place the file is
    there afterwards, and for a plain file name it is an entry of the
    working directory. *)
Theorem output_is_joined_on_cwd (store : gmap (list string) string) :
  (forall e, In e (run cfg w store).2 ->
             writes_only (Path.join (cwd w) (outputFile cfg)) e)
  /\ (forall p, p <> Path.join (cwd w) (outputFile cfg) ->
                (run cfg w store).1.2 !! p = store !! p)
  /\ (is_Some (lookup_node (fsroot w) (targetDir cfg w)) -> write_ok w = true ->
      is_Some ((run cfg w store).1.2 !! Path.join (cwd w) (outputFile cfg)))
  /\ (Str.includes (outputFile cfg) "/" = false ->
      outputFile cfg <> "" -> outputFile cfg <> "." -> outputFile cfg <> ".." ->
      Path.join (cwd w) (outputFile cfg) = cwd w ++ [outputFile cfg]).
Proof.
  split; [|split; [|split]].
  - intros e Hin.
    destruct (run_events store _ Hin)
      as [[? ->] | [[? ->] | [[? ->] | [[? ->] | [-> | (t & Ht & Hinv & _)]]]]];
      simpl; auto.
    now apply (justified_writes_only cfg w _ _ t e (Hinv e Ht)).
  - intros p Hp. now apply run_frame.
  - intros Hsome Hw.
    pose proof (run_output store Hsome Hw) as Hout.
    unfold outputFilePath in Hout. rewrite Hout. eauto.
  - apply PathFacts.join_plain.
Qed.

End Records.

(** ** What the walk reaches, it visits *)

Section ForEachFacts.

Context {A : Type} (body : A -> M unit).

(** When no iteration is cut short, the trace of the loop contains the
    trace of each iteration. *)
Lemma forEach_reaches (l : list A) :
  (forall x s, In x l -> (body x s).1.1 = Done tt) ->
  forall x, In x l ->
  forall s, exists sx, forall e, In e (body x sx).2 -> In e (forEach body l s).2.
Proof.
  induction l as [|y rest IH]; intros Hdone x Hx s; [destruct Hx|].
  simpl. unfold bind.
  pose proof (Hdone y s (or_introl eq_refl)) as Hy.
  destruct (body y s) as [[r s1] t1] eqn:Hrun. simpl in Hy. subst r.
  destruct Hx as [<- | Hx].
  - exists s. rewrite Hrun. simpl. intros e He.
    destruct (forEach body rest s1) as [[r2 s2] t2]. simpl.
    apply in_or_app. now left.
  - destruct (IH (fun x s Hin => Hdone x s (or_intror Hin)) x Hx s1) as [sx Hsx].
    exists sx. intros e He. specialize (Hsx e He).
    destruct (forEach body rest s1) as [[r2 s2] t2]. simpl in *.
    apply in_or_app. now right.
Qed.

End ForEachFacts.

Lemma try_catch_contains {A} (m h : M A) (s : fstate) (e : event) :
  In e (m s).2 -> In e (try_catch m h s).2.
Proof.
  unfold try_catch. destruct (m s) as [[[a | | code] s1] t1]; simpl; auto.
  intros He. destruct (h s1) as [[r s2] t2]. simpl. apply in_or_app. now left.
Qed.

Lemma bind_emit_head {B} (e : event) (k : unit -> M B) (s : fstate) :
  In e (bind (emit e) k s).2.
Proof.
  unfold bind, emit. destruct (k tt s) as [[r s'] t]. now left.
Qed.

Section Liveness.

Variable cfg : config.
Variable w : world.
Variable out : path.

(** No append fails. *)
Hypothesis appends_succeed : forall k, append_ok w k = true.

Lemma logSkippedFile_trace (filePath : path) (reason : string) (s : fstate) :
  (logSkippedFile w filePath out reason s).1.1 = Done tt
  /\ (logSkippedFile w filePath out reason s).2 =
       [EvAppendFile out (placeholderRecord (Path.relative (cwd w) filePath) reason) true;
        EvLog ("Skipped file: " +:+ Path.relative (cwd w) filePath
               +:+ " (" +:+ reason +:+ ")")].
Proof.
  unfold logSkippedFile, bind, fs_appendFile, console_log, emit.
  rewrite appends_succeed. simpl. split; reflexivity.
Qed.

Lemma traverseEntry_done (dirPath : path) (name : string) (file : node) (s : fstate) :
  (traverseEntry cfg w dirPath out name file
     (traverseDirectory cfg w file (dirPath ++ [name]) out) s).1.1 = Done tt.
Proof.
  unfold traverseEntry.
  repeat match goal with
         | |- context [if ?b then _ else _] => destruct b
         end;
    auto using traverseDirectory_done, processFile_done;
    apply logSkippedFile_trace.
Qed.

(** The trace of the walk of a directory contains the trace of the loop
    body of each of its entries. *)
Lemma listed_entry_contains (entries : list (string * node)) (dirPath : path)
    (name : string) (file : node) :
  In (name, file) entries ->
  forall s, exists sx, forall e,
    In e (traverseEntry cfg w dirPath out name file
            (traverseDirectory cfg w file (dirPath ++ [name]) out) sx).2 ->
    In e (traverseDirectory cfg w (Dir true entries) dirPath out s).2.
Proof.
  intros Hin s.
  destruct (forEach_reaches
              (fun '(name, file) =>
                 traverseEntry cfg w dirPath out name file
                   (traverseDirectory cfg w file (Path.join_entry dirPath name) out))
              entries) with (x := (name, file)) (s := s) as [sx Hsx]; auto.
  { intros [n f] s0 _. apply traverseEntry_done. }
  exists sx. intros e He.
  rewrite (traverseDirectory_unfold cfg w out (Dir true entries) dirPath).
  apply try_catch_contains. simpl. unfold bind at 1. simpl.
  specialize (Hsx e He).
  destruct (forEach _ entries s) as [[r2 s2] t2]. simpl in *. now right.
Qed.

(** The trace of the walk contains the trace of the loop body of every
    entry it reaches. *)
Lemma reaches_contains (dir : node) (dirPath parent : path) (name : string) (file : node) :
  reaches cfg w dir dirPath parent name file ->
  forall s, exists sx, forall e,
    In e (traverseEntry cfg w parent out name file
            (traverseDirectory cfg w file (parent ++ [name]) out) sx).2 ->
    In e (traverseDirectory cfg w dir dirPath out s).2.
Proof.
  induction 1 as [entries dirPath name file Hin
                 | entries dirPath sub subdir parent name file Hin Hex Hinc Hsub IH];
    intros s.
  - now apply listed_entry_contains.
  - destruct (listed_entry_contains entries dirPath sub subdir Hin s) as [sx Hsx].
    destruct (IH sx) as [sy Hsy].
    exists sy. intros e He. apply Hsx.
    unfold traverseEntry, Path.join_entry. rewrite Hex, Hinc.
    assert (isDirectory subdir = true) as -> by (inversion Hsub; reflexivity).
    now apply Hsy.
Qed.

End Liveness.

(** ** The claims about single entries *)

Section EntryTheorems.

Variable cfg : config.
Variable w : world.
Variable out : path.

Lemma prefix_snoc_cases (sp l : path) (x : string) :
  sp `prefix_of` l ++ [x] -> sp `prefix_of` l \/ sp = l ++ [x].
Proof.
  intros [k Hk]. destruct k as [|y k _] using rev_ind.
  - right. now rewrite app_nil_r in Hk.
  - left. rewrite app_assoc in Hk. apply app_inj_tail in Hk as [-> _].
    now exists k.
Qed.

Lemma walked_clear (dirPath q : path) :
  walked cfg w dirPath q -> clear_of_exclusion cfg w dirPath q.
Proof.
  intros (suffix & -> & Hall) p (sp & Hne & ->) Hpre.
  apply prefix_app_inv in Hpre. now apply Hall.
Qed.

Lemma walked_entry_clear (dirPath parent : path) (name : string) :
  walked cfg w dirPath parent ->
  isExcluded cfg (cwd w) (parent ++ [name]) = false ->
  clear_of_exclusion cfg w dirPath (parent ++ [name]).
Proof.
  intros (suffix & -> & Hall) Hex p (sp & Hne & ->) Hpre.
  rewrite <- app_assoc in Hpre. apply prefix_app_inv in Hpre.
  apply prefix_snoc_cases in Hpre as [Hpre | ->].
  - now apply Hall.
  - now rewrite app_assoc.
Qed.

(** C1, amended.  In the walk of a directory, whatever is listed or read
    has no excluded directory above it and is not excluded itself.  Every
    record is appended for an entry the walk reaches, an entry of a
    directory all of whose ancestors down from the start are listable, not
    excluded and accepted by the test on [includeDirs]: an Excluded
    placeholder only for an excluded entry, and only when [showExcluded]
    is set; a Processed or SkippedExtension record only for an entry that
    is not excluded and has no excluded directory above it.  When
    [showExcluded] is set and no append fails, the placeholder is appended
    for every excluded entry the walk reaches.  Read by their text: in a
    tree of tidy names a record whose header names a path was appended for
    that path, which the walk reaches, and it is the Excluded placeholder
    exactly when the path is excluded.  All of this holds for every
    [includeDirs]. *)
Theorem excluded_entries (dir : node) (dirPath : path) (s : fstate) :
  let t := (traverseDirectory cfg w dir dirPath out s).2 in
  (forall q, (exists ok, In (EvReaddir q ok) t) \/ (exists r, In (EvReadFile q r) t) ->
             clear_of_exclusion cfg w dirPath q)
  /\ (forall o data ok, In (EvAppendFile o data ok) t ->
        exists parent name file,
          reaches cfg w dir dirPath parent name file
          /\ clear_of_exclusion cfg w dirPath parent
          /\ ((isExcluded cfg (cwd w) (parent ++ [name]) = true
               /\ showExcluded cfg = true
               /\ data = placeholderRecord (Path.relative (cwd w) (parent ++ [name]))
                           reasonExcluded)
              \/ (clear_of_exclusion cfg w dirPath (parent ++ [name])
                  /\ ((exists c,
                         data = processedRecord (Path.relative (cwd w) (parent ++ [name])) c)
                      \/ data = placeholderRecord (Path.relative (cwd w) (parent ++ [name]))
                                  reasonSkipped))))
  /\ (forall parent name file,
        (forall k, append_ok w k = true) ->
        reaches cfg w dir dirPath parent name file ->
        isExcluded cfg (cwd w) (parent ++ [name]) = true ->
        showExcluded cfg = true ->
        In (EvAppendFile out
              (placeholderRecord (Path.relative (cwd w) (parent ++ [name])) reasonExcluded)
              true) t)
  /\ (tidy_tree dir = true ->
      Forall (fun n => tidy n = true) dirPath ->
      forall p o data ok,
        Forall (fun n => tidy n = true) p ->
        In (EvAppendFile o data ok) t ->
        names w p data ->
        (exists parent name file,
            p = parent ++ [name]
            /\ reaches cfg w dir dirPath parent name file
            /\ clear_of_exclusion cfg w dirPath parent)
        /\ (isExcluded cfg (cwd w) p = true <->
            data = placeholderRecord (Path.relative (cwd w) p) reasonExcluded)
        /\ (isExcluded cfg (cwd w) p = true -> showExcluded cfg = true)).
Proof.
  intros t.
  destruct (sound_traverseDirectory cfg w out dir dirPath s) as (_ & _ & Hinv).
  pose proof (traverseDirectory_caused cfg w out dir dirPath s) as Hcaused.
  fold t in Hinv, Hcaused. split; [|split; [|split]].
  - intros q [[ok Hin] | [r Hin]]; specialize (Hinv _ Hin); inversion Hinv; subst.
    + now apply walked_clear.
    + now apply walked_entry_clear.
  - intros o data ok Hin. specialize (Hcaused _ Hin).
    inversion Hcaused as [| | |parent name file c ok' Hr Hex Hdir Hq Hread
                         |parent name file ok' Hr Hex Hdir Hq Hshow
                         |parent name file ok' Hr Hex Hshow | |]; subst;
      exists parent, name, file;
      pose proof (reaches_walked cfg w _ _ _ _ _ Hr) as Hwalked;
      (split; [exact Hr|]); (split; [now apply walked_clear|]).
    + right. split; [now apply walked_entry_clear|]. left. now exists c.
    + right. split; [now apply walked_entry_clear|]. now right.
    + left. now repeat split.
  - intros parent name file Hok Hreach Hex Hshow.
    destruct (reaches_contains cfg w out Hok _ _ _ _ _ Hreach s) as [sx Hsx].
    apply Hsx. unfold traverseEntry, Path.join_entry. rewrite Hex, Hshow.
    destruct (logSkippedFile_trace w out Hok (parent ++ [name]) reasonExcluded sx)
      as [_ ->].
    now left.
  - intros Htree Hpath p o data ok Hp Hin Hnames.
    destruct (record_of_reached_entry cfg w out dir dirPath t p o data ok Htree Hpath Hp
                (Hcaused _ Hin) Hnames)
      as (parent & name & file & -> & Hr & Hkind).
    split.
    { exists parent, name, file. split; [reflexivity|]. split; [exact Hr|].
      apply walked_clear. eapply reaches_walked; eauto. }
    destruct Hkind as [(Hex & Hshow & ->)
                      | [(Hex & _ & _ & _ & ->) | (Hex & _ & _ & c & ->)]].
    + now repeat split.
    + split; [split; [congruence|] | congruence].
      intros H. now apply Naming.reasons_differ in H.
    + split; [split; [congruence|] | congruence].
      intros H. symmetry in H. now apply Naming.placeholder_not_processed in H.
Qed.

(** The test of line 103 as the code has it.  For a directory entry that
    is not excluded, the loop body is the recursive call when [includeDirs]
    is empty or one of its members occurs in the full path of the entry,
    the scan root joined with the names down to it; otherwise the body
    does nothing at all.  Hence every directory the walk lists below its
    root passes that test, and, when no append fails, every reached
    directory that passes it is listed. *)
Lemma include_gate_on_full_path :
  (forall dirPath name file recurse s,
      isExcluded cfg (cwd w) (dirPath ++ [name]) = false ->
      isDirectory file = true ->
      ((includeDirs cfg = [] \/
        exists d, In d (includeDirs cfg)
                  /\ Str.substring_of d (Path.to_string (dirPath ++ [name]))) ->
       traverseEntry cfg w dirPath out name file recurse s = recurse s)
      /\ (~ (includeDirs cfg = [] \/
             exists d, In d (includeDirs cfg)
                       /\ Str.substring_of d (Path.to_string (dirPath ++ [name]))) ->
          traverseEntry cfg w dirPath out name file recurse s = (Done tt, s, [])))
  /\ (forall dir dirPath s q ok,
        In (EvReaddir q ok) (traverseDirectory cfg w dir dirPath out s).2 ->
        q = dirPath \/ includeDirs cfg = [] \/
        exists d, In d (includeDirs cfg) /\ Str.substring_of d (Path.to_string q))
  /\ (forall dir dirPath s parent name file,
        (forall k, append_ok w k = true) ->
        reaches cfg w dir dirPath parent name file ->
        isExcluded cfg (cwd w) (parent ++ [name]) = false ->
        isDirectory file = true ->
        (includeDirs cfg = [] \/
         exists d, In d (includeDirs cfg)
                   /\ Str.substring_of d (Path.to_string (parent ++ [name]))) ->
        exists ok, In (EvReaddir (parent ++ [name]) ok)
                      (traverseDirectory cfg w dir dirPath out s).2).
Proof.
  split; [|split].
  - intros dirPath name file recurse s Hex Hdir.
    unfold traverseEntry, Path.join_entry. rewrite Hex, Hdir.
    rewrite <- shouldRecurse_iff.
    destruct (shouldRecurse cfg (dirPath ++ [name])); split; intros H;
      try reflexivity; try discriminate. now destruct H.
  - intros dir dirPath s q ok Hin.
    destruct (sound_traverseDirectory cfg w out dir dirPath s) as (_ & _ & Hinv).
    specialize (Hinv _ Hin). inversion Hinv as [q' ok' (suffix & -> & Hall)| | | | | |].
    destruct suffix as [|x suffix]; [left; now rewrite app_nil_r | right].
    apply shouldRecurse_iff. now apply Hall.
  - intros dir dirPath s parent name file Hok Hreach Hex Hdir Hinc.
    destruct (reaches_contains cfg w out Hok _ _ _ _ _ Hreach s) as [sx Hsx].
    apply shouldRecurse_iff in Hinc.
    assert (exists ok, In (EvReaddir (parent ++ [name]) ok)
              (traverseDirectory cfg w file (parent ++ [name]) out sx).2) as [ok Hok'].
    { rewrite traverseDirectory_unfold.
      destruct file as [|[|] entries]; [discriminate | |].
      - exists true. apply try_catch_contains. apply bind_emit_head.
      - exists false. apply try_catch_contains. now left. }
    exists ok. apply Hsx. unfold traverseEntry, Path.join_entry.
    now rewrite Hex, Hdir, Hinc.
Qed.

(** C6, amended.  In the walk of a directory a file is read only when its
    extension is listed.  Every record is appended for an entry the walk
    reaches: the Processed record of a file that is not excluded and whose
    extension is listed, the SkippedExtension placeholder of a file that is
    not excluded and whose extension is not listed, with [showSkipped]
    set, or the placeholder of an excluded entry.  For a file the walk
    reaches that is not excluded and whose extension is not listed: with
    [showSkipped] set and no append failing, its placeholder is appended
    and ends up in the output file; with [showSkipped] unset the loop body
    does nothing at all.  Read by their text: in a tree of tidy names a
    record whose header names a path was appended for that path, which the
    walk reaches, and it is the SkippedExtension placeholder exactly when
    the path is not excluded and its extension is not listed. *)
Theorem skipped_extension_entries (dir : node) (dirPath : path) (s : fstate) :
  let t := (traverseDirectory cfg w dir dirPath out s).2 in
  (forall parent name r,
      In (EvReadFile (parent ++ [name]) r) t ->
      In (Path.extname name) (includeExtensions cfg))
  /\ (forall o data ok, In (EvAppendFile o data ok) t ->
        exists parent name file,
          reaches cfg w dir dirPath parent name file
          /\ ((In (Path.extname name) (includeExtensions cfg)
               /\ isDirectory file = false
               /\ isExcluded cfg (cwd w) (parent ++ [name]) = false
               /\ exists c,
                    data = processedRecord (Path.relative (cwd w) (parent ++ [name])) c)
              \/ (~ In (Path.extname name) (includeExtensions cfg)
                  /\ isDirectory file = false
                  /\ isExcluded cfg (cwd w) (parent ++ [name]) = false
                  /\ showSkipped cfg = true
                  /\ data = placeholderRecord (Path.relative (cwd w) (parent ++ [name]))
                              reasonSkipped)
              \/ (isExcluded cfg (cwd w) (parent ++ [name]) = true
                  /\ data = placeholderRecord (Path.relative (cwd w) (parent ++ [name]))
                              reasonExcluded)))
  /\ (forall parent name file,
        (forall k, append_ok w k = true) ->
        reaches cfg w dir dirPath parent name file ->
        isDirectory file = false ->
        isExcluded cfg (cwd w) (parent ++ [name]) = false ->
        ~ In (Path.extname name) (includeExtensions cfg) ->
        showSkipped cfg = true ->
        let record :=
          placeholderRecord (Path.relative (cwd w) (parent ++ [name])) reasonSkipped in
        In (EvAppendFile out record true) t
        /\ forall before, contents s !! out = Some before ->
             exists after,
               contents (traverseDirectory cfg w dir dirPath out s).1.2 !! out = Some after
               /\ Str.substring_of record after)
  /\ (forall parent name file recurse s',
        isDirectory file = false ->
        isExcluded cfg (cwd w) (parent ++ [name]) = false ->
        ~ In (Path.extname name) (includeExtensions cfg) ->
        showSkipped cfg = false ->
        traverseEntry cfg w parent out name file recurse s' = (Done tt, s', []))
  /\ (tidy_tree dir = true ->
      Forall (fun n => tidy n = true) dirPath ->
      forall p o data ok,
        Forall (fun n => tidy n = true) p ->
        In (EvAppendFile o data ok) t ->
        names w p data ->
        exists parent name file,
          p = parent ++ [name]
          /\ reaches cfg w dir dirPath parent name file
          /\ (data = placeholderRecord (Path.relative (cwd w) p) reasonSkipped <->
              isExcluded cfg (cwd w) p = false
              /\ ~ In (Path.extname name) (includeExtensions cfg))
          /\ (data = placeholderRecord (Path.relative (cwd w) p) reasonSkipped ->
              isDirectory file = false /\ showSkipped cfg = true)).
Proof.
  intros t.
  destruct (sound_traverseDirectory cfg w out dir dirPath s) as (_ & Hst & Hinv).
  pose proof (traverseDirectory_caused cfg w out dir dirPath s) as Hcaused.
  fold t in Hinv, Hst, Hcaused. split; [|split; [|split; [|split]]].
  - intros parent name r Hin. specialize (Hinv _ Hin).
    inversion Hinv as [|parent' name' r' _ _ Hq Heq| | | | |].
    apply app_inj_tail in Heq as [_ ->]. now apply qualifiesByExtension_iff.
  - intros o data ok Hin. specialize (Hcaused _ Hin).
    inversion Hcaused as [| | |parent name file c ok' Hr Hex Hdir Hq Hread
                         |parent name file ok' Hr Hex Hdir Hq Hshow
                         |parent name file ok' Hr Hex Hshow | |]; subst;
      exists parent, name, file; (split; [exact Hr|]).
    + left. split; [now apply qualifiesByExtension_iff|]. repeat split; auto.
      now exists c.
    + right. left. split; [rewrite <- qualifiesByExtension_iff; congruence|].
      now repeat split.
    + right. right. now split.
  - intros parent name file Hok Hreach Hdir Hex Hext Hshow record.
    assert (In (EvAppendFile out record true) t) as Hin.
    { destruct (reaches_contains cfg w out Hok _ _ _ _ _ Hreach s) as [sx Hsx].
      apply Hsx. unfold traverseEntry, Path.join_entry.
      rewrite Hex, Hdir, Hshow.
      rewrite <- qualifiesByExtension_iff in Hext.
      apply not_true_is_false in Hext. rewrite Hext. simpl.
      destruct (logSkippedFile_trace w out Hok (parent ++ [name]) reasonSkipped sx)
        as [_ ->].
      now left. }
    split; [exact Hin|].
    intros before Hbefore. exists (before +:+ appended t). split.
    + rewrite Hst. apply Inv_writes_only in Hinv as [Hwr Htr].
      now apply Replay.output.
    + destruct (Replay.appended_contains t out record Hin) as (l & r & ->).
      exists (before +:+ l), r. now rewrite Replay.string_app_assoc.
  - intros parent name file recurse s' Hdir Hex Hext Hshow.
    unfold traverseEntry, Path.join_entry. rewrite Hex, Hdir, Hshow.
    rewrite <- qualifiesByExtension_iff in Hext.
    apply not_true_is_false in Hext. now rewrite Hext.
  - intros Htree Hpath p o data ok Hp Hin Hnames.
    destruct (record_of_reached_entry cfg w out dir dirPath t p o data ok Htree Hpath Hp
                (Hcaused _ Hin) Hnames)
      as (parent & name & file & -> & Hr & Hkind).
    exists parent, name, file. split; [reflexivity|]. split; [exact Hr|].
    destruct Hkind as [(Hex & Hshow & ->)
                      | [(Hex & Hdir & Hq & Hshow & ->) | (Hex & Hdir & Hq & c & ->)]].
    + split; [split|].
      * intros H. symmetry in H. now apply Naming.reasons_differ in H.
      * intros [H _]. congruence.
      * intros H. symmetry in H. now apply Naming.reasons_differ in H.
    + split; [split|]; auto.
      intros _. split; [exact Hex|]. rewrite <- qualifiesByExtension_iff. congruence.
    + split; [split|].
      * intros H. symmetry in H. now apply Naming.placeholder_not_processed in H.
      * intros [_ H]. rewrite <- qualifiesByExtension_iff in H. congruence.
      * intros H. symmetry in H. now apply Naming.placeholder_not_processed in H.
Qed.

End EntryTheorems.

(** ** Concrete runs *)

(** Picks the member of a computed list a goal [In x l] asks for. *)
Ltac pick_member := vm_compute; repeat first [left; reflexivity | right].

(** Refutes the membership of a record in a computed trace. *)
Ltac no_member H :=
  vm_compute in H; repeat (destruct H as [H | H]; [discriminate H|]); exact H.

(** The two formats, byte for byte. *)
Example processedRecord_bytes :
  processedRecord "src/a.js" "x" = "

--- File: src/a.js ---

x
".
Proof. reflexivity. Qed.

Example placeholderRecord_bytes :
  placeholderRecord "node_modules" reasonExcluded = "

--- File: node_modules ---
(Excluded)
"
  /\ placeholderRecord "README.md" reasonSkipped = "

--- File: README.md ---
(Skipped (non-matching extension))
".
Proof. split; reflexivity. Qed.

(** C1, as stated, fails: with [includeDirs = ["src"]] the directory [lib]
    is not entered, so [lib/package.json], which matches an exclude pattern,
    gets no Excluded placeholder although [showExcluded] is set. *)
Lemma excluded_entry_without_placeholder :
  isExcluded Sample.gated (cwd Sample.working) ["proj"; "lib"; "package.json"] = true
  /\ showExcluded Sample.gated = true
  /\ lookup_node (fsroot Sample.working) ["proj"; "lib"; "package.json"] = Some (File true)
  /\ (forall o ok,
        ~ In (EvAppendFile o
                (placeholderRecord
                   (Path.relative (cwd Sample.working) ["proj"; "lib"; "package.json"])
                   reasonExcluded) ok)
             (run Sample.gated Sample.working Sample.files).2)
  /\ exists output,
       (run Sample.gated Sample.working Sample.files).1.2 !! ["proj"; "output.sick"]
         = Some output
       /\ ~ Str.substring_of
              (placeholderRecord
                 (Path.relative (cwd Sample.working) ["proj"; "lib"; "package.json"])
                 reasonExcluded) output.
Proof.
  split; [reflexivity|]. split; [reflexivity|]. split; [reflexivity|]. split.
  - intros o ok H. no_member H.
  - eexists. split; [vm_compute; reflexivity|].
    rewrite <- StrFacts.includes_spec. vm_compute. discriminate.
Qed.

(** C3 at its failing input: [includeDirs] is [src], and the project
    holds a directory [lib] and nothing named [src].  Run in
    [/srv/src-tools], the walk enters [lib] and processes [lib/y.js]:
    line 103 finds [src] in the full path [/srv/src-tools/lib], while the
    relative path of the directory, [lib], contains no member of
    [includeDirs].  The same project under [/srv/tools] is walked as the
    claim says: [lib] is passed over, without a record. *)
Theorem included_by_full_path_only :
  (run Sample.only_src Sample.src_tools Sample.src_tools_files).2 =
    [EvAccess ["srv"; "src-tools"] true;
     EvWriteFile ["srv"; "src-tools"; "output.sick"] "" true;
     EvLog "Traversing directory: /srv/src-tools";
     EvReaddir ["srv"; "src-tools"] true;
     EvReaddir ["srv"; "src-tools"; "lib"] true;
     EvReadFile ["srv"; "src-tools"; "lib"; "y.js"] (Some "y");
     EvAppendFile ["srv"; "src-tools"; "output.sick"] (processedRecord "lib/y.js" "y") true;
     EvLog "Processed file: lib/y.js";
     EvAppendFile ["srv"; "src-tools"; "output.sick"]
       (placeholderRecord "output.sick" reasonSkipped) true;
     EvLog "Skipped file: output.sick (Skipped (non-matching extension))";
     EvLog "Done. All file contents written to: /srv/src-tools/output.sick"]
  /\ isExcluded Sample.only_src (cwd Sample.src_tools) ["srv"; "src-tools"; "lib"] = false
  /\ Path.relative (cwd Sample.src_tools) ["srv"; "src-tools"; "lib"] = "lib"
  /\ ~ (includeDirs Sample.only_src = [] \/
        exists d, In d (includeDirs Sample.only_src)
                  /\ Str.substring_of d
                       (Path.relative (cwd Sample.src_tools) ["srv"; "src-tools"; "lib"]))
  /\ shouldRecurse Sample.only_src ["srv"; "src-tools"; "lib"] = true
  /\ (run Sample.only_src Sample.other_tools Sample.other_tools_files).2 =
       [EvAccess ["srv"; "tools"] true;
        EvWriteFile ["srv"; "tools"; "output.sick"] "" true;
        EvLog "Traversing directory: /srv/tools";
        EvReaddir ["srv"; "tools"] true;
        EvAppendFile ["srv"; "tools"; "output.sick"]
          (placeholderRecord "output.sick" reasonSkipped) true;
        EvLog "Skipped file: output.sick (Skipped (non-matching extension))";
        EvLog "Done. All file contents written to: /srv/tools/output.sick"].
Proof.
  split; [vm_compute; reflexivity|]. split; [reflexivity|]. split; [reflexivity|].
  split; [|split; [reflexivity | vm_compute; reflexivity]].
  intros [H | (d & [<- | []] & H)]; [discriminate|].
  apply StrFacts.includes_spec in H. vm_compute in H. discriminate.
Qed.

(** C6, as stated, fails: with [includeDirs = ["src"]] the file
    [lib/notes.md], not excluded and with an extension that is not listed,
    gets no SkippedExtension placeholder although [showSkipped] is set. *)
Lemma unlisted_extension_without_placeholder :
  isExcluded Sample.gated (cwd Sample.working) ["proj"; "lib"; "notes.md"] = false
  /\ ~ In (Path.extname "notes.md") (includeExtensions Sample.gated)
  /\ showSkipped Sample.gated = true
  /\ lookup_node (fsroot Sample.working) ["proj"; "lib"; "notes.md"] = Some (File true)
  /\ (forall o ok,
        ~ In (EvAppendFile o
                (placeholderRecord
                   (Path.relative (cwd Sample.working) ["proj"; "lib"; "notes.md"])
                   reasonSkipped) ok)
             (run Sample.gated Sample.working Sample.files).2)
  /\ exists output,
       (run Sample.gated Sample.working Sample.files).1.2 !! ["proj"; "output.sick"]
         = Some output
       /\ ~ Str.substring_of
              (placeholderRecord
                 (Path.relative (cwd Sample.working) ["proj"; "lib"; "notes.md"])
                 reasonSkipped) output.
Proof.
  split; [reflexivity|]. split.
  { intros [H | []]. discriminate H. }
  split; [reflexivity|]. split; [reflexivity|]. split.
  - intros o ok H. no_member H.
  - eexists. split; [vm_compute; reflexivity|].
    rewrite <- StrFacts.includes_spec. vm_compute. discriminate.
Qed.

(** C4 at its failing input: the append of the placeholder for [README.md]
    fails inside [logSkippedFile], which has no [try/catch]; the rejection
    ends the loop of [traverseDirectory], and the sibling [a.js], not
    excluded and with a listed extension, is never read.  When the failing
    append is the one of [processFile], the sibling is processed. *)
Theorem logSkippedFile_failure_ends_listing :
  (run defaultConfig Sample.first_append_fails Sample.scripts).2 =
    [EvAccess ["proj"] true;
     EvWriteFile ["proj"; "output.sick"] "" true;
     EvLog "Traversing directory: /proj";
     EvReaddir ["proj"] true;
     EvAppendFile ["proj"; "output.sick"] (placeholderRecord "README.md" reasonSkipped) false;
     EvError "Error traversing directory /proj:";
     EvLog "Done. All file contents written to: /proj/output.sick"]
  /\ isExcluded defaultConfig ["proj"] ["proj"; "a.js"] = false
  /\ qualifiesByExtension defaultConfig "a.js" = true
  /\ (forall r, ~ In (EvReadFile ["proj"; "a.js"] r)
                    (run defaultConfig Sample.first_append_fails Sample.scripts).2)
  /\ In (EvReadFile ["proj"; "a.js"] (Some "x"))
        (run defaultConfig Sample.first_append_fails_scripts Sample.scripts).2
  /\ In (EvAppendFile ["proj"; "output.sick"] (processedRecord "a.js" "x") true)
        (run defaultConfig Sample.first_append_fails_scripts Sample.scripts).2.
Proof.
  split; [vm_compute; reflexivity|]. split; [reflexivity|]. split; [reflexivity|].
  split; [|split; pick_member].
  intros r H. no_member H.
Qed.

(** ** The theorems at concrete inputs *)

Lemma isExcluded_iff_witness :
  isExcluded defaultConfig ["proj"] ["proj"; "src"; "package.json"] = true
  /\ exists pattern, In pattern (excludePatterns defaultConfig) /\
       (Str.substring_of pattern (Path.relative ["proj"] ["proj"; "src"; "package.json"])
        \/ Path.basename ["proj"; "src"; "package.json"] = pattern).
Proof.
  split; [reflexivity|].
  apply (proj1 (isExcluded_iff defaultConfig ["proj"] ["proj"; "src"; "package.json"])).
  reflexivity.
Defined.

Lemma excluded_entries_witness :
  (forall k, append_ok Sample.working k = true)
  /\ reaches defaultConfig Sample.working Sample.checkout ["proj"] ["proj"]
       "node_modules" (Dir true [("lib.js", File true)])
  /\ isExcluded defaultConfig (cwd Sample.working) (["proj"] ++ ["node_modules"]) = true
  /\ showExcluded defaultConfig = true
  /\ tidy_tree Sample.checkout = true
  /\ Forall (fun n => tidy n = true) ["proj"]
  /\ Forall (fun n => tidy n = true) ["proj"; "node_modules"]
  /\ names Sample.working ["proj"; "node_modules"]
       (placeholderRecord "node_modules" reasonExcluded)
  /\ In (EvAppendFile ["proj"; "output.sick"]
           (placeholderRecord "node_modules" reasonExcluded) true)
        (traverseDirectory defaultConfig Sample.working Sample.checkout ["proj"]
           ["proj"; "output.sick"] Sample.start).2
  /\ (exists parent name file,
         reaches defaultConfig Sample.working Sample.checkout ["proj"] parent name file
         /\ clear_of_exclusion defaultConfig Sample.working ["proj"] parent
         /\ ((isExcluded defaultConfig (cwd Sample.working) (parent ++ [name]) = true
              /\ showExcluded defaultConfig = true
              /\ placeholderRecord "node_modules" reasonExcluded
                 = placeholderRecord
                     (Path.relative (cwd Sample.working) (parent ++ [name])) reasonExcluded)
             \/ (clear_of_exclusion defaultConfig Sample.working ["proj"] (parent ++ [name])
                 /\ ((exists c,
                        placeholderRecord "node_modules" reasonExcluded
                        = processedRecord
                            (Path.relative (cwd Sample.working) (parent ++ [name])) c)
                     \/ placeholderRecord "node_modules" reasonExcluded
                        = placeholderRecord
                            (Path.relative (cwd Sample.working) (parent ++ [name]))
                            reasonSkipped))))
  /\ (exists parent name file,
         ["proj"; "node_modules"] = parent ++ [name]
         /\ reaches defaultConfig Sample.working Sample.checkout ["proj"] parent name file
         /\ clear_of_exclusion defaultConfig Sample.working ["proj"] parent).
Proof.
  assert (forall k, append_ok Sample.working k = true) as Hok by reflexivity.
  assert (reaches defaultConfig Sample.working Sample.checkout ["proj"] ["proj"]
            "node_modules" (Dir true [("lib.js", File true)])) as Hreach.
  { apply reach_entry. simpl. right. right. left. reflexivity. }
  assert (Forall (fun n => tidy n = true) ["proj"]) as Hpath
      by (repeat constructor).
  assert (Forall (fun n => tidy n = true) ["proj"; "node_modules"]) as Hp
      by (repeat constructor).
  assert (names Sample.working ["proj"; "node_modules"]
            (placeholderRecord "node_modules" reasonExcluded)) as Hnames
      by (eexists; reflexivity).
  pose proof (excluded_entries defaultConfig Sample.working ["proj"; "output.sick"]
                Sample.checkout ["proj"] Sample.start) as (_ & Honly & Hthere & Hnamed).
  pose proof (Hthere ["proj"] "node_modules" (Dir true [("lib.js", File true)])
                Hok Hreach eq_refl eq_refl) as Hin.
  split; [exact Hok|]. split; [exact Hreach|].
  split; [reflexivity|]. split; [reflexivity|]. split; [reflexivity|].
  split; [exact Hpath|]. split; [exact Hp|]. split; [exact Hnames|].
  split; [exact Hin|]. split; [exact (Honly _ _ _ Hin)|].
  exact (proj1 (Hnamed eq_refl Hpath _ _ _ _ Hp Hin Hnames)).
Defined.

Lemma records_have_two_formats_witness :
  In (EvAppendFile ["proj"; "output.sick"] (placeholderRecord "output.sick" reasonSkipped) true)
     (run Sample.gated Sample.working Sample.files).2
  /\ is_Some (lookup_node (fsroot Sample.working) (targetDir Sample.gated Sample.working))
  /\ write_ok Sample.working = true
  /\ (run Sample.gated Sample.working Sample.files).1.2
       !! outputFilePath Sample.gated Sample.working
     = Some (appended (run Sample.gated Sample.working Sample.files).2)
  /\ exists parent name file,
       reaches Sample.gated Sample.working
         (node_at Sample.working (targetDir Sample.gated Sample.working))
         (targetDir Sample.gated Sample.working) parent name file
       /\ ((exists c,
               placeholderRecord "output.sick" reasonSkipped
               = Str.nl +:+ Str.nl +:+ "--- File: "
                 +:+ Path.relative (cwd Sample.working) (parent ++ [name])
                 +:+ " ---" +:+ Str.nl +:+ Str.nl +:+ c +:+ Str.nl
               /\ In (EvReadFile (parent ++ [name]) (Some c))
                     (run Sample.gated Sample.working Sample.files).2)
           \/ (exists reasonText,
                  ((reasonText = "Excluded"
                    /\ isExcluded Sample.gated (cwd Sample.working) (parent ++ [name]) = true)
                   \/ (reasonText = "Skipped (non-matching extension)"
                       /\ isExcluded Sample.gated (cwd Sample.working) (parent ++ [name])
                          = false
                       /\ ~ In (Path.extname name) (includeExtensions Sample.gated)))
                  /\ placeholderRecord "output.sick" reasonSkipped
                     = Str.nl +:+ Str.nl +:+ "--- File: "
                       +:+ Path.relative (cwd Sample.working) (parent ++ [name])
                       +:+ " ---" +:+ Str.nl +:+ "(" +:+ reasonText +:+ ")" +:+ Str.nl)).
Proof.
  assert (In (EvAppendFile ["proj"; "output.sick"]
                (placeholderRecord "output.sick" reasonSkipped) true)
            (run Sample.gated Sample.working Sample.files).2) as Hin by pick_member.
  assert (is_Some (lookup_node (fsroot Sample.working)
                     (targetDir Sample.gated Sample.working))) as Hroot
      by (eexists; reflexivity).
  pose proof (records_have_two_formats Sample.gated Sample.working Sample.files)
    as (_ & _ & Hrecord & Houtput).
  split; [exact Hin|]. split; [exact Hroot|]. split; [reflexivity|].
  split; [exact (Houtput Hroot eq_refl)|].
  exact (Hrecord _ _ _ Hin).
Defined.

Lemma skipped_extension_entries_witness :
  (forall k, append_ok Sample.working k = true)
  /\ reaches defaultConfig Sample.working Sample.checkout ["proj"] ["proj"]
       "README.md" (File true)
  /\ isDirectory (File true) = false
  /\ isExcluded defaultConfig (cwd Sample.working) (["proj"] ++ ["README.md"]) = false
  /\ ~ In (Path.extname "README.md") (includeExtensions defaultConfig)
  /\ showSkipped defaultConfig = true
  /\ tidy_tree Sample.checkout = true
  /\ Forall (fun n => tidy n = true) ["proj"]
  /\ Forall (fun n => tidy n = true) ["proj"; "README.md"]
  /\ names Sample.working ["proj"; "README.md"] (placeholderRecord "README.md" reasonSkipped)
  /\ In (EvAppendFile ["proj"; "output.sick"]
           (placeholderRecord "README.md" reasonSkipped) true)
        (traverseDirectory defaultConfig Sample.working Sample.checkout ["proj"]
           ["proj"; "output.sick"] Sample.start).2
  /\ In (Path.extname "a.js") (includeExtensions defaultConfig)
  /\ (exists parent name file,
         ["proj"; "README.md"] = parent ++ [name]
         /\ reaches defaultConfig Sample.working Sample.checkout ["proj"] parent name file
         /\ (placeholderRecord "README.md" reasonSkipped
             = placeholderRecord (Path.relative (cwd Sample.working) ["proj"; "README.md"])
                 reasonSkipped
             <-> isExcluded defaultConfig (cwd Sample.working) ["proj"; "README.md"] = false
                 /\ ~ In (Path.extname name) (includeExtensions defaultConfig))
         /\ (placeholderRecord "README.md" reasonSkipped
             = placeholderRecord (Path.relative (cwd Sample.working) ["proj"; "README.md"])
                 reasonSkipped
             -> isDirectory file = false /\ showSkipped defaultConfig = true)).
Proof.
  assert (forall k, append_ok Sample.working k = true) as Hok by reflexivity.
  assert (reaches defaultConfig Sample.working Sample.checkout ["proj"] ["proj"]
            "README.md" (File true)) as Hreach.
  { apply reach_entry. simpl. left. reflexivity. }
  assert (~ In (Path.extname "README.md") (includeExtensions defaultConfig)) as Hext.
  { vm_compute. intros [H | [H | [H | []]]]; discriminate H. }
  assert (Forall (fun n => tidy n = true) ["proj"]) as Hpath
      by (repeat constructor).
  assert (Forall (fun n => tidy n = true) ["proj"; "README.md"]) as Hp
      by (repeat constructor).
  assert (names Sample.working ["proj"; "README.md"]
            (placeholderRecord "README.md" reasonSkipped)) as Hnames
      by (eexists; reflexivity).
  pose proof (skipped_extension_entries defaultConfig Sample.working
                ["proj"; "output.sick"] Sample.checkout ["proj"] Sample.start)
    as (Hread & _ & Hthere & _ & Hnamed).
  pose proof (proj1 (Hthere ["proj"] "README.md" (File true) Hok Hreach eq_refl eq_refl
                       Hext eq_refl)) as Hin.
  split; [exact Hok|]. split; [exact Hreach|].
  split; [reflexivity|]. split; [reflexivity|]. split; [exact Hext|].
  split; [reflexivity|]. split; [reflexivity|].
  split; [exact Hpath|]. split; [exact Hp|]. split; [exact Hnames|].
  split; [exact Hin|]. split.
  - apply (Hread ["proj"; "src"] "a.js" (Some "x")). pick_member.
  - exact (Hnamed eq_refl Hpath _ _ _ _ Hp Hin Hnames).
Defined.

Lemma missing_root_aborts_witness :
  lookup_node (fsroot Sample.healthy) (targetDir Sample.lost Sample.healthy) = None
  /\ run Sample.lost Sample.healthy Sample.files =
       (1, Sample.files,
        [EvAccess (targetDir Sample.lost Sample.healthy) false;
         EvError (rootMissing Sample.lost Sample.healthy); EvExit 1]).
Proof.
  split; [reflexivity|].
  apply (proj1 (missing_root_aborts Sample.lost Sample.healthy Sample.files)).
  reflexivity.
Defined.

Lemma entry_errors_exit_zero_witness :
  is_Some (lookup_node (fsroot Sample.faulty) (targetDir defaultConfig Sample.faulty))
  /\ In (EvReaddir ["proj"; "src"] false) (run defaultConfig Sample.faulty Sample.faulty_files).2
  /\ In (EvReadFile ["proj"; "lib"; "y.js"] None)
        (run defaultConfig Sample.faulty Sample.faulty_files).2
  /\ In (EvAppendFile ["proj"; "output.sick"] (processedRecord "lib/z.js" "z") false)
        (run defaultConfig Sample.faulty Sample.faulty_files).2
  /\ In (EvAppendFile ["proj"; "output.sick"]
           (placeholderRecord "README.md" reasonSkipped) false)
        (run defaultConfig Sample.faulty Sample.faulty_files).2
  /\ (run defaultConfig Sample.faulty Sample.faulty_files).1.1 = 0.
Proof.
  assert (is_Some (lookup_node (fsroot Sample.faulty)
                     (targetDir defaultConfig Sample.faulty))) as Hroot
      by (eexists; reflexivity).
  split; [exact Hroot|].
  split; [pick_member|]. split; [pick_member|]. split; [pick_member|].
  split; [pick_member|].
  exact (entry_errors_exit_zero defaultConfig Sample.faulty Sample.faulty_files Hroot).
Defined.

Lemma truncated_once_then_idempotent_witness :
  is_Some (lookup_node (fsroot Sample.healthy) (targetDir defaultConfig Sample.healthy))
  /\ write_ok Sample.healthy = true
  /\ length (List.filter is_truncation (run defaultConfig Sample.healthy Sample.files).2) = 1
  /\ run defaultConfig Sample.healthy (run defaultConfig Sample.healthy Sample.files).1.2
     = run defaultConfig Sample.healthy Sample.files
  /\ (run defaultConfig Sample.healthy
        (<[outputFilePath defaultConfig Sample.healthy := "left over"]> Sample.files)).1.2
     = (run defaultConfig Sample.healthy Sample.files).1.2.
Proof.
  assert (is_Some (lookup_node (fsroot Sample.healthy)
                     (targetDir defaultConfig Sample.healthy))) as Hroot
      by (eexists; reflexivity).
  pose proof (truncated_once_then_idempotent defaultConfig Sample.healthy Sample.files)
    as (_ & Hone & _ & Hsame & Hstale).
  split; [exact Hroot|]. split; [reflexivity|].
  split; [exact (Hone Hroot)|]. split; [exact Hsame|].
  exact (Hstale "left over" Hroot eq_refl).
Defined.

Lemma output_is_joined_on_cwd_witness :
  Path.resolve (cwd Sample.healthy) (scanDir Sample.remote) = ["elsewhere"]
  /\ is_Some (lookup_node (fsroot Sample.healthy) (targetDir Sample.remote Sample.healthy))
  /\ write_ok Sample.healthy = true
  /\ Str.includes (outputFile Sample.remote) "/" = false
  /\ outputFile Sample.remote <> ""
  /\ outputFile Sample.remote <> "."
  /\ outputFile Sample.remote <> ".."
  /\ Path.join (cwd Sample.healthy) (outputFile Sample.remote)
     = cwd Sample.healthy ++ [outputFile Sample.remote]
  /\ is_Some ((run Sample.remote Sample.healthy Sample.files).1.2
                !! Path.join (cwd Sample.healthy) (outputFile Sample.remote))
  /\ (run Sample.remote Sample.healthy Sample.files).1.2 !! ["elsewhere"; "output.sick"]
     = Sample.files !! ["elsewhere"; "output.sick"].
Proof.
  assert (is_Some (lookup_node (fsroot Sample.healthy)
                     (targetDir Sample.remote Sample.healthy))) as Hroot
      by (eexists; reflexivity).
  pose proof (output_is_joined_on_cwd Sample.remote Sample.healthy Sample.files)
    as (_ & Hframe & Hthere & Hplain).
  split; [reflexivity|]. split; [exact Hroot|]. split; [reflexivity|].
  split; [reflexivity|]. split; [discriminate|]. split; [discriminate|].
  split; [discriminate|].
  split; [apply Hplain; [reflexivity | discriminate..]|].
  split; [exact (Hthere Hroot eq_refl)|].
  apply Hframe. discriminate.
Defined.

(** ** The scenarios of the specification *)

Module Scenario.

(** One source file: one Processed record. *)
Example one_source_file :
  (run (Sample.plain [".js"] [] []) (Sample.in_proj [("src", Dir true [("a.js", File true)])])
     {[ ["proj"; "src"; "a.js"] := "x" ]}).1.2 !! ["proj"; "output.sick"]
  = Some (processedRecord "src/a.js" "x").
Proof. vm_compute. reflexivity. Qed.

(** An excluded directory: one Excluded record, nothing for what it holds. *)
Example excluded_directory :
  (run defaultConfig (Sample.in_proj [("node_modules", Dir true [("lib.js", File true)])])
     {[ ["proj"; "node_modules"; "lib.js"] := "lib" ]}).1.2 !! ["proj"; "output.sick"]
  = Some (placeholderRecord "node_modules" reasonExcluded).
Proof. vm_compute. reflexivity. Qed.

(** A file with another extension: one SkippedExtension record. *)
Example other_extension :
  (run (Sample.plain [".js"] [] []) (Sample.in_proj [("README.md", File true)])
     {[ ["proj"; "README.md"] := "read me" ]}).1.2 !! ["proj"; "output.sick"]
  = Some (placeholderRecord "README.md" reasonSkipped).
Proof. vm_compute. reflexivity. Qed.

(** Only [src] included: nothing of any kind for [lib/y.js]. *)
Example included_directory_only :
  (run (Sample.plain [".js"] [] ["src"])
     (Sample.in_proj [("src", Dir true [("x.js", File true)]); ("lib", Dir true [("y.js", File true)])])
     (<[ ["proj"; "src"; "x.js"] := "x" ]> {[ ["proj"; "lib"; "y.js"] := "y" ]})).1.2
    !! ["proj"; "output.sick"]
  = Some (processedRecord "src/x.js" "x").
Proof. vm_compute. reflexivity. Qed.

(** A scan root that is not there: status 1, no output file. *)
Example missing_scan_root :
  let result :=
    run {| scanDir := "gone"; includeDirs := []; excludePatterns := [];
           includeExtensions := [".js"]; showExcluded := true; showSkipped := true;
           outputFile := "output.sick" |}
        (Sample.in_proj []) ∅ in
  result.1.1 = 1 /\ result.1.2 !! ["proj"; "output.sick"] = None
  /\ In (EvError ("Error: Directory " +:+ Str.dquote +:+ "/proj/gone" +:+ Str.dquote
                  +:+ " does not exist or is inaccessible.")) result.2.
Proof. vm_compute. repeat split; auto. Qed.

End Scenario.

(** * Further properties of the code *)

(** ** Exclusion and the paths below *)

Module Heredity.

Lemma substring_of_app_l (pat a b : string) :
  Str.substring_of pat a -> Str.substring_of pat (a +:+ b).
Proof.
  intros (l & r & ->). exists l, (r +:+ b).
  now rewrite !Replay.string_app_assoc.
Qed.

Lemma substring_of_app_r (pat a b : string) :
  Str.substring_of pat b -> Str.substring_of pat (a +:+ b).
Proof.
  intros (l & r & ->). exists (a +:+ l), r.
  now rewrite !Replay.string_app_assoc.
Qed.

Lemma substring_of_refl (s : string) : Str.substring_of s s.
Proof. exists "", "". now rewrite Replay.string_app_nil_r. Qed.

Lemma concat_cons (sep x : string) (l : list string) :
  l <> [] -> String.concat sep (x :: l) = x +:+ sep +:+ String.concat sep l.
Proof. now destruct l. Qed.

Lemma concat_app (sep : string) (l1 l2 : list string) :
  l1 <> [] -> l2 <> [] ->
  String.concat sep (l1 ++ l2) = String.concat sep l1 +:+ sep +:+ String.concat sep l2.
Proof.
  intros H1 H2. induction l1 as [|x l1 IH]; [contradiction|].
  destruct l1 as [|y l1].
  - simpl app. now rewrite concat_cons.
  - change ((x :: y :: l1) ++ l2) with (x :: ((y :: l1) ++ l2)).
    rewrite concat_cons by discriminate.
    rewrite IH by discriminate.
    rewrite (concat_cons sep x (y :: l1)) by discriminate.
    now rewrite !Replay.string_app_assoc.
Qed.

(** The last component of a path ends its string. *)
Lemma last_in_concat (sep : string) (l : list string) :
  l <> [] -> Str.substring_of (List.last l "") (String.concat sep l).
Proof.
  induction l as [|x l IH]; [contradiction|]. intros _.
  destruct l as [|y l].
  - apply substring_of_refl.
  - rewrite concat_cons by discriminate.
    change (List.last (x :: y :: l) "") with (List.last (y :: l) "").
    apply substring_of_app_r, substring_of_app_r, IH. discriminate.
Qed.

Lemma strip_common_app (from to suffix up down : path) :
  Path.strip_common from to = (up, down) -> down <> [] ->
  Path.strip_common from (to ++ suffix) = (up, down ++ suffix).
Proof.
  revert to. induction from as [|f from IH]; intros to Hstrip Hdown.
  - destruct to; simpl in *; injection Hstrip as <- <-; reflexivity.
  - destruct to as [|t to]; simpl in *.
    + injection Hstrip as <- <-. contradiction.
    + destruct (String.eqb f t); [now apply IH|].
      injection Hstrip as <- <-. reflexivity.
Qed.

Lemma strip_common_split (from to up down : path) :
  Path.strip_common from to = (up, down) ->
  exists common, from = common ++ up /\ to = common ++ down.
Proof.
  revert to. induction from as [|f from IH]; intros to Hstrip.
  - destruct to; simpl in *; injection Hstrip as <- <-; now exists [].
  - destruct to as [|t to]; simpl in *.
    + injection Hstrip as <- <-. now exists [].
    + destruct (String.eqb_spec f t) as [-> | Hne].
      * destruct (IH _ Hstrip) as (common & -> & ->). now exists (t :: common).
      * injection Hstrip as <- <-. now exists [].
Qed.

(** What is left of a path that is neither the origin nor above it. *)
Lemma strip_common_down (from to up down : path) :
  Path.strip_common from to = (up, down) -> ~ to `prefix_of` from -> down <> [].
Proof.
  intros Hstrip Hnot ->.
  destruct (strip_common_split _ _ _ _ Hstrip) as (common & -> & ->).
  apply Hnot. rewrite app_nil_r. now exists up.
Qed.

Lemma relative_extends (cwd p suffix : path) :
  ~ p `prefix_of` cwd ->
  exists rest, Path.relative cwd (p ++ suffix) = Path.relative cwd p +:+ rest.
Proof.
  intros Hnot. unfold Path.relative.
  destruct (Path.strip_common cwd p) as [up down] eqn:Hstrip.
  pose proof (strip_common_down _ _ _ _ Hstrip Hnot) as Hdown.
  rewrite (strip_common_app _ _ suffix _ _ Hstrip Hdown).
  destruct suffix as [|x suffix].
  - exists "". now rewrite app_nil_r, Replay.string_app_nil_r.
  - rewrite app_assoc. rewrite concat_app; [eauto | | discriminate].
    intros Hnil. apply app_eq_nil in Hnil as [_ Hnil]. contradiction.
Qed.

Lemma basename_in_relative (cwd p : path) :
  ~ p `prefix_of` cwd ->
  Str.substring_of (Path.basename p) (Path.relative cwd p).
Proof.
  intros Hnot. unfold Path.relative, Path.basename.
  destruct (Path.strip_common cwd p) as [up down] eqn:Hstrip.
  pose proof (strip_common_down _ _ _ _ Hstrip Hnot) as Hdown.
  destruct (strip_common_split _ _ _ _ Hstrip) as (common & _ & ->).
  assert (List.last (common ++ down) "" = List.last (map (fun _ => "..") up ++ down) "")
    as ->.
  { destruct down as [|d down] using rev_ind; [contradiction|].
    now rewrite !app_assoc, !last_last. }
  apply last_in_concat.
  intros Hnil. apply app_eq_nil in Hnil as [_ Hnil]. contradiction.
Qed.

End Heredity.

(** X1. Exclusion is inherited: when a path that is neither the working
    directory nor above it is excluded, so is every path below it.  The
    walk loses nothing by not entering an excluded directory. *)
Theorem exclusion_inherited (cfg : config) (cwd p suffix : path) :
  ~ p `prefix_of` cwd ->
  isExcluded cfg cwd p = true ->
  isExcluded cfg cwd (p ++ suffix) = true.
Proof.
  intros Hnot Hex. unfold isExcluded in *.
  apply existsb_exists in Hex as (pattern & Hin & Htest).
  apply existsb_exists. exists pattern. split; [exact Hin|].
  assert (Str.substring_of pattern (Path.relative cwd p)) as Hsub.
  { destruct (Str.includes (Path.relative cwd p) pattern) eqn:H1.
    - now apply StrFacts.includes_spec.
    - destruct (String.eqb_spec (Path.basename p) pattern) as [<- | Hne];
        [|discriminate].
      now apply Heredity.basename_in_relative. }
  destruct (Heredity.relative_extends cwd p suffix Hnot) as [rest ->].
  apply (Heredity.substring_of_app_l _ _ rest) in Hsub.
  apply StrFacts.includes_spec in Hsub. now rewrite Hsub.
Qed.

(** The condition on the path is needed: the working directory can be
    excluded by its name while what it holds is not. *)
Example exclusion_not_inherited_from_cwd :
  isExcluded defaultConfig ["home"; "build"] ["home"; "build"] = true
  /\ isExcluded defaultConfig ["home"; "build"] (["home"; "build"] ++ ["a.js"]) = false.
Proof. split; reflexivity. Qed.

Lemma includes_empty (s : string) : Str.includes s "" = true.
Proof. apply StrFacts.includes_spec. now exists "", s. Qed.

(** X2. The empty pattern excludes everything: with it among the exclude
    patterns every path is excluded, and a walk lists its own directory,
    enters no other and reads no file. *)
Theorem empty_pattern_excludes_everything (cfg : config) (w : world)
    (dir : node) (dirPath out : path) (s : fstate) :
  In "" (excludePatterns cfg) ->
  (forall p, isExcluded cfg (cwd w) p = true)
  /\ (forall q r, ~ In (EvReadFile q r) (traverseDirectory cfg w dir dirPath out s).2)
  /\ (forall q ok, In (EvReaddir q ok) (traverseDirectory cfg w dir dirPath out s).2 ->
                   q = dirPath).
Proof.
  intros Hempty.
  assert (forall p, isExcluded cfg (cwd w) p = true) as Hall.
  { intros p. unfold isExcluded. apply existsb_exists. exists "".
    split; [exact Hempty|]. now rewrite includes_empty. }
  destruct (sound_traverseDirectory cfg w out dir dirPath s) as (_ & _ & Hinv).
  split; [exact Hall|]. split.
  - intros q r Hin. specialize (Hinv _ Hin).
    inversion Hinv as [|parent name r' _ Hex _ | | | | |]. congruence.
  - intros q ok Hin. specialize (Hinv _ Hin).
    inversion Hinv as [q' ok' (suffix & -> & Hclear)| | | | | |].
    destruct suffix as [|x suffix]; [now rewrite app_nil_r|].
    destruct (Hclear (x :: suffix)) as [Hex _]; [discriminate | reflexivity |].
    congruence.
Qed.

(** ** What a walk does to the files *)

Lemma replay_appends (t : list event) (s : fstate) :
  appends (replay t s) = appends s + count is_append t.
Proof.
  revert s. induction t as [|e t IH]; intros s; [unfold count; simpl; lia|].
  change (replay (e :: t) s) with (replay t (effect e s)). rewrite IH.
  unfold count.
  destruct e as [| p d [|] | | | q d [|] | | |]; simpl; try reflexivity; lia.
Qed.

(** X3. A walk only appends, whatever fails in it: every file but the
    output file is left as it was, what the output file held stays at its
    head, followed by the records appended with success, and each call of
    [appendFile], successful or not, is made on the output path. *)
Theorem walk_only_appends (cfg : config) (w : world)
    (dir : node) (dirPath out : path) (s : fstate) :
  let result := traverseDirectory cfg w dir dirPath out s in
  (forall p, p <> out -> contents result.1.2 !! p = contents s !! p)
  /\ (forall before, contents s !! out = Some before ->
        contents result.1.2 !! out = Some (before +:+ appended result.2))
  /\ (forall p data ok, In (EvAppendFile p data ok) result.2 -> p = out)
  /\ (forall p data ok, ~ In (EvWriteFile p data ok) result.2)
  /\ appends result.1.2 = appends s + count is_append result.2.
Proof.
  intros result.
  destruct (sound_traverseDirectory cfg w out dir dirPath s) as (_ & Hst & Hinv).
  fold result in Hst, Hinv.
  destruct (Inv_writes_only cfg w out dirPath _ Hinv) as [Hwr Htr].
  split; [|split; [|split; [|split]]].
  - intros p Hp. rewrite Hst. now apply (Replay.other out).
  - intros before Hbefore. rewrite Hst. now apply Replay.output.
  - intros p data ok Hin.
    now apply (justified_writes_only cfg w out dirPath _ _ (Hinv _ Hin)).
  - intros p data ok Hin.
    destruct (justified_writes_only cfg w out dirPath _ _ (Hinv _ Hin)) as [_ H].
    discriminate H.
  - rewrite Hst. apply replay_appends.
Qed.

(** ** What is reported *)

Lemma count_app (f : event -> bool) (t1 t2 : list event) :
  count f (t1 ++ t2) = count f t1 + count f t2.
Proof. unfold count. now rewrite List.filter_app, length_app. Qed.

Section Reported.

Lemma reported_ret {A} (a : A) : reported (ret a).
Proof. intros s. split; reflexivity. Qed.

Lemma reported_bind {A B} (m : M A) (f : A -> M B) :
  reported m -> (forall a, reported (f a)) -> reported (bind m f).
Proof.
  intros Hm Hf s. unfold bind. destruct (Hm s) as [Hlog Hfail].
  destruct (m s) as [[[a | | code] s1] t1]; simpl in *; [|now split..].
  destruct (Hf a s1) as [Hlog' Hfail'].
  destruct (f a s1) as [[r s2] t2]; simpl in *.
  rewrite !count_app. split; lia.
Qed.

(** A handler that logs the rejection it has caught settles it. *)
Lemma reported_try_catch {A} (m h : M A) :
  reported m ->
  (forall s, count is_log (h s).2 = count is_appended (h s).2
             /\ count is_failure (h s).2 + 1 = count is_error (h s).2 + pending (h s).1.1) ->
  reported (try_catch m h).
Proof.
  intros Hm Hh s. unfold try_catch. destruct (Hm s) as [Hlog Hfail].
  destruct (m s) as [[[a | | code] s1] t1]; simpl in *; [now split | | now split].
  destruct (Hh s1) as [Hlog' Hfail'].
  destruct (h s1) as [[r s2] t2]; simpl in *.
  rewrite !count_app. split; lia.
Qed.

Lemma console_error_settles (msg : string) (s : fstate) :
  count is_log (console_error msg s).2 = count is_appended (console_error msg s).2
  /\ count is_failure (console_error msg s).2 + 1
     = count is_error (console_error msg s).2 + pending (console_error msg s).1.1.
Proof. split; reflexivity. Qed.

Lemma reported_forEach {A} (body : A -> M unit) (l : list A) :
  (forall x, reported (body x)) -> reported (forEach body l).
Proof.
  intros Hbody. induction l as [|x rest IH]; simpl.
  - apply reported_ret.
  - apply reported_bind; [apply Hbody | intros _; exact IH].
Qed.

Variable cfg : config.
Variable w : world.
Variable out : path.

Lemma reported_logSkippedFile (filePath : path) (reason : string) :
  reported (logSkippedFile w filePath out reason).
Proof.
  intros s. unfold logSkippedFile, bind, fs_appendFile, console_log, emit.
  destruct (append_ok w (appends s)); split; reflexivity.
Qed.

Lemma reported_processFile (file : node) (filePath : path) :
  reported (processFile w file filePath out).
Proof.
  intros s.
  unfold processFile, try_catch, bind, fs_readFile, fs_appendFile, console_log,
    console_error, emit.
  destruct file as [[|]|]; try (split; reflexivity).
  destruct (contents s !! filePath); [|split; reflexivity].
  destruct (append_ok w (appends s)); split; reflexivity.
Qed.

Lemma reported_traverseEntry (dirPath : path) (name : string) (file : node)
    (recurse : M unit) :
  reported recurse -> reported (traverseEntry cfg w dirPath out name file recurse).
Proof.
  intros Hrec. unfold traverseEntry.
  repeat match goal with
         | |- context [if ?b then _ else _] => destruct b
         end;
    auto using reported_ret, reported_logSkippedFile, reported_processFile.
Qed.

Lemma reported_traverseDirectory (dir : node) :
  forall dirPath, reported (traverseDirectory cfg w dir dirPath out).
Proof.
  induction dir as [readable | listable entries IH] using node_tree_ind;
    intros dirPath; rewrite traverseDirectory_unfold;
    (apply reported_try_catch; [|apply console_error_settles]).
  - intros s. split; reflexivity.
  - destruct listable; simpl; [|intros s; split; reflexivity].
    apply reported_bind; [intros s; split; reflexivity|].
    intros _. induction IH as [|[name file] rest Hfile _ IHrest]; simpl.
    + apply reported_ret.
    + apply reported_bind; [|intros _; exact IHrest].
      apply reported_traverseEntry, Hfile.
Qed.

End Reported.

(** X4. Nothing fails in silence and nothing is written in silence: in
    every run the failed calls (the check, the truncation, a listing, a
    read, an append) are as many as the lines of [console.error], and the
    lines of [console.log] are as many as the records appended with
    success, plus the two lines around the walk when it takes place. *)
Theorem every_failure_and_record_reported (cfg : config) (w : world)
    (store : gmap (list string) string) :
  count is_failure (run cfg w store).2 = count is_error (run cfg w store).2
  /\ (is_Some (lookup_node (fsroot w) (targetDir cfg w)) -> write_ok w = true ->
      count is_log (run cfg w store).2 = count is_appended (run cfg w store).2 + 2)
  /\ (lookup_node (fsroot w) (targetDir cfg w) = None \/ write_ok w = false ->
      count is_log (run cfg w store).2 = 0
      /\ count is_appended (run cfg w store).2 = 0).
Proof.
  destruct (run_cases cfg w store) as [Hno | [n Hn] Hw | t [n Hn] Hw Ht _]; simpl.
  - split; [reflexivity|]. split; [intros [n Hn]; congruence | now split].
  - split; [reflexivity|]. split; [congruence | now split].
  - destruct (reported_traverseDirectory cfg w (outputFilePath cfg w)
                (node_at w (targetDir cfg w)) (targetDir cfg w) (truncated cfg w store))
      as [Hlog Hfail].
    rewrite Ht in Hlog, Hfail. simpl in Hlog, Hfail.
    change (EvAccess (targetDir cfg w) true
            :: EvWriteFile (outputFilePath cfg w) "" true
            :: EvLog (traversing cfg w) :: t ++ [EvLog (finished cfg w)])
      with ([EvAccess (targetDir cfg w) true;
             EvWriteFile (outputFilePath cfg w) "" true;
             EvLog (traversing cfg w)] ++ t ++ [EvLog (finished cfg w)]).
    rewrite !count_app. unfold count at 1 3 4 6 7 9 10 12. simpl.
    split; [lia|]. split; [intros _ _; lia|].
    intros [H | H]; congruence.
Qed.

(** ** What a read returns *)

Lemma reads_current_app (t1 t2 : list event) (s : fstate) :
  reads_current s (t1 ++ t2) <-> reads_current s t1 /\ reads_current (replay t1 s) t2.
Proof.
  revert s. induction t1 as [|e t1 IH]; intros s; simpl.
  - tauto.
  - change (replay (e :: t1) s) with (replay t1 (effect e s)). rewrite IH. tauto.
Qed.

(** The read at a given place of a trace saw the files as the calls before
    it left them. *)
Lemma reads_current_at (t1 t2 : list event) (q : path) (c : string) (s : fstate) :
  reads_current s (t1 ++ EvReadFile q (Some c) :: t2) ->
  contents (replay t1 s) !! q = Some c.
Proof. intros H. apply reads_current_app in H as [_ [H _]]. exact H. Qed.

Section Current.

Lemma current_ret {A} (a : A) : current (ret a).
Proof. intros s. now split. Qed.

Lemma current_bind {A B} (m : M A) (f : A -> M B) :
  current m -> (forall a, current (f a)) -> current (bind m f).
Proof.
  intros Hm Hf s. unfold bind. destruct (Hm s) as [Hst Hrd].
  destruct (m s) as [[[a | | code] s1] t1]; simpl in *; [|now split..].
  destruct (Hf a s1) as [Hst' Hrd'].
  destruct (f a s1) as [[r s2] t2]; simpl in *. subst s1.
  split; [now rewrite replay_app | now apply reads_current_app].
Qed.

Lemma current_try_catch {A} (m h : M A) :
  current m -> current h -> current (try_catch m h).
Proof.
  intros Hm Hh s. unfold try_catch. destruct (Hm s) as [Hst Hrd].
  destruct (m s) as [[[a | | code] s1] t1]; simpl in *; [now split | | now split].
  destruct (Hh s1) as [Hst' Hrd'].
  destruct (h s1) as [[r s2] t2]; simpl in *. subst s1.
  split; [now rewrite replay_app | now apply reads_current_app].
Qed.

Lemma current_forEach {A} (body : A -> M unit) (l : list A) :
  Forall (fun x => current (body x)) l -> current (forEach body l).
Proof.
  induction 1 as [|x rest Hx _ IH]; simpl.
  - apply current_ret.
  - apply current_bind; [exact Hx | intros _; exact IH].
Qed.

Lemma current_emit (e : event) :
  (forall s, effect e s = s) ->
  (forall q r, e <> EvReadFile q r) ->
  current (emit e).
Proof.
  intros He Hne s. simpl. rewrite He. split; [reflexivity|].
  split; [|exact Logic.I]. destruct e; try exact Logic.I. now destruct (Hne p result).
Qed.

Lemma current_throw_after {A} (e : event) :
  (forall s, effect e s = s) ->
  (forall q r, e <> EvReadFile q r) ->
  current (@throw_after A e).
Proof.
  intros He Hne s. simpl. rewrite He. split; [reflexivity|].
  split; [|exact Logic.I]. destruct e; try exact Logic.I. now destruct (Hne p result).
Qed.

Variable cfg : config.
Variable w : world.

Lemma current_appendFile (p : path) (data : string) : current (fs_appendFile w p data).
Proof.
  intros s. unfold fs_appendFile.
  destruct (append_ok w (appends s)); simpl; now repeat split.
Qed.

Lemma current_writeFile (p : path) (data : string) : current (fs_writeFile w p data).
Proof.
  intros s. unfold fs_writeFile. destruct (write_ok w); simpl; now repeat split.
Qed.

Lemma current_readFile (file : node) (p : path) : current (fs_readFile file p).
Proof.
  intros s. unfold fs_readFile.
  destruct file as [[|]|]; [destruct (contents s !! p) eqn:Hc | |]; simpl;
    now repeat split.
Qed.

Lemma current_console_log (msg : string) : current (console_log msg).
Proof. apply current_emit; [reflexivity | discriminate]. Qed.

Lemma current_console_error (msg : string) : current (console_error msg).
Proof. apply current_emit; [reflexivity | discriminate]. Qed.

Lemma current_processFile (file : node) (filePath out : path) :
  current (processFile w file filePath out).
Proof.
  unfold processFile. apply current_try_catch; [|apply current_console_error].
  apply current_bind; [apply current_readFile|]. intros c.
  apply current_bind; [apply current_appendFile|]. intros _.
  apply current_console_log.
Qed.

Lemma current_logSkippedFile (filePath out : path) (reason : string) :
  current (logSkippedFile w filePath out reason).
Proof.
  unfold logSkippedFile.
  apply current_bind; [apply current_appendFile|]. intros _.
  apply current_console_log.
Qed.

Lemma current_traverseEntry (dirPath out : path) (name : string) (file : node)
    (recurse : M unit) :
  current recurse -> current (traverseEntry cfg w dirPath out name file recurse).
Proof.
  intros Hrec. unfold traverseEntry.
  repeat match goal with
         | |- context [if ?b then _ else _] => destruct b
         end;
    auto using current_ret, current_logSkippedFile, current_processFile.
Qed.

Lemma current_traverseDirectory (out : path) (dir : node) :
  forall dirPath, current (traverseDirectory cfg w dir dirPath out).
Proof.
  induction dir as [readable | listable entries IH] using node_tree_ind;
    intros dirPath; rewrite traverseDirectory_unfold;
    (apply current_try_catch; [|apply current_console_error]).
  - apply current_throw_after; [reflexivity | discriminate].
  - destruct listable; simpl;
      [|apply current_throw_after; [reflexivity | discriminate]].
    apply current_bind; [apply current_emit; [reflexivity | discriminate]|].
    intros _. apply current_forEach.
    eapply Forall_impl; [exact IH|].
    intros [name file] Hfile. simpl in *. apply current_traverseEntry, Hfile.
Qed.

End Current.

Lemma reads_recorded_app (w : world) (out : path) (t1 t2 : list event) :
  reads_recorded w out t1 -> reads_recorded w out t2 -> reads_recorded w out (t1 ++ t2).
Proof.
  induction t1 as [|e t1 IH]; simpl; [auto|].
  intros [He H1] H2. split; [|auto].
  destruct e as [| | |q [c|]| | | |]; auto.
  destruct He as (ok & rest & ->). now exists ok, (rest ++ t2).
Qed.

Lemma reads_recorded_at (w : world) (out : path) (t1 t2 : list event) (q : path)
    (c : string) :
  reads_recorded w out (t1 ++ EvReadFile q (Some c) :: t2) ->
  exists ok rest,
    t2 = EvAppendFile out (processedRecord (Path.relative (cwd w) q) c) ok :: rest.
Proof. induction t1 as [|e t1 IH]; simpl; intros [H1 H2]; auto. Qed.

Section Recorded.

Variable cfg : config.
Variable w : world.
Variable out : path.

Lemma recorded_one (e : event) :
  (forall q c, e <> EvReadFile q (Some c)) -> reads_recorded w out [e].
Proof.
  intros Hne. simpl. split; [|exact Logic.I].
  destruct e as [| | |q [c|]| | | |]; try exact Logic.I. now destruct (Hne q c).
Qed.

Lemma sound_recorded_logSkippedFile (filePath : path) (reason : string) :
  sound (reads_recorded w out) (logSkippedFile w filePath out reason).
Proof.
  unfold logSkippedFile. apply sound_bind; [apply reads_recorded_app | |].
  - apply sound_appendFile. intros ok. now apply recorded_one.
  - intros _. apply sound_emit; [reflexivity | now apply recorded_one].
Qed.

Lemma sound_recorded_processFile (file : node) (filePath : path) :
  sound (reads_recorded w out) (processFile w file filePath out).
Proof.
  intros s. split; [|split].
  - intros code. now rewrite processFile_done.
  - apply processFile_state.
  - destruct (processFile_cases w out file filePath s) as [-> | (c & ok & -> & _)].
    + simpl. auto.
    + simpl. split; [do 2 eexists; reflexivity|]. destruct ok; simpl; auto.
Qed.

Lemma sound_recorded_traverseEntry (dirPath : path) (name : string) (file : node)
    (recurse : M unit) :
  sound (reads_recorded w out) recurse ->
  sound (reads_recorded w out) (traverseEntry cfg w dirPath out name file recurse).
Proof.
  intros Hrec. unfold traverseEntry.
  repeat match goal with
         | |- context [if ?b then _ else _] => destruct b
         end;
    auto using sound_recorded_logSkippedFile, sound_recorded_processFile;
    now apply sound_ret.
Qed.

Lemma sound_recorded_traverseDirectory (dir : node) :
  forall dirPath,
    sound (reads_recorded w out) (traverseDirectory cfg w dir dirPath out).
Proof.
  induction dir as [readable | listable entries IH] using node_tree_ind;
    intros dirPath; rewrite traverseDirectory_unfold;
    (apply sound_try_catch;
     [apply reads_recorded_app
     |
     |apply sound_emit; [reflexivity | now apply recorded_one]]).
  - simpl. apply sound_throw_after; [reflexivity | now apply recorded_one].
  - destruct listable; simpl;
      [|apply sound_throw_after; [reflexivity | now apply recorded_one]].
    apply sound_bind; [apply reads_recorded_app | |].
    + apply sound_emit; [reflexivity | now apply recorded_one].
    + intros _. apply sound_forEach; [exact Logic.I | apply reads_recorded_app |].
      eapply Forall_impl; [exact IH|].
      intros [name file] Hfile. simpl in *. apply sound_recorded_traverseEntry, Hfile.
Qed.

End Recorded.

(** X5. A run that comes to read its own output file, because that file
    is an entry of the tree it walks, gets what the run itself has written
    so far: the records appended with success before that read, and
    nothing of what the file held before the run.  The next call appends
    the Processed record of the output file, with all those records as its
    contents, to the output file. *)
Theorem own_output_read_as_written_so_far (cfg : config) (w : world)
    (store : gmap (list string) string) (t1 t2 : list event) (c : string) :
  (run cfg w store).2 = t1 ++ EvReadFile (outputFilePath cfg w) (Some c) :: t2 ->
  c = appended t1
  /\ exists ok rest,
       t2 = EvAppendFile (outputFilePath cfg w)
              (processedRecord (Path.relative (cwd w) (outputFilePath cfg w)) (appended t1))
              ok
            :: rest.
Proof.
  intros Hsplit.
  assert (c = appended t1) as Hc.
  { destruct (run_cases cfg w store) as [| |t _ _ Ht Hinv]; simpl in Hsplit.
    - destruct t1 as [|a [|b [|d [|]]]]; discriminate Hsplit.
    - destruct t1 as [|a [|b [|d [|]]]]; discriminate Hsplit.
    - destruct t1 as [|a [|b [|d t1]]]; try discriminate Hsplit.
      injection Hsplit as <- <- <- Hsplit.
      destruct (current_traverseDirectory cfg w (outputFilePath cfg w)
                  (node_at w (targetDir cfg w)) (targetDir cfg w) (truncated cfg w store))
        as [_ Hrd].
      rewrite Ht in Hrd. simpl in Hrd.
      assert (reads_current (truncated cfg w store) (t ++ [EvLog (finished cfg w)]))
        as Hall.
      { apply reads_current_app. split; [exact Hrd | simpl; auto]. }
      rewrite Hsplit in Hall. apply reads_current_at in Hall.
      destruct (Inv_writes_only cfg w _ _ _ Hinv) as [Hwr Htr].
      assert (Forall (writes_only (outputFilePath cfg w)) t1
              /\ Forall (fun e => is_truncation e = false) t1) as [Hwr1 Htr1].
      { assert (Forall (writes_only (outputFilePath cfg w)) (t ++ [EvLog (finished cfg w)])
                /\ Forall (fun e => is_truncation e = false)
                     (t ++ [EvLog (finished cfg w)])) as [H1 H2].
        { split; apply Forall_app; split; auto; repeat constructor. }
        rewrite Hsplit in H1, H2.
        apply Forall_app in H1 as [H1 _]. apply Forall_app in H2 as [H2 _]. now split. }
      rewrite (Replay.output _ t1 Hwr1 Htr1 _ "") in Hall.
      + now injection Hall as <-.
      + simpl. apply lookup_insert_eq. }
  split; [exact Hc|]. subst c.
  apply (reads_recorded_at w (outputFilePath cfg w) t1).
  rewrite <- Hsplit.
  destruct (run_cases cfg w store) as [| |t _ _ Ht _]; simpl; auto.
  split; [exact Logic.I|]. split; [exact Logic.I|]. split; [exact Logic.I|].
  apply reads_recorded_app; [|simpl; auto].
  pose proof (sound_recorded_traverseDirectory cfg w (outputFilePath cfg w)
                (node_at w (targetDir cfg w)) (targetDir cfg w) (truncated cfg w store))
    as (_ & _ & Hrec).
  now rewrite Ht in Hrec.
Qed.

(** ** Runs at the edges *)

(** X6. The scan root is exempt from both filters: once it passes the
    check and the output file is truncated, the run lists it, whether or not
    an exclude pattern matches it and whatever [includeDirs] holds. *)
Theorem scan_root_is_never_filtered (cfg : config) (w : world)
    (store : gmap (list string) string) :
  is_Some (lookup_node (fsroot w) (targetDir cfg w)) ->
  write_ok w = true ->
  exists ok rest,
    (run cfg w store).2 =
      [EvAccess (targetDir cfg w) true;
       EvWriteFile (outputFilePath cfg w) "" true;
       EvLog (traversing cfg w);
       EvReaddir (targetDir cfg w) ok] ++ rest.
Proof.
  intros [n Hn] Hw.
  destruct (run_cases cfg w store) as [Hno | _ Hno | t _ _ Ht _];
    [congruence | congruence |].
  rewrite traverseDirectory_unfold in Ht. unfold try_catch in Ht.
  destruct (node_at w (targetDir cfg w)) as [readable | [|] entries]; simpl in Ht.
  - injection Ht as _ <-. simpl. do 2 eexists. reflexivity.
  - unfold bind in Ht. simpl in Ht.
    destruct (forEach _ entries _) as [[[[] | | code] s1] t1];
      simpl in Ht; try discriminate Ht;
      injection Ht as _ <-; simpl; do 2 eexists; reflexivity.
  - injection Ht as _ <-. simpl. do 2 eexists. reflexivity.
Qed.

(** A project kept in a directory named [build] is scanned all the same. *)
Example excluded_name_as_scan_root :
  let w := {| cwd := ["home"; "build"];
              fsroot := Dir true [("home", Dir true [("build", Dir true [("a.js", File true)])])];
              write_ok := true; append_ok := fun _ => true |} in
  isExcluded defaultConfig (cwd w) (targetDir defaultConfig w) = true
  /\ (run defaultConfig w {[ ["home"; "build"; "a.js"] := "x" ]}).1.2
       !! ["home"; "build"; "output.sick"]
     = Some (processedRecord "a.js" "x").
Proof. split; vm_compute; reflexivity. Qed.

(** X7. When the output file cannot be written, [main] rejects before the
    walk: nothing is listed or read, no file changes, one error line is
    printed, and the exit status is 0 all the same. *)
Theorem unwritable_output_ends_run (cfg : config) (w : world)
    (store : gmap (list string) string) :
  is_Some (lookup_node (fsroot w) (targetDir cfg w)) ->
  write_ok w = false ->
  run cfg w store =
    (0, store,
     [EvAccess (targetDir cfg w) true;
      EvWriteFile (outputFilePath cfg w) "" false;
      EvError "main rejected"]).
Proof.
  intros [n Hn] Hw.
  destruct (run_cases cfg w store) as [Hno | _ _ | t _ Hyes _ _];
    [congruence | reflexivity | congruence].
Qed.

(** X8. When the scan root is there but cannot be listed (it is a file, or
    a directory [readdir] rejects), the run truncates the output file,
    reports the failed listing, reads nothing, and ends with status 0 and an
    empty output file. *)
Theorem unlistable_root_leaves_empty_output (cfg : config) (w : world)
    (store : gmap (list string) string) (root : node) :
  lookup_node (fsroot w) (targetDir cfg w) = Some root ->
  (forall entries, root <> Dir true entries) ->
  write_ok w = true ->
  run cfg w store =
    (0, <[outputFilePath cfg w := ""]> store,
     [EvAccess (targetDir cfg w) true;
      EvWriteFile (outputFilePath cfg w) "" true;
      EvLog (traversing cfg w);
      EvReaddir (targetDir cfg w) false;
      EvError ("Error traversing directory " +:+ Path.to_string (targetDir cfg w) +:+ ":");
      EvLog (finished cfg w)]).
Proof.
  intros Hroot Hnot Hw.
  destruct (run_cases cfg w store) as [Hno | _ Hno | t _ _ Ht _];
    [congruence | congruence |].
  unfold node_at in Ht. rewrite Hroot in Ht.
  rewrite traverseDirectory_unfold in Ht.
  destruct root as [readable | [|] entries]; [| now destruct (Hnot entries) |];
    simpl in Ht; injection Ht as Hst <-; reflexivity.
Qed.

(** ** Without placeholders no sibling is lost *)

Section Visits.

Variable cfg : config.
Variable w : world.
Variable out : path.

(** No iteration of the loop is cut short. *)
Hypothesis iterations_complete :
  forall dirPath name file s,
    (traverseEntry cfg w dirPath out name file
       (traverseDirectory cfg w file (dirPath ++ [name]) out) s).1.1 = Done tt.

Lemma listed_entry_visited (entries : list (string * node)) (dirPath : path)
    (name : string) (file : node) :
  In (name, file) entries ->
  forall s, exists sx, forall e,
    In e (traverseEntry cfg w dirPath out name file
            (traverseDirectory cfg w file (dirPath ++ [name]) out) sx).2 ->
    In e (traverseDirectory cfg w (Dir true entries) dirPath out s).2.
Proof.
  intros Hin s.
  destruct (forEach_reaches
              (fun '(name, file) =>
                 traverseEntry cfg w dirPath out name file
                   (traverseDirectory cfg w file (Path.join_entry dirPath name) out))
              entries) with (x := (name, file)) (s := s) as [sx Hsx]; auto.
  { intros [n f] s0 _. apply iterations_complete. }
  exists sx. intros e He.
  rewrite (traverseDirectory_unfold cfg w out (Dir true entries) dirPath).
  apply try_catch_contains. simpl. unfold bind at 1. simpl.
  specialize (Hsx e He).
  destruct (forEach _ entries s) as [[r2 s2] t2]. simpl in *. now right.
Qed.

Lemma reaches_visited (dir : node) (dirPath parent : path) (name : string) (file : node) :
  reaches cfg w dir dirPath parent name file ->
  forall s, exists sx, forall e,
    In e (traverseEntry cfg w parent out name file
            (traverseDirectory cfg w file (parent ++ [name]) out) sx).2 ->
    In e (traverseDirectory cfg w dir dirPath out s).2.
Proof.
  induction 1 as [entries dirPath name file Hin
                 | entries dirPath sub subdir parent name file Hin Hex Hinc Hsub IH];
    intros s.
  - now apply listed_entry_visited.
  - destruct (listed_entry_visited entries dirPath sub subdir Hin s) as [sx Hsx].
    destruct (IH sx) as [sy Hsy].
    exists sy. intros e He. apply Hsx.
    unfold traverseEntry, Path.join_entry. rewrite Hex, Hinc.
    assert (isDirectory subdir = true) as -> by (inversion Hsub; reflexivity).
    now apply Hsy.
Qed.

End Visits.

(** X9. An append that fails costs siblings only through a placeholder:
    with [showExcluded] and [showSkipped] both off no iteration of the loop
    rejects, and the walk reads every file it reaches that is not excluded
    and has a listed extension, whichever appends fail. *)
Theorem without_placeholders_no_sibling_is_lost (cfg : config) (w : world)
    (dir : node) (dirPath out : path) (s : fstate)
    (parent : path) (name : string) (file : node) :
  showExcluded cfg = false ->
  showSkipped cfg = false ->
  reaches cfg w dir dirPath parent name file ->
  isDirectory file = false ->
  isExcluded cfg (cwd w) (parent ++ [name]) = false ->
  In (Path.extname name) (includeExtensions cfg) ->
  exists r, In (EvReadFile (parent ++ [name]) r) (traverseDirectory cfg w dir dirPath out s).2.
Proof.
  intros Hshow1 Hshow2 Hreach Hdir Hex Hext.
  assert (forall dirPath name file s,
             (traverseEntry cfg w dirPath out name file
                (traverseDirectory cfg w file (dirPath ++ [name]) out) s).1.1 = Done tt)
    as Hdone.
  { intros d n f s0.
    destruct (traverseEntry_outcome cfg w out d n f s0)
      as [H | (_ & _ & [[_ H] | (_ & _ & _ & H)])]; [exact H | congruence..]. }
  destruct (reaches_visited cfg w out Hdone _ _ _ _ _ Hreach s) as [sx Hsx].
  apply qualifiesByExtension_iff in Hext.
  assert (exists r, In (EvReadFile (parent ++ [name]) r)
            (processFile w file (parent ++ [name]) out sx).2) as [r Hr].
  { destruct (processFile_cases w out file (parent ++ [name]) sx) as [-> | (c & ok & -> & _)];
      eexists; now left. }
  exists r. apply Hsx. unfold traverseEntry, Path.join_entry.
  now rewrite Hex, Hdir, Hext.
Qed.

(** ** The configuration *)

Module CliFacts.

(** An argument that ends with a comma has an empty last piece. *)
Lemma split_trailing_comma (v : string) :
  exists first middle, Cli.split_commas (v +:+ ",") = first :: middle ++ [""].
Proof.
  induction v as [|c v IHv].
  - now exists "", [].
  - destruct IHv as (first & middle & IH).
    rewrite StrFacts.app_cons. simpl. rewrite IH.
    destruct (Ascii.eqb c ",").
    + now exists "", (first :: middle).
    + now exists (String c first), middle.
Qed.

Lemma split_has_empty (arg : string) :
  arg = "" \/ (exists v, arg = v +:+ ",") -> In "" (Cli.split_commas arg).
Proof.
  intros [-> | [v ->]]; [now left|].
  destruct (split_trailing_comma v) as (first & middle & ->).
  right. apply in_or_app. right. now left.
Qed.

(** The pieces put together again, with the commas, are the argument. *)
Lemma split_commas_concat (arg : string) :
  String.concat "," (Cli.split_commas arg) = arg.
Proof.
  induction arg as [|c arg IH]; [reflexivity|]. simpl.
  destruct (Ascii.eqb_spec c ",") as [-> | Hne].
  - destruct (Cli.split_commas arg) as [|piece rest] eqn:Hsplit.
    + simpl in IH. now subst.
    + rewrite Heredity.concat_cons by discriminate. now rewrite IH.
  - destruct (Cli.split_commas arg) as [|piece rest] eqn:Hsplit.
    + simpl in IH. now subst.
    + destruct rest as [|next rest].
      * simpl in *. now subst.
      * rewrite Heredity.concat_cons in * by discriminate.
        rewrite StrFacts.app_cons. now rewrite IH.
Qed.

End CliFacts.

(** Without a configuration file and without options the engine runs with
    the defaults. *)
Example bare_run_uses_defaults : Cli.configure None Cli.bare = defaultConfig.
Proof. reflexivity. Qed.

(** X10. The two flags can only turn placeholders on: a kind of
    placeholder is off exactly when its flag is not given and a
    configuration file sets the key to false.  No command line turns off
    what the defaults or the file turn on. *)
Theorem show_flags_only_turn_on (file : option Cli.overrides) (args : Cli.arguments) :
  (showExcluded (Cli.configure file args) = false <->
   Cli.flagShowExcluded args = false
   /\ exists f, file = Some f /\ Cli.setShowExcluded f = Some false)
  /\ (showSkipped (Cli.configure file args) = false <->
      Cli.flagShowSkipped args = false
      /\ exists f, file = Some f /\ Cli.setShowSkipped f = Some false).
Proof.
  unfold Cli.configure, Cli.resolved, Cli.opts, Cli.merged. simpl.
  destruct file as [f|]; simpl.
  - destruct (Cli.flagShowExcluded args), (Cli.flagShowSkipped args),
      (Cli.setShowExcluded f) as [[|]|] eqn:H1, (Cli.setShowSkipped f) as [[|]|] eqn:H2;
      simpl; (split; split; [intros H | intros [H (f' & Hf & Hset)]
                     | intros H | intros [H (f' & Hf & Hset)]]);
      try discriminate; try congruence;
      (split; [reflexivity|]; eexists; split; [reflexivity | assumption]).
  - destruct (Cli.flagShowExcluded args), (Cli.flagShowSkipped args);
      simpl; (split; split; [intros H | intros [H (f' & Hf & Hset)]
                     | intros H | intros [H (f' & Hf & Hset)]]);
      discriminate.
Qed.

(** X11. Command line over configuration file over defaults, with two
    twists of [||]: an empty [--scan] or [--output] argument counts as not
    given, while a list option that is given always wins, whatever it splits
    into; and [--exclude] replaces both the [exclude] and the [excludeFiles]
    list, which are joined only when it is not given. *)
Theorem command_line_over_file_over_defaults
    (file : option Cli.overrides) (args : Cli.arguments) :
  let conf := Cli.merged file in
  let cfg := Cli.configure file args in
  (forall v, Cli.argScan args = Some v -> v <> "" -> scanDir cfg = v)
  /\ (Cli.argScan args = None \/ Cli.argScan args = Some "" -> scanDir cfg = Cli.scan conf)
  /\ (forall v, Cli.argOutput args = Some v -> v <> "" -> outputFile cfg = v)
  /\ (Cli.argOutput args = None \/ Cli.argOutput args = Some "" ->
      outputFile cfg = Cli.outputFile conf)
  /\ (forall v, Cli.argInclude args = Some v -> includeDirs cfg = Cli.split_commas v)
  /\ (Cli.argInclude args = None -> includeDirs cfg = Cli.include conf)
  /\ (forall v, Cli.argExtensions args = Some v ->
                includeExtensions cfg = Cli.split_commas v)
  /\ (Cli.argExtensions args = None -> includeExtensions cfg = Cli.extensions conf)
  /\ (forall v, Cli.argExclude args = Some v -> excludePatterns cfg = Cli.split_commas v)
  /\ (Cli.argExclude args = None ->
      excludePatterns cfg = Cli.exclude conf ++ Cli.excludeFiles conf)
  /\ (forall f v, file = Some f -> Cli.setScan f = Some v -> Cli.scan conf = v)
  /\ (file = None \/ (exists f, file = Some f /\ Cli.setScan f = None) ->
      Cli.scan conf = ".").
Proof.
  intros conf cfg. unfold cfg, Cli.configure, Cli.resolved, Cli.opts. fold conf. simpl.
  repeat split.
  - intros v -> Hv. simpl. apply String.eqb_neq in Hv. now rewrite Hv.
  - intros [-> | ->]; simpl; [|reflexivity].
    now destruct (String.eqb (Cli.scan conf) "").
  - intros v -> Hv. simpl. apply String.eqb_neq in Hv. now rewrite Hv.
  - intros [-> | ->]; simpl; [|reflexivity].
    now destruct (String.eqb (Cli.outputFile conf) "").
  - now intros v ->.
  - now intros ->.
  - now intros v ->.
  - now intros ->.
  - now intros v ->.
  - now intros ->.
  - intros f v -> Hv. unfold conf. simpl. now rewrite Hv.
  - intros [-> | (f & -> & Hf)]; unfold conf; simpl; [reflexivity | now rewrite Hf].
Qed.

(** X12. A list argument that is empty or ends with a comma has an empty
    member, and the empty string occurs in every path: given to
    [--exclude] it excludes every path, given to [--include] it lets every
    directory pass. *)
Theorem trailing_comma_matches_everything
    (file : option Cli.overrides) (args : Cli.arguments) (arg : string) :
  arg = "" \/ (exists v, arg = v +:+ ",") ->
  (Cli.argExclude args = Some arg ->
   forall cwd p, isExcluded (Cli.configure file args) cwd p = true)
  /\ (Cli.argInclude args = Some arg ->
      forall p, shouldRecurse (Cli.configure file args) p = true).
Proof.
  intros Harg. apply CliFacts.split_has_empty in Harg. split.
  - intros Hgiven cwd p. unfold isExcluded. apply existsb_exists. exists "".
    split; [|now rewrite includes_empty].
    unfold Cli.configure, Cli.resolved, Cli.opts. simpl. now rewrite Hgiven.
  - intros Hgiven p. unfold shouldRecurse. apply orb_true_iff. right.
    apply existsb_exists. exists "". split; [|apply includes_empty].
    unfold Cli.configure, Cli.resolved, Cli.opts. simpl. now rewrite Hgiven.
Qed.

(** ** Order and composition *)

Lemma bind_assoc {A B C} (m : M A) (f : A -> M B) (g : B -> M C) (s : fstate) :
  bind (bind m f) g s = bind m (fun a => bind (f a) g) s.
Proof.
  unfold bind. destruct (m s) as [[[a | | code] s1] t1]; try reflexivity.
  destruct (f a s1) as [[[b | | code] s2] t2]; try reflexivity.
  destruct (g b s2) as [[r s3] t3]. now rewrite app_assoc.
Qed.

Lemma bind_ext {A B} (m : M A) (f g : A -> M B) (s : fstate) :
  (forall a s', f a s' = g a s') -> bind m f s = bind m g s.
Proof.
  intros Hfg. unfold bind. destruct (m s) as [[[a | | code] s1] t1]; try reflexivity.
  now rewrite Hfg.
Qed.

Lemma forEach_app {A} (body : A -> M unit) (l1 l2 : list A) (s : fstate) :
  forEach body (l1 ++ l2) s = bind (forEach body l1) (fun _ => forEach body l2) s.
Proof.
  revert s. induction l1 as [|x l1 IH]; intros s; simpl.
  - unfold bind, ret. simpl. now destruct (forEach body l2 s) as [[r s'] t].
  - rewrite bind_assoc. apply bind_ext. intros _ s'. apply IH.
Qed.

Section Composition.

Variable cfg : config.
Variable w : world.
Variable out : path.

Hypothesis appends_succeed : forall k, append_ok w k = true.

Lemma forEach_done (dirPath : path) (entries : list (string * node)) (s : fstate) :
  (forEach
     (fun '(name, file) =>
        traverseEntry cfg w dirPath out name file
          (traverseDirectory cfg w file (Path.join_entry dirPath name) out))
     entries s).1.1 = Done tt.
Proof.
  revert s. induction entries as [|[name file] rest IH]; intros s; [reflexivity|].
  simpl. unfold bind.
  pose proof (traverseEntry_done cfg w out appends_succeed dirPath name file s) as Hdone.
  unfold Path.join_entry.
  destruct (traverseEntry _ _ _ _ _ _ _ s) as [[r s1] t1]. simpl in Hdone. subst r.
  specialize (IH s1). destruct (forEach _ rest s1) as [[r s2] t2]. exact IH.
Qed.

(** The walk of a listable directory, when no append fails, is its loop. *)
Lemma traverseDirectory_listable (dirPath : path) (entries : list (string * node))
    (s : fstate) :
  let loop :=
    forEach
      (fun '(name, file) =>
         traverseEntry cfg w dirPath out name file
           (traverseDirectory cfg w file (Path.join_entry dirPath name) out))
      entries s in
  traverseDirectory cfg w (Dir true entries) dirPath out s
  = (Done tt, loop.1.2, EvReaddir dirPath true :: loop.2).
Proof.
  intros loop. rewrite traverseDirectory_unfold. unfold try_catch. simpl.
  unfold bind. simpl. pose proof (forEach_done dirPath entries s) as Hdone.
  fold loop. fold loop in Hdone.
  destruct loop as [[r s1] t1]. simpl in *. now subst r.
Qed.

End Composition.

(** X13. Listing order is output order: when no append fails, walking a
    directory whose entries are [l1] followed by [l2] leaves the files as
    walking [l1] and then, from there, [l2] does, and appends what the first
    walk appends followed by what the second appends. *)
Theorem walk_composes_in_listing_order (cfg : config) (w : world)
    (dirPath out : path) (l1 l2 : list (string * node)) (s : fstate) :
  (forall k, append_ok w k = true) ->
  let first := traverseDirectory cfg w (Dir true l1) dirPath out s in
  let later := traverseDirectory cfg w (Dir true l2) dirPath out first.1.2 in
  let whole := traverseDirectory cfg w (Dir true (l1 ++ l2)) dirPath out s in
  whole.1.2 = later.1.2
  /\ appended whole.2 = appended first.2 +:+ appended later.2.
Proof.
  intros Hok first later whole. unfold whole, later, first.
  rewrite !(traverseDirectory_listable cfg w out Hok). simpl.
  rewrite forEach_app. unfold bind.
  pose proof (forEach_done cfg w out Hok dirPath l1 s) as Hdone.
  destruct (forEach _ l1 s) as [[r s1] t1]. simpl in Hdone. subst r. simpl.
  destruct (forEach _ l2 s1) as [[r2 s2] t2]. simpl.
  split; [reflexivity | apply Replay.appended_app].
Qed.

(** X14. Exclusion does not depend on where the tree lives: moving the
    working directory and a path other than the root of the file system
    under the same directory leaves [isExcluded] as it was. *)
Theorem exclusion_is_relocatable (cfg : config) (base cwd p : path) :
  p <> [] ->
  isExcluded cfg (base ++ cwd) (base ++ p) = isExcluded cfg cwd p.
Proof.
  intros Hp. unfold isExcluded.
  assert (Path.relative (base ++ cwd) (base ++ p) = Path.relative cwd p) as ->.
  { unfold Path.relative. induction base as [|b base IH]; [reflexivity|].
    simpl. now rewrite String.eqb_refl. }
  assert (Path.basename (base ++ p) = Path.basename p) as ->.
  { unfold Path.basename. destruct p as [|x p _] using rev_ind; [contradiction|].
    now rewrite app_assoc, !last_last. }
  reflexivity.
Qed.

(** ** The further properties at concrete inputs *)

Lemma exclusion_inherited_witness :
  ~ ["proj"; "node_modules"] `prefix_of` ["proj"]
  /\ isExcluded defaultConfig ["proj"] ["proj"; "node_modules"] = true
  /\ isExcluded defaultConfig ["proj"] (["proj"; "node_modules"] ++ ["lib.js"]) = true.
Proof.
  assert (~ ["proj"; "node_modules"] `prefix_of` ["proj"]) as Hnot.
  { intros [k Hk]. discriminate Hk. }
  split; [exact Hnot|]. split; [reflexivity|].
  exact (exclusion_inherited defaultConfig ["proj"] ["proj"; "node_modules"] ["lib.js"]
           Hnot eq_refl).
Defined.

Lemma empty_pattern_excludes_everything_witness :
  In "" (excludePatterns (Cli.configure None Sample.typed))
  /\ isExcluded (Cli.configure None Sample.typed) (cwd Sample.healthy) ["proj"; "src"] = true
  /\ forall q r,
       ~ In (EvReadFile q r)
            (traverseDirectory (Cli.configure None Sample.typed) Sample.healthy
               Sample.project ["proj"] ["proj"; "output.sick"] Sample.start).2.
Proof.
  assert (In "" (excludePatterns (Cli.configure None Sample.typed))) as Hempty.
  { simpl. right. left. reflexivity. }
  pose proof (empty_pattern_excludes_everything (Cli.configure None Sample.typed)
                Sample.healthy Sample.project ["proj"] ["proj"; "output.sick"]
                Sample.start Hempty) as (Hall & Hread & _).
  split; [exact Hempty|]. split; [apply Hall | exact Hread].
Defined.

Lemma walk_only_appends_witness :
  ["proj"; "src"; "a.js"] <> ["proj"; "output.sick"]
  /\ contents Sample.start !! ["proj"; "output.sick"] = Some ""
  /\ contents
       (traverseDirectory defaultConfig Sample.faulty
          (node_at Sample.faulty ["proj"]) ["proj"] ["proj"; "output.sick"]
          Sample.start).1.2 !! ["proj"; "src"; "a.js"]
     = contents Sample.start !! ["proj"; "src"; "a.js"]
  /\ contents
       (traverseDirectory defaultConfig Sample.faulty
          (node_at Sample.faulty ["proj"]) ["proj"] ["proj"; "output.sick"]
          Sample.start).1.2 !! ["proj"; "output.sick"]
     = Some ("" +:+ appended
               (traverseDirectory defaultConfig Sample.faulty
                  (node_at Sample.faulty ["proj"]) ["proj"] ["proj"; "output.sick"]
                  Sample.start).2).
Proof.
  assert (["proj"; "src"; "a.js"] <> ["proj"; "output.sick"]) as Hne by discriminate.
  pose proof (walk_only_appends defaultConfig Sample.faulty
                (node_at Sample.faulty ["proj"]) ["proj"] ["proj"; "output.sick"]
                Sample.start) as (Hother & Hout & _).
  split; [exact Hne|]. split; [reflexivity|].
  split; [exact (Hother _ Hne) | exact (Hout "" eq_refl)].
Defined.

Lemma every_failure_and_record_reported_witness :
  is_Some (lookup_node (fsroot Sample.faulty) (targetDir defaultConfig Sample.faulty))
  /\ write_ok Sample.faulty = true
  /\ count is_failure (run defaultConfig Sample.faulty Sample.faulty_files).2
     = count is_error (run defaultConfig Sample.faulty Sample.faulty_files).2
  /\ count is_log (run defaultConfig Sample.faulty Sample.faulty_files).2
     = count is_appended (run defaultConfig Sample.faulty Sample.faulty_files).2 + 2.
Proof.
  assert (is_Some (lookup_node (fsroot Sample.faulty)
                     (targetDir defaultConfig Sample.faulty))) as Hroot
      by (eexists; reflexivity).
  pose proof (every_failure_and_record_reported defaultConfig Sample.faulty
                Sample.faulty_files) as (Hfail & Hlog & _).
  split; [exact Hroot|]. split; [reflexivity|].
  split; [exact Hfail | exact (Hlog Hroot eq_refl)].
Defined.

Lemma own_output_read_as_written_so_far_witness :
  (run Sample.into_itself Sample.with_output Sample.with_output_files).2
  = firstn 7 (run Sample.into_itself Sample.with_output Sample.with_output_files).2
    ++ EvReadFile (outputFilePath Sample.into_itself Sample.with_output)
         (Some (processedRecord "a.js" "x"))
    :: skipn 8 (run Sample.into_itself Sample.with_output Sample.with_output_files).2
  /\ Sample.with_output_files !! outputFilePath Sample.into_itself Sample.with_output
     = Some "stale"
  /\ processedRecord "a.js" "x"
     = appended
         (firstn 7 (run Sample.into_itself Sample.with_output Sample.with_output_files).2)
  /\ exists ok rest,
       skipn 8 (run Sample.into_itself Sample.with_output Sample.with_output_files).2
       = EvAppendFile (outputFilePath Sample.into_itself Sample.with_output)
           (processedRecord
              (Path.relative (cwd Sample.with_output)
                 (outputFilePath Sample.into_itself Sample.with_output))
              (appended
                 (firstn 7
                    (run Sample.into_itself Sample.with_output Sample.with_output_files).2)))
           ok
         :: rest.
Proof.
  assert ((run Sample.into_itself Sample.with_output Sample.with_output_files).2
          = firstn 7 (run Sample.into_itself Sample.with_output Sample.with_output_files).2
            ++ EvReadFile (outputFilePath Sample.into_itself Sample.with_output)
                 (Some (processedRecord "a.js" "x"))
            :: skipn 8 (run Sample.into_itself Sample.with_output
                          Sample.with_output_files).2) as Hsplit
      by (vm_compute; reflexivity).
  split; [exact Hsplit|]. split; [reflexivity|].
  exact (own_output_read_as_written_so_far Sample.into_itself Sample.with_output
           Sample.with_output_files _ _ _ Hsplit).
Defined.

Lemma scan_root_is_never_filtered_witness :
  is_Some (lookup_node (fsroot Sample.healthy) (targetDir defaultConfig Sample.healthy))
  /\ write_ok Sample.healthy = true
  /\ exists ok rest,
       (run defaultConfig Sample.healthy Sample.files).2 =
         [EvAccess (targetDir defaultConfig Sample.healthy) true;
          EvWriteFile (outputFilePath defaultConfig Sample.healthy) "" true;
          EvLog (traversing defaultConfig Sample.healthy);
          EvReaddir (targetDir defaultConfig Sample.healthy) ok] ++ rest.
Proof.
  assert (is_Some (lookup_node (fsroot Sample.healthy)
                     (targetDir defaultConfig Sample.healthy))) as Hroot
      by (eexists; reflexivity).
  split; [exact Hroot|]. split; [reflexivity|].
  exact (scan_root_is_never_filtered defaultConfig Sample.healthy Sample.files Hroot eq_refl).
Defined.

Lemma unwritable_output_ends_run_witness :
  is_Some (lookup_node (fsroot Sample.unwritable) (targetDir defaultConfig Sample.unwritable))
  /\ write_ok Sample.unwritable = false
  /\ run defaultConfig Sample.unwritable Sample.files =
       (0, Sample.files,
        [EvAccess (targetDir defaultConfig Sample.unwritable) true;
         EvWriteFile (outputFilePath defaultConfig Sample.unwritable) "" false;
         EvError "main rejected"]).
Proof.
  assert (is_Some (lookup_node (fsroot Sample.unwritable)
                     (targetDir defaultConfig Sample.unwritable))) as Hroot
      by (eexists; reflexivity).
  split; [exact Hroot|]. split; [reflexivity|].
  exact (unwritable_output_ends_run defaultConfig Sample.unwritable Sample.files
           Hroot eq_refl).
Defined.

Lemma unlistable_root_leaves_empty_output_witness :
  lookup_node (fsroot Sample.healthy) (targetDir Sample.on_a_file Sample.healthy)
  = Some (File true)
  /\ (forall entries, File true <> Dir true entries)
  /\ write_ok Sample.healthy = true
  /\ (run Sample.on_a_file Sample.healthy Sample.files).1.1 = 0
  /\ (run Sample.on_a_file Sample.healthy Sample.files).1.2
       !! outputFilePath Sample.on_a_file Sample.healthy = Some "".
Proof.
  assert (forall entries, File true <> Dir true entries) as Hnot by discriminate.
  pose proof (unlistable_root_leaves_empty_output Sample.on_a_file Sample.healthy
                Sample.files (File true) eq_refl Hnot eq_refl) as Hrun.
  split; [reflexivity|]. split; [exact Hnot|]. split; [reflexivity|].
  rewrite Hrun. split; [reflexivity | apply lookup_insert_eq].
Defined.

Lemma without_placeholders_no_sibling_is_lost_witness :
  showExcluded Sample.quiet = false
  /\ showSkipped Sample.quiet = false
  /\ append_ok Sample.faulty 0 = false
  /\ reaches Sample.quiet Sample.faulty
       (Dir true
          [("src", Dir false [("a.js", File true)]);
           ("lib", Dir true [("y.js", File false); ("z.js", File true)]);
           ("README.md", File true);
           ("index.js", File true)])
       ["proj"] ["proj"] "index.js" (File true)
  /\ isDirectory (File true) = false
  /\ isExcluded Sample.quiet (cwd Sample.faulty) (["proj"] ++ ["index.js"]) = false
  /\ In (Path.extname "index.js") (includeExtensions Sample.quiet)
  /\ exists r,
       In (EvReadFile (["proj"] ++ ["index.js"]) r)
          (traverseDirectory Sample.quiet Sample.faulty
             (Dir true
                [("src", Dir false [("a.js", File true)]);
                 ("lib", Dir true [("y.js", File false); ("z.js", File true)]);
                 ("README.md", File true);
                 ("index.js", File true)])
             ["proj"] ["proj"; "output.sick"]
             {| contents := Sample.faulty_files; appends := 0 |}).2.
Proof.
  assert (reaches Sample.quiet Sample.faulty
            (Dir true
               [("src", Dir false [("a.js", File true)]);
                ("lib", Dir true [("y.js", File false); ("z.js", File true)]);
                ("README.md", File true);
                ("index.js", File true)])
            ["proj"] ["proj"] "index.js" (File true)) as Hreach.
  { apply reach_entry. simpl. right. right. right. left. reflexivity. }
  assert (In (Path.extname "index.js") (includeExtensions Sample.quiet)) as Hext.
  { simpl. left. reflexivity. }
  split; [reflexivity|]. split; [reflexivity|]. split; [reflexivity|].
  split; [exact Hreach|]. split; [reflexivity|]. split; [reflexivity|].
  split; [exact Hext|].
  exact (without_placeholders_no_sibling_is_lost Sample.quiet Sample.faulty _ ["proj"]
           ["proj"; "output.sick"] {| contents := Sample.faulty_files; appends := 0 |}
           ["proj"] "index.js" (File true) eq_refl eq_refl Hreach eq_refl eq_refl Hext).
Defined.

Lemma show_flags_only_turn_on_witness :
  Cli.flagShowExcluded Cli.bare = false
  /\ (exists f, Some Sample.rc_file = Some f /\ Cli.setShowExcluded f = Some false)
  /\ showExcluded (Cli.configure (Some Sample.rc_file) Cli.bare) = false.
Proof.
  assert (exists f, Some Sample.rc_file = Some f /\ Cli.setShowExcluded f = Some false)
    as Hfile by (exists Sample.rc_file; split; reflexivity).
  split; [reflexivity|]. split; [exact Hfile|].
  exact (proj2 (proj1 (show_flags_only_turn_on (Some Sample.rc_file) Cli.bare))
           (conj eq_refl Hfile)).
Defined.

Lemma command_line_over_file_over_defaults_witness :
  Cli.argScan Sample.typed = Some "lib"
  /\ "lib" <> ""
  /\ scanDir (Cli.configure (Some Sample.rc_file) Sample.typed) = "lib"
  /\ (Cli.argOutput Sample.typed = None \/ Cli.argOutput Sample.typed = Some "")
  /\ outputFile (Cli.configure (Some Sample.rc_file) Sample.typed)
     = Cli.outputFile (Cli.merged (Some Sample.rc_file))
  /\ Cli.argExclude Sample.typed = Some "node_modules,"
  /\ excludePatterns (Cli.configure (Some Sample.rc_file) Sample.typed)
     = Cli.split_commas "node_modules,".
Proof.
  assert ("lib" <> "") as Hne by discriminate.
  assert (Cli.argOutput Sample.typed = None \/ Cli.argOutput Sample.typed = Some "")
    as Hout by (right; reflexivity).
  pose proof (command_line_over_file_over_defaults (Some Sample.rc_file) Sample.typed)
    as (Hscan & _ & _ & Houtput & _ & _ & _ & _ & Hexclude & _).
  split; [reflexivity|]. split; [exact Hne|].
  split; [exact (Hscan "lib" eq_refl Hne)|].
  split; [exact Hout|]. split; [exact (Houtput Hout)|].
  split; [reflexivity|]. exact (Hexclude "node_modules," eq_refl).
Defined.

Lemma trailing_comma_matches_everything_witness :
  ("node_modules," = "" \/ exists v, "node_modules," = v +:+ ",")
  /\ Cli.argExclude Sample.typed = Some "node_modules,"
  /\ isExcluded (Cli.configure None Sample.typed) ["proj"] ["proj"; "src"; "a.js"] = true.
Proof.
  assert ("node_modules," = "" \/ exists v, "node_modules," = v +:+ ",") as Harg.
  { right. exists "node_modules". reflexivity. }
  split; [exact Harg|]. split; [reflexivity|].
  exact (proj1 (trailing_comma_matches_everything None Sample.typed "node_modules," Harg)
           eq_refl ["proj"] ["proj"; "src"; "a.js"]).
Defined.

Lemma walk_composes_in_listing_order_witness :
  (forall k, append_ok Sample.healthy k = true)
  /\ appended
       (traverseDirectory defaultConfig Sample.healthy
          (Dir true ([("README.md", File true)] ++ [("src", Dir true [("a.js", File true)])]))
          ["proj"] ["proj"; "output.sick"] Sample.start).2
     = appended
         (traverseDirectory defaultConfig Sample.healthy
            (Dir true [("README.md", File true)])
            ["proj"] ["proj"; "output.sick"] Sample.start).2
       +:+ appended
             (traverseDirectory defaultConfig Sample.healthy
                (Dir true [("src", Dir true [("a.js", File true)])])
                ["proj"] ["proj"; "output.sick"]
                (traverseDirectory defaultConfig Sample.healthy
                   (Dir true [("README.md", File true)])
                   ["proj"] ["proj"; "output.sick"] Sample.start).1.2).2.
Proof.
  assert (forall k, append_ok Sample.healthy k = true) as Hok by reflexivity.
  split; [exact Hok|].
  exact (proj2 (walk_composes_in_listing_order defaultConfig Sample.healthy ["proj"]
                  ["proj"; "output.sick"] [("README.md", File true)]
                  [("src", Dir true [("a.js", File true)])] Sample.start Hok)).
Defined.

Lemma exclusion_is_relocatable_witness :
  ["proj"; "dist"] <> []
  /\ isExcluded defaultConfig (["home"; "me"] ++ ["proj"]) (["home"; "me"] ++ ["proj"; "dist"])
     = isExcluded defaultConfig ["proj"] ["proj"; "dist"].
Proof.
  assert (["proj"; "dist"] <> []) as Hne by discriminate.
  split; [exact Hne|].
  exact (exclusion_is_relocatable defaultConfig ["home"; "me"] ["proj"] ["proj"; "dist"] Hne).
Defined.
